(** * GPN Prompt Library: a shallow embedding of the entry store, the derived
      views, the entry editor and the spreadsheet bridge.

    Sources embedded here:
    - [types.ts]                    the records [PromptParameter], [PromptEntry];
    - the [App] component           [filteredPrompts], [totalPages],
                                    [paginatedPrompts], the page-clamp effect,
                                    [handleSavePrompt];
    - [components/PromptModal.tsx]  [handleSave];
    - [utils/storageManager.ts]     the workbook built by
                                    [exportToExcelWithImages], the xlsx file
                                    it travels in, [importFromExcel],
                                    [matchImagesToPrompts].

    A JavaScript string is a sequence of UTF-16 code units.  The embedding
    carries the code units below 256 (Latin-1), one [ascii] each, which is
    where every character the code inspects lives (separators, digits,
    white space, the letters of Before and After). *)

From Stdlib Require Import ZArith NArith Lia Ascii.
From Stdlib Require DecimalString DecimalN DecimalPos.
From stdpp Require Import base option list strings gmap sorting.

Local Open Scope Z_scope.

(** ** JavaScript primitives used by the sources *)

(** [String.prototype.trim] strips WhiteSpace and LineTerminator code units:
    TAB, LF, VT, FF, CR, SP and, below 256, NBSP. *)
Definition isWhiteSpace (c : ascii) : bool :=
  match c with
  | "009" | "010" | "011" | "012" | "013" | " " | "160" => true
  | _ => false
  end%char.

Fixpoint trimStart (s : string) : string :=
  match s with
  | EmptyString => EmptyString
  | String c s' => if isWhiteSpace c then trimStart s' else s
  end.

Fixpoint trimEnd (s : string) : string :=
  match s with
  | EmptyString => EmptyString
  | String c s' =>
      match trimEnd s' with
      | EmptyString => if isWhiteSpace c then EmptyString else String c EmptyString
      | r => String c r
      end
  end.

Definition trim (s : string) : string := trimEnd (trimStart s).

(** [s.split(sep)] for a one-character separator: never empty, the empty
    string splits into one empty piece. *)
Fixpoint split (sep : ascii) (s : string) : list string :=
  match s with
  | EmptyString => [EmptyString]
  | String c s' =>
      if Ascii.eqb c sep then EmptyString :: split sep s'
      else match split sep s' with
           | [] => [String c EmptyString]
           | piece :: rest => String c piece :: rest
           end
  end.

(** [xs.join(sep)]. *)
Fixpoint join (sep : string) (xs : list string) : string :=
  match xs with
  | [] => ""
  | x :: rest =>
      match rest with
      | [] => x
      | _ :: _ => x +:+ sep +:+ join sep rest
      end
  end.

Fixpoint startsWith (s search : string) {struct search} : bool :=
  match search, s with
  | EmptyString, _ => true
  | String _ _, EmptyString => false
  | String b search', String a s' => Ascii.eqb a b && startsWith s' search'
  end.

(** [s.includes(search)]. *)
Fixpoint includes (s search : string) : bool :=
  startsWith s search ||
  match s with
  | EmptyString => false
  | String _ s' => includes s' search
  end.

(** [toLowerCase] on one Latin-1 code unit: A-Z and the accented capitals
    U+00C0-U+00DE (the multiplication sign U+00D7 apart) move up by 32. *)
Definition lowerChar (c : ascii) : ascii :=
  let n := N_of_ascii c in
  if ((65 <=? n) && (n <=? 90) ||
      (192 <=? n) && (n <=? 222) && negb (n =? 215))%N
  then ascii_of_N (n + 32) else c.

Fixpoint toLowerCase (s : string) : string :=
  match s with
  | EmptyString => EmptyString
  | String c s' => String (lowerChar c) (toLowerCase s')
  end.

(** Truthiness of a string and of an optional string ([undefined] and the
    empty string are falsy). *)
Definition nonEmpty (s : string) : bool :=
  match s with EmptyString => false | String _ _ => true end.

Definition truthy (o : option string) : bool :=
  match o with Some s => nonEmpty s | None => false end.

Definition truthyFlag (o : option bool) : bool :=
  match o with Some b => b | None => false end.

(** [a || b] on strings. *)
Definition orElse (a b : string) : string := if nonEmpty a then a else b.

(** [xs.findIndex(p)]: the first index whose element satisfies [p], or -1. *)
Fixpoint findIndex {A} (p : A -> bool) (xs : list A) : Z :=
  match xs with
  | [] => -1
  | x :: rest =>
      if p x then 0
      else let i := findIndex p rest in if i <? 0 then -1 else i + 1
  end.

(** [xs.slice(start, end)] with its relative (negative) indices. *)
Definition relativeIndex (len k : Z) : Z :=
  if k <? 0 then Z.max (len + k) 0 else Z.min k len.

Definition slice {A} (xs : list A) (start stop : Z) : list A :=
  let len := Z.of_nat (length xs) in
  let from := relativeIndex len start in
  let to := relativeIndex len stop in
  take (Z.to_nat (to - from)) (drop (Z.to_nat from) xs).

(** [xs.map((x, index) => f x index)], counting from [k]. *)
Fixpoint mapWithIndex {A B} (f : A -> nat -> B) (k : nat) (xs : list A) : list B :=
  match xs with
  | [] => []
  | x :: rest => f x k :: mapWithIndex f (S k) rest
  end.

(** ** Data model ([types.ts]) *)

Record PromptParameter := mkParam {
  param_id : string;
  key : string;
  value : string
}.

Record PromptEntry := mkEntry {
  id : string;
  beforeImage : option string;
  afterImage : option string;
  prompt : string;
  model : option string;
  parameters : list PromptParameter;
  tags : list string;
  createdAt : string;
  isFavorite : option bool
}.

(** ** The browser runtime the sources call into *)

(** [dateGetTime s] is [new Date(s).getTime()], in milliseconds ([createdAt]
    is an ISO string, so the date is valid); [dateToLocaleString s] is
    [new Date(s).toLocaleString()]; [dateToISOString s] is
    [new Date(s).toISOString()], which throws a RangeError ([None]) on a
    string that is not a date; [nowISO] is [new Date().toISOString()];
    [generateId] is the value the next call of the editor's [generateId()]
    returns; [randomUUID n] is the result of the [n]-th call of
    [crypto.randomUUID()].

    [xlsxText s] is the text that the xlsx library reads back
    ([workbook.xlsx.load]) from a cell into which the string [s] was
    written ([workbook.xlsx.writeBuffer]).  The file format does not carry
    every string as it is: line ends are normalised and characters that
    XML cannot hold are dropped, so [xlsxText] is in general not the
    identity. *)
Class Runtime := {
  dateGetTime : string -> Z;
  dateToLocaleString : string -> string;
  dateToISOString : string -> option string;
  nowISO : string;
  generateId : string;
  randomUUID : nat -> string;
  xlsxText : string -> string
}.

(** ** Derived views (the [App] component) *)

Inductive View := all | favorites | report.

Definition ITEMS_PER_PAGE : Z := 12.

Definition isFavoritesView (v : View) : bool :=
  match v with favorites => true | _ => false end.

(** The [matchesSearch] constant of the filter callback. *)
Definition matchesSearch (searchTerm : string) (p : PromptEntry) : bool :=
  let searchLower := toLowerCase searchTerm in
  includes (toLowerCase (prompt p)) searchLower
  || (truthy (model p) &&
      match model p with
      | Some m => includes (toLowerCase m) searchLower
      | None => false
      end)
  || existsb (fun t => includes (toLowerCase t) searchLower) (tags p).

(** The [matchesTags] constant of the filter callback. *)
Definition matchesTags (selectedTags : gset string) (p : PromptEntry) : bool :=
  (Z.of_nat (size selectedTags) =? 0)
  || existsb (fun t => bool_decide (t ∈ selectedTags)) (tags p).

(** The callback handed to [prompts.filter]. *)
Definition keepPrompt (currentView : View) (searchTerm : string)
    (selectedTags : gset string) (p : PromptEntry) : bool :=
  if isFavoritesView currentView && negb (truthyFlag (isFavorite p)) then false
  else matchesSearch searchTerm p && matchesTags selectedTags p.

(** [Array.prototype.sort(compare)] is stable (ECMAScript 2019), so for a
    consistent comparator its result is the one stable ordering of the
    array; it is computed here by inserting from the right, each element
    placed before the first element of the sorted tail that does not
    compare strictly below it. *)
Fixpoint sortInsert {A} (compare : A -> A -> Z) (x : A) (sorted : list A) : list A :=
  match sorted with
  | [] => [x]
  | y :: rest =>
      if compare x y <=? 0 then x :: sorted
      else y :: sortInsert compare x rest
  end.

Definition arraySort {A} (compare : A -> A -> Z) (xs : list A) : list A :=
  foldr (sortInsert compare) [] xs.

(** The comparator handed to [sort]: most recent first. *)
Definition byCreatedAtDesc `{Runtime} (a b : PromptEntry) : Z :=
  dateGetTime (createdAt b) - dateGetTime (createdAt a).

Definition filteredPrompts `{Runtime} (prompts : list PromptEntry)
    (searchTerm : string) (selectedTags : gset string) (currentView : View)
    : list PromptEntry :=
  arraySort byCreatedAtDesc
    (List.filter (keepPrompt currentView searchTerm selectedTags) prompts).

(** [Math.ceil(filteredPrompts.length / ITEMS_PER_PAGE)], on integers. *)
Definition totalPages (filtered : list PromptEntry) : Z :=
  (Z.of_nat (length filtered) + ITEMS_PER_PAGE - 1) / ITEMS_PER_PAGE.

Definition paginatedPrompts (filtered : list PromptEntry) (currentPage : Z)
    : list PromptEntry :=
  let startIndex := (currentPage - 1) * ITEMS_PER_PAGE in
  slice filtered startIndex (startIndex + ITEMS_PER_PAGE).

(** The page numbers 1, 2, ..., [totalPages]. *)
Definition pageNumbers (filtered : list PromptEntry) : list Z :=
  map (fun k => Z.of_nat k + 1) (seq 0 (Z.to_nat (totalPages filtered))).

(** One run of the page-clamp effect: the value of [currentPage] once the
    effect has run ([setCurrentPage] called or not). *)
Definition pageClampEffect (currentPage total : Z) : Z :=
  if (currentPage >? total) && (total >? 0) then total
  else if (currentPage =? 0) && (total >? 0) then 1
  else currentPage.

(** ** Entry store (the [App] component) *)

(** The updater handed to [setPrompts] by [handleSavePrompt]. *)
Definition handleSavePrompt (entry : PromptEntry) (prev : list PromptEntry)
    : list PromptEntry :=
  let existingIndex := findIndex (fun p => String.eqb (id p) (id entry)) prev in
  if existingIndex >? -1 then <[Z.to_nat existingIndex := entry]> prev
  else entry :: prev.

(** ** Entry editor ([components/PromptModal.tsx]) *)

Record Errors := mkErrors {
  err_prompt : option string;
  err_image : option string
}.

(** The state hooks of [PromptModal]; the fields carry the prefix [st_]
    since [prompt], [model], ... name the fields of [PromptEntry]. *)
Record EditorState := mkEditor {
  st_prompt : string;
  st_beforeImage : option string;
  st_afterImage : option string;
  st_model : string;
  st_parameters : list PromptParameter;
  st_tags : list string;
  st_tagInput : string;
  st_errors : Errors
}.

(** What one call of [handleSave] does: the editor state it leaves, the
    entry it hands to [onSave] (if any) and whether it calls [onClose]. *)
Record SaveResult := mkSaveResult {
  editor : EditorState;
  saved : option PromptEntry;
  closed : bool
}.

(** [resetState]: the editor as it opens on [initialData]. *)
Definition resetState (initialData : option PromptEntry) : EditorState :=
  {| st_prompt := from_option prompt "" initialData;
     st_beforeImage := initialData ≫= beforeImage;
     st_afterImage := initialData ≫= afterImage;
     st_model := default "" (initialData ≫= model);
     st_parameters := from_option parameters [] initialData;
     st_tags := from_option tags [] initialData;
     st_tagInput := "";
     st_errors := {| err_prompt := None; err_image := None |} |}.

Definition withErrors (st : EditorState) (e : Errors) : EditorState :=
  mkEditor (st_prompt st) (st_beforeImage st) (st_afterImage st) (st_model st)
           (st_parameters st) (st_tags st) (st_tagInput st) e.

(** [Object.keys(currentErrors).length > 0]. *)
Definition hasErrors (e : Errors) : bool :=
  match err_prompt e, err_image e with
  | None, None => false
  | _, _ => true
  end.

(** [tags.includes(t)]. *)
Definition arrayIncludes (xs : list string) (t : string) : bool :=
  existsb (String.eqb t) xs.

Definition validate (st : EditorState) : Errors :=
  {| err_prompt :=
       if nonEmpty (trim (st_prompt st)) then None
       else Some "Prompt is required.";
     err_image :=
       if negb (truthy (st_beforeImage st)) && negb (truthy (st_afterImage st))
       then Some "At least one image (Before or After) is required."
       else None |}.

Definition finalTags (st : EditorState) : list string :=
  if nonEmpty (trim (st_tagInput st))
     && negb (arrayIncludes (st_tags st) (trim (st_tagInput st)))
  then st_tags st ++ [trim (st_tagInput st)]
  else st_tags st.

Definition handleSave `{Runtime} (initialData : option PromptEntry)
    (st : EditorState) : SaveResult :=
  let currentErrors := validate st in
  if hasErrors currentErrors then
    {| editor := withErrors st currentErrors; saved := None; closed := false |}
  else
    let newEntry :=
      {| id := match initialData with
               | Some d => orElse (id d) generateId
               | None => generateId
               end;
         prompt := st_prompt st;
         beforeImage := st_beforeImage st;
         afterImage := st_afterImage st;
         model := Some (st_model st);
         parameters :=
           List.filter (fun p => negb (String.eqb (trim (key p)) ""))
                       (st_parameters st);
         tags := finalTags st;
         createdAt := match initialData with
                      | Some d => orElse (createdAt d) nowISO
                      | None => nowISO
                      end;
         isFavorite := None |} in
    {| editor := st; saved := Some newEntry; closed := true |}.

(** ** Spreadsheet bridge ([utils/storageManager.ts]) *)

(** One data row of the worksheet, by column key; row 1, the header, is
    not part of the data rows.  The first cell holds the entry number, the
    other cells hold text, which is what the export writes; a text cell
    read back empty or with no value is falsy either way, which is all the
    import looks at.  A worksheet edited by hand so that a cell holds a
    number, a date or rich text is outside this model. *)
Record SheetRow := mkRow {
  col_no : Z;
  col_beforeImage : string;
  col_afterImage : string;
  col_prompt : string;
  col_model : string;
  col_tags : string;
  col_parameters : string;
  col_createdAt : string;
  col_favorite : string;
  col_id : string
}.

(** The template literal of the parameters column: key, colon, space, value. *)
Definition parameterCell (p : PromptParameter) : string :=
  key p +:+ ": " +:+ value p.

(** The object handed to [worksheet.addRow] at loop index [i]. *)
Definition exportRow `{Runtime} (prompt0 : PromptEntry) (i : nat) : SheetRow :=
  let promptNumber := Z.of_nat i + 1 in
  {| col_no := promptNumber;
     col_beforeImage := "";
     col_afterImage := "";
     col_prompt := prompt prompt0;
     col_model := match model prompt0 with Some m => orElse m "" | None => "" end;
     col_tags := join ", " (tags prompt0);
     col_parameters := join "; " (map parameterCell (parameters prompt0));
     col_createdAt := dateToLocaleString (createdAt prompt0);
     col_favorite := if truthyFlag (isFavorite prompt0) then "Yes" else "No";
     col_id := id prompt0 |}.

(** The rows the export loop adds, in order. *)
Definition exportRows `{Runtime} (prompts : list PromptEntry) : list SheetRow :=
  mapWithIndex exportRow 0 prompts.

(** The import runs against the runtime: it draws UUIDs (the state is the
    number of [crypto.randomUUID()] calls made so far) and it is rejected
    ([None]) when [toISOString] throws or when the Prompts worksheet is
    missing. *)
Definition Import (A : Type) : Type := nat -> option (A * nat).

Definition ret {A} (a : A) : Import A := fun n => Some (a, n).

Definition bind {A B} (m : Import A) (f : A -> Import B) : Import B :=
  fun n => match m n with
           | Some (a, n') => f a n'
           | None => None
           end.

Definition throw {A} : Import A := fun _ => None.

Definition freshUUID `{Runtime} : Import string :=
  fun n => Some (randomUUID n, S n).

Notation "x <- m ;; k" := (bind m (fun x => k))
  (at level 100, m at next level, right associativity).

Fixpoint mapImport {A B} (f : A -> Import B) (xs : list A) : Import (list B) :=
  match xs with
  | [] => ret []
  | x :: rest =>
      y <- f x ;;
      ys <- mapImport f rest ;;
      ret (y :: ys)
  end.

(** The callback mapped over the pieces of the parameters cell. *)
Definition parseParameter `{Runtime} (p : string) : Import PromptParameter :=
  let parts := map trim (split ":" p) in
  let key0 := parts !! 0%nat in
  let value0 := parts !! 1%nat in
  uuid <- freshUUID ;;
  ret {| param_id := uuid;
         key := default "" key0;
         value := default "" value0 |}.

Definition parseParameters `{Runtime} (parametersStr : string)
    : Import (list PromptParameter) :=
  if nonEmpty parametersStr then
    ps <- mapImport parseParameter (split ";" parametersStr) ;;
    ret (List.filter (fun p => nonEmpty (key p) && nonEmpty (value p)) ps)
  else ret [].

Definition parseTags (tagsStr : string) : list string :=
  if nonEmpty tagsStr then List.filter nonEmpty (map trim (split "," tagsStr))
  else [].

(** The body of the [eachRow] callback for a data row. *)
Definition importRow `{Runtime} (row : SheetRow) : Import PromptEntry :=
  parameters0 <- parseParameters (col_parameters row) ;;
  let tags0 := parseTags (col_tags row) in
  id0 <- (if nonEmpty (col_id row) then ret (col_id row) else freshUUID) ;;
  createdAt0 <- (if nonEmpty (col_createdAt row)
                 then match dateToISOString (col_createdAt row) with
                      | Some iso => ret iso
                      | None => throw
                      end
                 else ret nowISO) ;;
  ret {| id := id0;
         prompt := col_prompt row;
         model := if nonEmpty (col_model row) then Some (col_model row) else None;
         tags := tags0;
         parameters := parameters0;
         createdAt := createdAt0;
         isFavorite := Some (String.eqb (col_favorite row) "Yes");
         beforeImage := None;
         afterImage := None |}.

(** The [eachRow] loop over the rows below row 1. *)
Definition importRows `{Runtime} (rows : list SheetRow)
    : Import (list PromptEntry) :=
  mapImport importRow rows.

(** A worksheet: its name, the cells of row 1, and the rows below row 1
    that hold a value, in order.  These are the rows [eachRow] hands to
    the import once row 1 is skipped. *)
Record Worksheet := mkSheet {
  sheet_name : string;
  sheet_header : list string;
  sheet_rows : list SheetRow
}.

Definition Workbook := list Worksheet.

(** [workbook.getWorksheet(name)]: the first worksheet of that name. *)
Definition getWorksheet (name : string) (workbook : Workbook) : option Worksheet :=
  List.find (fun worksheet => String.eqb (sheet_name worksheet) name) workbook.

(** The workbook [exportToExcelWithImages] builds: one worksheet, Prompts,
    with the headers of the column definitions in row 1 and one row per
    entry below. *)
Definition exportWorkbook `{Runtime} (prompts : list PromptEntry) : Workbook :=
  [ {| sheet_name := "Prompts";
       sheet_header := ["No"; "Before Image"; "After Image"; "Prompt"; "Model";
                        "Tags"; "Parameters"; "Created At"; "Favorite"; "ID"];
       sheet_rows := exportRows prompts |} ].

(** What the import finds in the file the export wrote: the workbook goes
    through [workbook.xlsx.writeBuffer] and, in [importFromExcel], through
    [workbook.xlsx.load].  Worksheets keep their name and their rows, the
    entry number stays, and every text cell comes back as [xlsxText] gives
    it. *)
Definition xlsxRow `{Runtime} (row : SheetRow) : SheetRow :=
  {| col_no := col_no row;
     col_beforeImage := xlsxText (col_beforeImage row);
     col_afterImage := xlsxText (col_afterImage row);
     col_prompt := xlsxText (col_prompt row);
     col_model := xlsxText (col_model row);
     col_tags := xlsxText (col_tags row);
     col_parameters := xlsxText (col_parameters row);
     col_createdAt := xlsxText (col_createdAt row);
     col_favorite := xlsxText (col_favorite row);
     col_id := xlsxText (col_id row) |}.

Definition xlsxWorksheet `{Runtime} (worksheet : Worksheet) : Worksheet :=
  {| sheet_name := sheet_name worksheet;
     sheet_header := map xlsxText (sheet_header worksheet);
     sheet_rows := map xlsxRow (sheet_rows worksheet) |}.

Definition xlsxWriteLoad `{Runtime} (workbook : Workbook) : Workbook :=
  map xlsxWorksheet workbook.

(** [importFromExcel] on a workbook that has been loaded: it is rejected
    when there is no worksheet named Prompts, and otherwise runs the row
    loop on that worksheet. *)
Definition importFromExcel `{Runtime} (workbook : Workbook)
    : Import (list PromptEntry) :=
  match getWorksheet "Prompts" workbook with
  | None => throw
  | Some worksheet => importRows (sheet_rows worksheet)
  end.

(** Export to a workbook, write it to an xlsx file, load the file and
    import it. *)
Definition roundTrip `{Runtime} (prompts : list PromptEntry)
    : Import (list PromptEntry) :=
  importFromExcel (xlsxWriteLoad (exportWorkbook prompts)).

(** *** Image reattachment *)

Definition isDigit (c : ascii) : bool :=
  let n := N_of_ascii c in ((48 <=? n) && (n <=? 57))%N.

(** The longest run of digits at the head of [s], and what follows it. *)
Fixpoint spanDigits (s : string) : string * string :=
  match s with
  | EmptyString => (EmptyString, EmptyString)
  | String c s' =>
      if isDigit c
      then let '(ds, rest) := spanDigits s' in (String c ds, rest)
      else (EmptyString, s)
  end.

(** Canonicalisation of the [i] flag: a-z fold to A-Z; no code unit above
    127 folds to a letter of the pattern. *)
Definition canonicalize (c : ascii) : ascii :=
  let n := N_of_ascii c in
  if ((97 <=? n) && (n <=? 122))%N then ascii_of_N (n - 32) else c.

(** Matches [word] at the head of [s] under the [i] flag and returns the
    matched text and what follows it. *)
Fixpoint matchWord (word s : string) : option (string * string) :=
  match word, s with
  | EmptyString, _ => Some (EmptyString, s)
  | String _ _, EmptyString => None
  | String w word', String c s' =>
      if Ascii.eqb (canonicalize c) (canonicalize w)
      then match matchWord word' s' with
           | Some (m, rest) => Some (String c m, rest)
           | None => None
           end
      else None
  end.

(** [filename.match(/^(\d+)_(Before|After)\./i)]: the two capture groups.
    The digits are taken greedily (the underscore is no digit, so no
    shorter run can match); Before is tried first, then After. *)
Definition matchImageName (filename : string) : option (string * string) :=
  let '(digits, rest) := spanDigits filename in
  if nonEmpty digits then
    match rest with
    | String "_" rest' =>
        let alternative (word : string) :=
          match matchWord word rest' with
          | Some (m, String "." _) => Some (digits, m)
          | _ => None
          end in
        match alternative "Before" with
        | Some r => Some r
        | None => alternative "After"
        end
    | _ => None
    end
  else None.

(** [parseInt] on a run of decimal digits: the value of the run (exact up
    to 2^53; beyond, the rounded number is larger than any position of an
    array, so the comparison with [promptNumber] fails either way). *)
Definition digitValue (c : ascii) : N := (N_of_ascii c - 48)%N.

Fixpoint parseDigits (acc : N) (s : string) : N :=
  match s with
  | EmptyString => acc
  | String c s' => parseDigits (10 * acc + digitValue c)%N s'
  end.

Definition parseInt (digits : string) : N := parseDigits 0%N digits.

(** A [Map<string, string>] is iterated in insertion order: the image map
    is the sequence of its (filename, base64) entries. *)
Definition ImageMap := list (string * string).

(** The callback handed to [imageMap.forEach], as an update of the two
    local variables [beforeImage] and [afterImage]. *)
Definition attachImage (promptNumber : N)
    (images : option string * option string) (entry : string * string)
    : option string * option string :=
  let '(filename, base64) := entry in
  match matchImageName filename with
  | Some (digits, word) =>
      let fileNumber := parseInt digits in
      let type := toLowerCase word in
      if (fileNumber =? promptNumber)%N then
        if String.eqb type "before" then (Some base64, snd images)
        else if String.eqb type "after" then (fst images, Some base64)
        else images
      else images
  | None => images
  end.

(** The callback handed to [prompts.map]. *)
Definition matchImages (imageMap : ImageMap) (prompt0 : PromptEntry) (index : nat)
    : PromptEntry :=
  let promptNumber := (N.of_nat index + 1)%N in
  let '(beforeImage0, afterImage0) :=
    foldl (attachImage promptNumber)
          (beforeImage prompt0, afterImage prompt0) imageMap in
  {| id := id prompt0;
     beforeImage := beforeImage0;
     afterImage := afterImage0;
     prompt := prompt prompt0;
     model := model prompt0;
     parameters := parameters prompt0;
     tags := tags prompt0;
     createdAt := createdAt prompt0;
     isFavorite := isFavorite prompt0 |}.

Definition matchImagesToPrompts (prompts : list PromptEntry) (imageMap : ImageMap)
    : list PromptEntry :=
  mapWithIndex (matchImages imageMap) 0 prompts.


(** ** Predicates of the specification *)

(** Two entries that agree on everything but their two images. *)
Definition sameButImages (p q : PromptEntry) : Prop :=
  id q = id p /\ prompt q = prompt p /\ model q = model p /\
  parameters q = parameters p /\ tags q = tags p /\
  createdAt q = createdAt p /\ isFavorite q = isFavorite p.

(** The staged fields of the editor (everything but the error report). *)
Definition sameDraft (st st' : EditorState) : Prop :=
  st_prompt st' = st_prompt st /\ st_beforeImage st' = st_beforeImage st /\
  st_afterImage st' = st_afterImage st /\ st_model st' = st_model st /\
  st_parameters st' = st_parameters st /\ st_tags st' = st_tags st /\
  st_tagInput st' = st_tagInput st.

(** The slot a file name designates under the reattachment pattern: the
    number it starts with and the side it names, read off the two capture
    groups the way the [forEach] callback does. *)
Inductive Side := Before | After.

Definition slotOf (filename : string) : option (N * Side) :=
  match matchImageName filename with
  | Some (digits, word) =>
      if String.eqb (toLowerCase word) "before" then Some (parseInt digits, Before)
      else if String.eqb (toLowerCase word) "after" then Some (parseInt digits, After)
      else None
  | None => None
  end.

Definition namesSlot (n : N) (side : Side) (entry : string * string) : bool :=
  match slotOf (fst entry), side with
  | Some (m, Before), Before => (m =? n)%N
  | Some (m, After), After => (m =? n)%N
  | _, _ => false
  end.

(** The image a slot ends up with: the data of the last file of the map
    that names the slot, or the image the entry had. *)
Definition reattached (n : N) (side : Side) (imageMap : ImageMap)
    (old : option string) : option string :=
  match last (List.filter (namesSlot n side) imageMap) with
  | Some (_, base64) => Some base64
  | None => old
  end.

Definition imageAt (side : Side) (p : PromptEntry) : option string :=
  match side with Before => beforeImage p | After => afterImage p end.

(** A draft that passes validation: a non-blank prompt and at least one
    image set. *)
Definition validDraft (st : EditorState) : Prop :=
  trim (st_prompt st) <> "" /\
  (truthy (st_beforeImage st) = true \/ truthy (st_afterImage st) = true).

(** [i] is the position of the first stored entry with the id of [e]: the
    entry an upsert of [e] replaces. *)
Definition firstWithId (prev : list PromptEntry) (i : nat) (old e : PromptEntry) : Prop :=
  prev !! i = Some old /\ id old = id e /\
  forall (j : nat) (q : PromptEntry), (j < i)%nat -> prev !! j = Some q -> id q <> id e.

(** Case-insensitive matching: two texts are equal up to letter case when
    they have the same lower-case form; [needle] occurs in [hay] when some
    substring of [hay] equals it up to case. *)
Definition equalIgnoringCase (a b : string) : Prop :=
  toLowerCase a = toLowerCase b.

Definition occursIgnoringCase (needle hay : string) : Prop :=
  exists pre mid post, hay = pre +:+ mid +:+ post /\ equalIgnoringCase mid needle.

Definition passesView (v : View) (p : PromptEntry) : Prop :=
  v = favorites -> isFavorite p = Some true.

Definition passesText (searchTerm : string) (p : PromptEntry) : Prop :=
  occursIgnoringCase searchTerm (prompt p) \/
  (exists m, model p = Some m /\ occursIgnoringCase searchTerm m) \/
  (exists t, t ∈ tags p /\ occursIgnoringCase searchTerm t).

Definition passesTags (selectedTags : gset string) (p : PromptEntry) : Prop :=
  selectedTags = ∅ \/ exists t, t ∈ tags p /\ t ∈ selectedTags.

(** Most recent first. *)
Definition notOlder `{Runtime} (a b : PromptEntry) : Prop :=
  dateGetTime (createdAt a) >= dateGetTime (createdAt b).

(** The entries created at time [t], in the order of the list. *)
Definition createdAtTime `{Runtime} (t : Z) (xs : list PromptEntry) : list PromptEntry :=
  List.filter (fun p => dateGetTime (createdAt p) =? t) xs.

(** *** Entries the spreadsheet form carries without loss *)

Fixpoint containsChar (c : ascii) (s : string) : bool :=
  match s with
  | EmptyString => false
  | String d s' => Ascii.eqb d c || containsChar c s'
  end.

(** A tag survives the tags cell when it is non-empty, has no white space
    at either end and holds no comma. *)
Definition exportableTag (t : string) : Prop :=
  t <> "" /\ trim t = t /\ containsChar "," t = false.

(** A parameter key or value survives the parameters cell when it is
    non-empty, has no white space at either end and holds neither a
    semicolon nor a colon. *)
Definition exportableText (s : string) : Prop :=
  s <> "" /\ trim s = s /\ containsChar ";" s = false /\ containsChar ":" s = false.

Definition exportableParameter (p : PromptParameter) : Prop :=
  exportableText (key p) /\ exportableText (value p).

(** The printed creation date reads back as a date (or prints empty, in
    which case the import takes the current time). *)
Definition exportableDate `{Runtime} (e : PromptEntry) : Prop :=
  dateToLocaleString (createdAt e) = "" \/
  is_Some (dateToISOString (dateToLocaleString (createdAt e))).

Definition exportable `{Runtime} (e : PromptEntry) : Prop :=
  Forall exportableTag (tags e) /\
  Forall exportableParameter (parameters e) /\
  exportableDate e.

(** The xlsx file carries a text as it is. *)
Definition carried `{Runtime} (s : string) : Prop := xlsxText s = s.

(** The xlsx file carries, as they are, the cells of the row exported for
    [e] that the import reads. *)
Definition carriedByXlsx `{Runtime} (e : PromptEntry) : Prop :=
  let row := exportRow e 0 in
  carried (col_prompt row) /\ carried (col_model row) /\
  carried (col_tags row) /\ carried (col_parameters row) /\
  carried (col_createdAt row) /\ carried (col_favorite row) /\
  carried (col_id row).

Definition keyValue (p : PromptParameter) : string * string := (key p, value p).

(** What the import gives back for an exported entry [e]: the same prompt,
    model (an empty model comes back absent), tags, parameter key/value
    pairs in order and favorite flag (as a boolean), and no image. *)
Definition reimported (e imported : PromptEntry) : Prop :=
  prompt imported = prompt e /\
  model imported = (if truthy (model e) then model e else None) /\
  tags imported = tags e /\
  keyValue <$> parameters imported = keyValue <$> parameters e /\
  isFavorite imported = Some (truthyFlag (isFavorite e)) /\
  beforeImage imported = None /\ afterImage imported = None.

(** The claim as the specification words it: every field comes back
    exactly as it was. *)
Definition reimportedExactly (e imported : PromptEntry) : Prop :=
  prompt imported = prompt e /\ model imported = model e /\
  tags imported = tags e /\
  keyValue <$> parameters imported = keyValue <$> parameters e /\
  isFavorite imported = isFavorite e /\
  beforeImage imported = None /\ afterImage imported = None.

(** *** The reattachment pattern, in the specification's words *)

Fixpoint allDigits (s : string) : bool :=
  match s with
  | EmptyString => true
  | String c s' => isDigit c && allDigits s'
  end.

Definition sideWord (side : Side) : string :=
  match side with Before => "before" | After => "after" end.

(** [filename] reads {number}_{Before|After}.{ext}, letter case ignored:
    a non-empty run of digits of value [n], an underscore, the word of
    [side] in any letter case, a dot and whatever follows. *)
Definition matchesPattern (filename : string) (n : N) (side : Side) : Prop :=
  exists digits word ext,
    filename = digits +:+ "_" +:+ word +:+ "." +:+ ext /\
    digits <> "" /\ allDigits digits = true /\ parseInt digits = n /\
    toLowerCase word = sideWord side.

(** The letters of the two words of the pattern. *)
Fixpoint patternWord (w : string) : Prop :=
  match w with
  | EmptyString => True
  | String c w' => c ∈ ["B"; "e"; "f"; "o"; "r"; "A"; "t"]%char /\ patternWord w'
  end.

(** [s] does not start with a digit. *)
Definition headNotDigit (s : string) : Prop :=
  match s with
  | EmptyString => True
  | String c _ => isDigit c = false
  end.


(** An entry as the application makes them: its id and its creation
    timestamp are non-empty strings. *)
Definition wellFormed (e : PromptEntry) : Prop :=
  id e <> "" /\ createdAt e <> "".

(** * More of the sources *)

(** ** The rest of the [App] component *)

(** A [Set<string>] is iterated in insertion order; [add] appends a
    value the set does not hold yet. *)
Definition setAdd (s : list string) (t : string) : list string :=
  if arrayIncludes s t then s else s ++ [t].

(** The order of [sort()] without a comparator: strings compared code
    unit by code unit. *)
Definition compareStrings (a b : string) : Z :=
  match String.compare a b with
  | Lt => -1
  | Eq => 0
  | Gt => 1
  end.

(** The [allTags] memo: every tag of every entry added to a [Set], the
    set spread into an array and sorted. *)
Definition allTags (prompts : list PromptEntry) : list string :=
  let tags0 := foldl (fun acc p => foldl setAdd acc (tags p)) [] prompts in
  arraySort compareStrings tags0.

(** The [favoritesCount] memo. *)
Definition favoritesCount (prompts : list PromptEntry) : Z :=
  Z.of_nat (length (List.filter (fun p => truthyFlag (isFavorite p)) prompts)).

(** [handleDeletePrompt]; [confirmed] is the answer of [window.confirm]. *)
Definition handleDeletePrompt (confirmed : bool) (id0 : string)
    (prev : list PromptEntry) : list PromptEntry :=
  if confirmed then List.filter (fun p => negb (String.eqb (id p) id0)) prev
  else prev.

(** [handleTagToggle]: the new set of selected tags and the new page. *)
Definition handleTagToggle (tag : string) (selectedTags : gset string)
    : gset string * Z :=
  (if bool_decide (tag ∈ selectedTags) then selectedTags ∖ {[tag]}
   else selectedTags ∪ {[tag]},
   1).

(** [handleBulkDelete]: the new store and the new selection; [confirmed]
    is the answer [window.confirm] gives when it is asked (it is asked
    only when something is selected). *)
Definition handleBulkDelete (confirmed : bool) (selectedIds : gset string)
    (prev : list PromptEntry) : list PromptEntry * gset string :=
  if (Z.of_nat (size selectedIds) >? 0) && confirmed then
    (List.filter (fun p => negb (bool_decide (id p ∈ selectedIds))) prev, ∅)
  else (prev, selectedIds).

(** [handleToggleFavorite]. *)
Definition toggleFavorite (p : PromptEntry) : PromptEntry :=
  {| id := id p;
     beforeImage := beforeImage p;
     afterImage := afterImage p;
     prompt := prompt p;
     model := model p;
     parameters := parameters p;
     tags := tags p;
     createdAt := createdAt p;
     isFavorite := Some (negb (truthyFlag (isFavorite p))) |}.

Definition handleToggleFavorite (id0 : string) (prev : list PromptEntry)
    : list PromptEntry :=
  map (fun p => if String.eqb (id p) id0 then toggleFavorite p else p) prev.

(** ** The rest of the entry editor *)

Definition withTags (st : EditorState) (tags0 : list string) : EditorState :=
  mkEditor (st_prompt st) (st_beforeImage st) (st_afterImage st) (st_model st)
           (st_parameters st) tags0 (st_tagInput st) (st_errors st).

Definition withTagInput (st : EditorState) (tagInput0 : string) : EditorState :=
  mkEditor (st_prompt st) (st_beforeImage st) (st_afterImage st) (st_model st)
           (st_parameters st) (st_tags st) tagInput0 (st_errors st).

Definition withParameters (st : EditorState) (parameters0 : list PromptParameter)
    : EditorState :=
  mkEditor (st_prompt st) (st_beforeImage st) (st_afterImage st) (st_model st)
           parameters0 (st_tags st) (st_tagInput st) (st_errors st).

(** [handleTagInputKeyDown], on the [key] of the event. *)
Definition handleTagInputKeyDown (key0 : string) (st : EditorState) : EditorState :=
  if String.eqb key0 "," || String.eqb key0 "Enter" then
    let newTag := trim (st_tagInput st) in
    let st1 :=
      if nonEmpty newTag && negb (arrayIncludes (st_tags st) newTag)
      then withTags st (st_tags st ++ [newTag])
      else st in
    withTagInput st1 ""
  else st.

Definition removeTag (tagToRemove : string) (st : EditorState) : EditorState :=
  withTags st (List.filter (fun tag => negb (String.eqb tag tagToRemove)) (st_tags st)).

Definition addParameter `{Runtime} (st : EditorState) : EditorState :=
  withParameters st
    (st_parameters st ++ [{| param_id := generateId; key := ""; value := "" |}]).

Inductive ParameterField := keyField | valueField.

Definition updateParameter (id0 : string) (field : ParameterField) (value0 : string)
    (st : EditorState) : EditorState :=
  withParameters st
    (map (fun p =>
            if String.eqb (param_id p) id0 then
              match field with
              | keyField => {| param_id := param_id p; key := value0; value := value p |}
              | valueField => {| param_id := param_id p; key := key p; value := value0 |}
              end
            else p)
         (st_parameters st)).

Definition removeParameter (id0 : string) (st : EditorState) : EditorState :=
  withParameters st
    (List.filter (fun p => negb (String.eqb (param_id p) id0)) (st_parameters st)).

(** ** The rest of the spreadsheet bridge *)

(** [\w] of a regular expression without the [u] and [i] flags. *)
Definition isWordChar (c : ascii) : bool :=
  let n := N_of_ascii c in
  ((48 <=? n) && (n <=? 57) || (65 <=? n) && (n <=? 90)
   || (97 <=? n) && (n <=? 122) || (n =? 95))%N.

(** The longest run of word characters at the head of [s], and what
    follows it. *)
Fixpoint spanWord (s : string) : string * string :=
  match s with
  | EmptyString => (EmptyString, EmptyString)
  | String c s' =>
      if isWordChar c
      then let '(w, rest) := spanWord s' in (String c w, rest)
      else (EmptyString, s)
  end.

(** What follows [prefix] at the head of [s], if [s] starts with it. *)
Fixpoint stripPrefix (prefix s : string) : option string :=
  match prefix, s with
  | EmptyString, _ => Some s
  | String _ _, EmptyString => None
  | String a prefix', String b s' =>
      if Ascii.eqb a b then stripPrefix prefix' s' else None
  end.

(** [getImageExtension]: the capture group of
    [/^data:image\/(\w+);base64,/], or png.  The run of word characters is
    taken greedily (the semicolon is no word character, so no shorter run
    can match). *)
Definition getImageExtension (base64 : string) : string :=
  match stripPrefix "data:image/" base64 with
  | Some rest =>
      let '(word, rest') := spanWord rest in
      if nonEmpty word && startsWith rest' ";base64," then word else "png"
  | None => "png"
  end.

(** A positive integer in a template literal: its decimal digits. *)
Definition numberToString (n : N) : string :=
  DecimalString.NilEmpty.string_of_uint (N.to_uint n).

(** The names handed to [dataFolder.file] for a before and an after
    image of the entry numbered [promptNumber]. *)
Definition beforeFileName (promptNumber : N) (image : string) : string :=
  numberToString promptNumber +:+ "_Before." +:+ getImageExtension image.

Definition afterFileName (promptNumber : N) (image : string) : string :=
  numberToString promptNumber +:+ "_After." +:+ getImageExtension image.

(** The files the export loop puts into the DATA folder at loop index
    [i]: each with its name and the image it is made from (the loop is
    described for images that [base64ToBlob] decodes, as the data URLs of
    a [FileReader] are; on another string it throws and nothing is
    exported). *)
Definition exportImages (prompt0 : PromptEntry) (i : nat) : list (string * string) :=
  let promptNumber := (N.of_nat i + 1)%N in
  (match beforeImage prompt0 with
   | Some image =>
       if nonEmpty image then [(beforeFileName promptNumber image, image)] else []
   | None => []
   end) ++
  (match afterImage prompt0 with
   | Some image =>
       if nonEmpty image then [(afterFileName promptNumber image, image)] else []
   | None => []
   end).

(** The DATA folder the export builds, in the order the files are added. *)
Definition exportDataFolder (prompts : list PromptEntry) : list (string * string) :=
  concat (mapWithIndex exportImages 0 prompts).

(** A [File] of a folder selection that can be read: its name, its MIME
    type and the data URL [FileReader.readAsDataURL] gives for it. *)
Record File := mkFile {
  file_name : string;
  file_type : string;
  file_dataURL : string
}.

(** [imageMap.set(k, v)]: a key the map holds keeps its place and takes
    the new value; a new key goes last. *)
Fixpoint mapSet (m : ImageMap) (k v : string) : ImageMap :=
  match m with
  | [] => [(k, v)]
  | (k', v') :: rest =>
      if String.eqb k' k then (k', v) :: rest else (k', v') :: mapSet rest k v
  end.

Definition loadImagesFromFolder (files : list File) : ImageMap :=
  foldl (fun imageMap file =>
           if startsWith (file_type file) "image/"
           then mapSet imageMap (file_name file) (file_dataURL file)
           else imageMap)
        [] files.

(** ** The bulk report ([utils/pdfGenerator.ts]) *)

Definition maxLines : Z := 20.

(** The lines of an entry's prompt drawn on its detail page, and whether
    the truncation marker is drawn under them; [promptLines] is what
    [doc.splitTextToSize] made of the prompt. *)
Definition displayLines (promptLines : list string) : list string :=
  slice promptLines 0 maxLines.

Definition drawsTruncatedMarker (promptLines : list string) : bool :=
  Z.of_nat (length promptLines) >? maxLines.

(** ** Predicates for the rest of the sources *)

(** Two entries that agree on everything but their favorite flag. *)
Definition sameButFavorite (p q : PromptEntry) : Prop :=
  id q = id p /\ beforeImage q = beforeImage p /\ afterImage q = afterImage p /\
  prompt q = prompt p /\ model q = model p /\ parameters q = parameters p /\
  tags q = tags p /\ createdAt q = createdAt p.

(** A tag list without duplicates whose tags are non-empty and carry no
    white space at either end. *)
Definition tidyTags (ts : list string) : Prop :=
  NoDup ts /\ Forall (fun t => t <> "" /\ trim t = t) ts.

Fixpoint allWordChars (s : string) : bool :=
  match s with
  | EmptyString => true
  | String c s' => isWordChar c && allWordChars s'
  end.

(** [s] does not start with a word character. *)
Definition headNotWord (s : string) : Prop :=
  match s with
  | EmptyString => True
  | String c _ => isWordChar c = false
  end.

(** The file is read as an image by [loadImagesFromFolder]. *)
Definition isImageFile (f : File) : bool := startsWith (file_type f) "image/".

(** The data URL of the last image file of the selection named [name]. *)
Definition lastImageNamed (name : string) (files : list File) : option string :=
  file_dataURL <$>
    last (List.filter (fun f => isImageFile f && String.eqb (file_name f) name) files).

(** The name of the exported file of a side. *)
Definition fileName (side : Side) (n : N) (image : string) : string :=
  match side with
  | Before => beforeFileName n image
  | After => afterFileName n image
  end.

(** A row whose date cell is filled with something that is no date. *)
Definition unreadableDate `{Runtime} (row : SheetRow) : Prop :=
  col_createdAt row <> "" /\ dateToISOString (col_createdAt row) = None.

(** What the import reads off a row whatever the other cells hold. *)
Definition readFrom (row : SheetRow) (e : PromptEntry) : Prop :=
  prompt e = col_prompt row /\
  model e = (if nonEmpty (col_model row) then Some (col_model row) else None) /\
  isFavorite e = Some (String.eqb (col_favorite row) "Yes") /\
  (col_id row <> "" -> id e = col_id row) /\
  beforeImage e = None /\ afterImage e = None.

(** The xlsx file carries, as they are, the prompt, model, favorite and
    id cells of the row exported for [e]. *)
Definition carriedFields `{Runtime} (e : PromptEntry) : Prop :=
  let row := exportRow e 0 in
  carried (col_prompt row) /\ carried (col_model row) /\
  carried (col_favorite row) /\ carried (col_id row).

(** What an export followed by an import gives back for an entry whatever
    its tags and parameters are. *)
Definition survivesRoundTrip (e imported : PromptEntry) : Prop :=
  prompt imported = prompt e /\
  (id e <> "" -> id imported = id e) /\
  model imported = (if truthy (model e) then model e else None) /\
  isFavorite imported = Some (truthyFlag (isFavorite e)) /\
  beforeImage imported = None /\ afterImage imported = None.

(** ** Sample data *)

Definition sampleImage : string := "data:image/png;base64,iVBORw0KGgo=".

Definition entryCat : PromptEntry :=
  {| id := "a1"; beforeImage := Some sampleImage; afterImage := None;
     prompt := "cat"; model := Some "sdxl";
     parameters := [mkParam "p1" "steps" "30"]; tags := ["pets"];
     createdAt := "2024-01-01T00:00:00.000Z"; isFavorite := Some true |}.

Definition entryDog : PromptEntry :=
  {| id := "b2"; beforeImage := None; afterImage := Some sampleImage;
     prompt := "dog"; model := None;
     parameters := []; tags := ["pets"; "outdoor"];
     createdAt := "2024-02-01T00:00:00.000Z"; isFavorite := None |}.

Definition entryCatEdited : PromptEntry :=
  {| id := "a1"; beforeImage := Some sampleImage; afterImage := None;
     prompt := "a sleeping cat"; model := Some "sdxl";
     parameters := []; tags := ["pets"];
     createdAt := "2024-01-01T00:00:00.000Z"; isFavorite := None |}.

(** A file format that drops the control characters other than TAB, LF
    and CR, and reads back every line end (CR LF, or CR alone) as LF. *)
Fixpoint sampleXlsxText (s : string) : string :=
  match s with
  | EmptyString => EmptyString
  | String c rest =>
      if Ascii.eqb c "013" then
        match rest with
        | String "010" _ => sampleXlsxText rest
        | _ => String "010" (sampleXlsxText rest)
        end
      else if (N_of_ascii c <? 32)%N && negb (Ascii.eqb c "009")
              && negb (Ascii.eqb c "010")
      then sampleXlsxText rest
      else String c (sampleXlsxText rest)
  end.

(** A runtime for the samples: the clock of the two sample dates, a
    locale that prints the ISO text itself, counters for the ids, and the
    file format above. *)
Definition sampleRuntime : Runtime :=
  {| dateGetTime := fun s =>
       if String.eqb s "2024-01-01T00:00:00.000Z" then 1704067200000
       else if String.eqb s "2024-02-01T00:00:00.000Z" then 1706745600000
       else 0;
     dateToLocaleString := fun s => s;
     dateToISOString := fun s => if nonEmpty s then Some s else None;
     nowISO := "2024-03-01T00:00:00.000Z";
     generateId := "lt4x2k9f3a7c0qz1m";
     randomUUID := fun n => "uuid-" +:+ String (ascii_of_nat (48 + n)) "";
     xlsxText := sampleXlsxText |}.

Definition pngData : string := "data:image/png;base64,iVBORw0KGgo=".
Definition jpegData : string := "data:image/jpeg;base64,/9j/4AAQ".

(** The editor opened on [entryCat], and the same with a tag typed but not
    committed. *)
Definition draftCat : EditorState := resetState (Some entryCat).

Definition draftCatPendingTag (pending : string) : EditorState :=
  mkEditor (st_prompt draftCat) (st_beforeImage draftCat) (st_afterImage draftCat)
           (st_model draftCat)
           [mkParam "p1" "steps" "30"; mkParam "p2" "" "orphan value"]
           ["pets"; "indoor"] pending (st_errors draftCat).

Definition draftBlankPrompt : EditorState :=
  mkEditor "   " (Some sampleImage) None "" [] [] "" (mkErrors None None).

Definition draftNoImage : EditorState :=
  mkEditor "a dog on a beach" None None "" [] [] "" (mkErrors None None).


(** An entry with an aspect-ratio parameter. *)
Definition entryWide : PromptEntry :=
  {| id := "c3"; beforeImage := Some sampleImage; afterImage := None;
     prompt := "a wide landscape"; model := Some "sdxl";
     parameters := [mkParam "p1" "ratio" "16:9"]; tags := ["landscape"];
     createdAt := "2024-01-01T00:00:00.000Z"; isFavorite := Some true |}.

(** The DATA folder of the two sample entries as a folder selection lists
    it, the files in another order than they were written, each with the
    data URL it reads back as. *)
Definition sampleFiles : list File :=
  [ mkFile "2_After.png" "image/png" "data:image/png;base64,QUZURVI=";
    mkFile "1_Before.png" "image/png" "data:image/png;base64,QkVGT1JF" ].

(** The two sample entries as the import gives them, without images. *)
Definition importedCat : PromptEntry :=
  {| id := "a1"; beforeImage := None; afterImage := None;
     prompt := "cat"; model := Some "sdxl";
     parameters := [mkParam "uuid-0" "steps" "30"]; tags := ["pets"];
     createdAt := "2024-01-01T00:00:00.000Z"; isFavorite := Some true |}.

Definition importedDog : PromptEntry :=
  {| id := "b2"; beforeImage := None; afterImage := None;
     prompt := "dog"; model := None;
     parameters := []; tags := ["pets"; "outdoor"];
     createdAt := "2024-02-01T00:00:00.000Z"; isFavorite := Some false |}.

(** A runtime whose date parser rejects what is no ISO date of the year
    2024. *)
Definition strictRuntime : Runtime :=
  {| dateGetTime := fun _ => 0;
     dateToLocaleString := fun s => s;
     dateToISOString := fun s => if startsWith s "2024-" then Some s else None;
     nowISO := "2024-03-01T00:00:00.000Z";
     generateId := "lt4x2k9f3a7c0qz1m";
     randomUUID := fun n => "uuid-" +:+ String (ascii_of_nat (48 + n)) "";
     xlsxText := sampleXlsxText |}.

Definition rowOfCat : SheetRow :=
  {| col_no := 1; col_beforeImage := ""; col_afterImage := "";
     col_prompt := "cat"; col_model := "sdxl"; col_tags := "pets, indoor";
     col_parameters := "steps: 30; ratio: 16:9";
     col_createdAt := "2024-01-01T00:00:00.000Z";
     col_favorite := "Yes"; col_id := "a1" |}.

Definition rowWithBadDate : SheetRow :=
  {| col_no := 2; col_beforeImage := ""; col_afterImage := "";
     col_prompt := "dog"; col_model := ""; col_tags := "";
     col_parameters := ""; col_createdAt := "Invalid Date";
     col_favorite := "No"; col_id := "b2" |}.

(** Workbooks as a file may hold them: one worksheet of the given name
    with the header row of the export and the given rows. *)
Definition workbookOf (name : string) (rows : list SheetRow) : Workbook :=
  [ {| sheet_name := name;
       sheet_header := ["No"; "Before Image"; "After Image"; "Prompt"; "Model";
                        "Tags"; "Parameters"; "Created At"; "Favorite"; "ID"];
       sheet_rows := rows |} ].

(** An entry whose prompt has two lines, separated by CR LF. *)
Definition entryTwoLines : PromptEntry :=
  {| id := "d4"; beforeImage := Some sampleImage; afterImage := None;
     prompt := String "a" (String "013" (String "010" "b"));
     model := None; parameters := []; tags := [];
     createdAt := "2024-01-01T00:00:00.000Z"; isFavorite := None |}.
(** * Properties *)

(** [simpl] computes string concatenation in the proofs below. *)
#[local] Arguments String.append : simpl nomatch.

(** ** [findIndex] and the entry store *)

Lemma findIndex_range {A} (p : A -> bool) (xs : list A) :
  findIndex p xs = -1 \/ 0 <= findIndex p xs < Z.of_nat (length xs).
Proof.
  induction xs as [|x rest IH]; simpl; [by left|].
  destruct (p x); [right; lia|].
  destruct IH as [-> | IH]; [by left|].
  destruct (Z.ltb_spec (findIndex p rest) 0); [lia|right; lia].
Qed.

Lemma findIndex_absent {A} (p : A -> bool) (xs : list A) :
  (forall x, x ∈ xs -> p x = false) -> findIndex p xs = -1.
Proof.
  induction xs as [|x rest IH]; simpl; intros Hall; [done|].
  rewrite (Hall x) by apply list_elem_of_here.
  rewrite IH; [done|]. intros y Hy. apply Hall. by apply list_elem_of_further.
Qed.

(** When some element satisfies [p], [findIndex] is the position of the
    first one. *)
Lemma findIndex_first {A} (p : A -> bool) (xs : list A) (x : A) :
  x ∈ xs -> p x = true ->
  exists (i : nat) (y : A),
    findIndex p xs = Z.of_nat i /\ xs !! i = Some y /\ p y = true /\
    forall (j : nat) (z : A), (j < i)%nat -> xs !! j = Some z -> p z = false.
Proof.
  induction xs as [|a rest IH]; intros Hin Hp; [by apply elem_of_nil in Hin|].
  simpl. destruct (p a) eqn:Ha.
  - exists 0%nat, a. repeat split; [done|]. intros j z Hj. lia.
  - apply elem_of_cons in Hin as [-> | Hin]; [congruence|].
    destruct (IH Hin Hp) as (i & y & Hi & Hy & Hpy & Hbefore).
    exists (S i), y. rewrite Hi.
    destruct (Z.ltb_spec (Z.of_nat i) 0); [lia|].
    repeat split; [lia|done|done|].
    intros [|j] z Hj Hz; simpl in Hz; [by simplify_eq|].
    eapply Hbefore; [|done]. lia.
Qed.

(** C3. Upsert: when some stored entry has the id of [e], the first such
    entry is replaced in place (same position, same count, every other
    position unchanged); when no stored entry has it, [e] is put in front,
    the count grows by exactly one and the old entries follow unchanged. *)
Theorem handleSavePrompt_upsert (prev : list PromptEntry) (e : PromptEntry) :
  ((exists p, p ∈ prev /\ id p = id e) ->
     exists (i : nat) (old : PromptEntry),
       prev !! i = Some old /\ id old = id e /\
       (forall (j : nat) (q : PromptEntry),
          (j < i)%nat -> prev !! j = Some q -> id q <> id e) /\
       handleSavePrompt e prev = <[i := e]> prev /\
       length (handleSavePrompt e prev) = length prev /\
       handleSavePrompt e prev !! i = Some e /\
       (forall j : nat, j <> i -> handleSavePrompt e prev !! j = prev !! j))
  /\
  ((forall p, p ∈ prev -> id p <> id e) ->
     handleSavePrompt e prev = e :: prev /\
     length (handleSavePrompt e prev) = S (length prev) /\
     (forall j : nat, handleSavePrompt e prev !! S j = prev !! j)).
Proof.
  split.
  - intros (p & Hin & Hid).
    destruct (findIndex_first (fun q => String.eqb (id q) (id e)) prev p Hin)
      as (i & old & Hi & Hold & Hsame & Hbefore).
    { by apply String.eqb_eq. }
    assert (Hupd : handleSavePrompt e prev = <[i := e]> prev).
    { unfold handleSavePrompt. rewrite Hi.
      destruct (Z.gtb_spec (Z.of_nat i) (-1)); [|lia].
      by rewrite Nat2Z.id. }
    exists i, old. rewrite Hupd.
    repeat split.
    + done.
    + by apply String.eqb_eq.
    + intros j q Hj Hq Heq. specialize (Hbefore j q Hj Hq).
      apply String.eqb_neq in Hbefore. done.
    + apply length_insert.
    + apply list_lookup_insert_eq. by eapply lookup_lt_Some.
    + intros j Hj. by apply list_lookup_insert_ne.
  - intros Hnone. unfold handleSavePrompt.
    rewrite findIndex_absent.
    + simpl. done.
    + intros q Hq. apply String.eqb_neq. by apply Hnone.
Qed.

Lemma handleSavePrompt_upsert_witness :
  (exists (i : nat) (old : PromptEntry),
     [entryDog; entryCat] !! i = Some old /\ id old = id entryCatEdited /\
     handleSavePrompt entryCatEdited [entryDog; entryCat]
       = <[i := entryCatEdited]> [entryDog; entryCat]) /\
  handleSavePrompt entryCat [entryDog] = [entryCat; entryDog].
Proof.
  split.
  - destruct (handleSavePrompt_upsert [entryDog; entryCat] entryCatEdited)
      as [Hreplace _].
    destruct Hreplace as (i & old & Hold & Hid & _ & Hupd & _).
    + exists entryCat. split; [|reflexivity].
      apply list_elem_of_further, list_elem_of_here.
    + exists i, old. auto.
  - destruct (handleSavePrompt_upsert [entryDog] entryCat) as [_ Hprepend].
    apply Hprepend. intros p Hp.
    apply list_elem_of_singleton in Hp. subst p. discriminate.
Defined.

(** ** Pagination *)

(** From a non-negative start, [slice] is the plain window. *)
Lemma slice_window {A} (xs : list A) (start width : Z) :
  0 <= start -> 0 <= width ->
  slice xs start (start + width)
  = take (Z.to_nat width) (drop (Z.to_nat start) xs).
Proof.
  intros Hstart Hwidth. unfold slice, relativeIndex.
  destruct (Z.ltb_spec start 0); [lia|].
  destruct (Z.ltb_spec (start + width) 0); [lia|].
  destruct (Z.le_gt_cases (Z.of_nat (length xs)) start) as [Hout | Hin].
  - rewrite !Z.min_r by lia. rewrite Z.sub_diag. simpl.
    rewrite (drop_ge xs (Z.to_nat start)) by lia. by rewrite take_nil.
  - rewrite (Z.min_l start) by lia.
    destruct (Z.le_gt_cases (start + width) (Z.of_nat (length xs))).
    + rewrite Z.min_l by lia. f_equal. lia.
    + rewrite Z.min_r by lia.
      rewrite !take_ge; [done| |]; rewrite length_drop; lia.
Qed.

Lemma paginatedPrompts_window (filtered : list PromptEntry) (page : Z) :
  1 <= page ->
  paginatedPrompts filtered page
  = take 12 (drop (12 * Z.to_nat (page - 1)) filtered).
Proof.
  intros Hpage. unfold paginatedPrompts, ITEMS_PER_PAGE.
  rewrite slice_window by lia.
  change (Z.to_nat 12) with 12%nat. do 2 f_equal. lia.
Qed.

(** Cutting a list into consecutive windows of [n] and gluing them back. *)
Lemma concat_windows {A} (n : nat) (m : nat) (xs : list A) :
  (length xs <= n * m)%nat ->
  concat (map (fun k => take n (drop (n * k) xs)) (seq 0 m)) = xs.
Proof.
  revert xs. induction m as [|m IH]; intros xs Hlen.
  - destruct xs; [done|]. simpl in Hlen. lia.
  - rewrite <- cons_seq, <- fmap_S_seq. cbn [map concat].
    rewrite Nat.mul_0_r, drop_0.
    transitivity (take n xs ++ drop n xs); [|apply take_drop].
    f_equal. etransitivity; [|apply (IH (drop n xs))].
    + f_equal. change (@map) with (@fmap list _).
      rewrite <- list_fmap_compose. apply list_fmap_ext.
      intros _ k _. simpl. rewrite drop_drop. do 2 f_equal. lia.
    + rewrite length_drop. lia.
Qed.

Lemma totalPages_covers (filtered : list PromptEntry) :
  0 <= totalPages filtered /\
  (length filtered <= 12 * Z.to_nat (totalPages filtered))%nat.
Proof.
  unfold totalPages, ITEMS_PER_PAGE.
  assert (H := Z.div_mod (Z.of_nat (length filtered) + 12 - 1) 12).
  assert (Hm := Z.mod_pos_bound (Z.of_nat (length filtered) + 12 - 1) 12).
  split; [apply Z.div_pos; lia|]. lia.
Qed.

(** C8. With 12 items per page, page [page] (numbered from 1) is exactly
    the window from (page-1)*12 up to page*12 of the filtered sequence, it
    never holds more than 12 items, and the pages 1..totalPages put end to
    end give back the filtered sequence, every element once. *)
Theorem paginatedPrompts_pages (filtered : list PromptEntry) (page : Z) :
  1 <= page ->
  paginatedPrompts filtered page
    = take 12 (drop (Z.to_nat ((page - 1) * ITEMS_PER_PAGE)) filtered) /\
  (forall (k : nat) (p : PromptEntry),
     paginatedPrompts filtered page !! k = Some p <->
     (k < 12)%nat /\ filtered !! (Z.to_nat ((page - 1) * ITEMS_PER_PAGE) + k)%nat = Some p) /\
  Z.of_nat (length (paginatedPrompts filtered page)) <= ITEMS_PER_PAGE /\
  concat (map (paginatedPrompts filtered) (pageNumbers filtered)) = filtered.
Proof.
  intros Hpage.
  assert (Hwin : paginatedPrompts filtered page
    = take 12 (drop (Z.to_nat ((page - 1) * ITEMS_PER_PAGE)) filtered)).
  { rewrite paginatedPrompts_window by done. unfold ITEMS_PER_PAGE.
    do 2 f_equal. lia. }
  split; [done|]. split; [|split].
  - intros k p. rewrite Hwin. split.
    + intros Hk.
      assert (k < 12)%nat as Hlt.
      { apply lookup_lt_Some in Hk. rewrite length_take in Hk. lia. }
      split; [done|]. by rewrite lookup_take_lt, lookup_drop in Hk.
    + intros [Hlt Hk]. by rewrite lookup_take_lt, lookup_drop.
  - rewrite Hwin, length_take. unfold ITEMS_PER_PAGE. lia.
  - unfold pageNumbers. rewrite map_map.
    destruct (totalPages_covers filtered) as [_ Hcover].
    rewrite <- (concat_windows 12 _ filtered Hcover) at 2.
    f_equal. apply map_ext. intros k.
    rewrite paginatedPrompts_window by lia. do 2 f_equal. lia.
Qed.

Lemma paginatedPrompts_pages_witness :
  paginatedPrompts [entryDog; entryCat] 1
    = take 12 (drop (Z.to_nat ((1 - 1) * ITEMS_PER_PAGE)) [entryDog; entryCat]) /\
  concat (map (paginatedPrompts [entryDog; entryCat])
              (pageNumbers [entryDog; entryCat])) = [entryDog; entryCat].
Proof.
  destruct (paginatedPrompts_pages [entryDog; entryCat] 1) as (Hwin & _ & _ & Hall).
  - lia.
  - split; [exact Hwin | exact Hall].
Defined.

(** ** The page-clamp effect *)

Lemma totalPages_positive (filtered : list PromptEntry) :
  filtered <> [] -> 1 <= totalPages filtered.
Proof.
  intros Hne. unfold totalPages, ITEMS_PER_PAGE.
  destruct filtered as [|p rest]; [done|].
  apply Z.div_le_lower_bound; simpl length; lia.
Qed.

(** C2, as the claim states it, fails: with an empty result the effect
    leaves a page beyond the range where it is. *)
Lemma pageClampEffect_empty_counterexample :
  3 > totalPages [] /\ pageClampEffect 3 (totalPages []) <> 1.
Proof. split; [reflexivity | discriminate]. Qed.

(** C2, amended. When the current page exceeds the number of pages, the
    effect sets it to the last valid page if the filtered result is not
    empty; if the result is empty (no page at all) the effect leaves the
    page unchanged. *)
Theorem pageClampEffect_clamps (filtered : list PromptEntry) (currentPage : Z) :
  currentPage > totalPages filtered ->
  (filtered <> [] ->
     pageClampEffect currentPage (totalPages filtered) = totalPages filtered /\
     1 <= pageClampEffect currentPage (totalPages filtered) <= totalPages filtered) /\
  (filtered = [] ->
     pageClampEffect currentPage (totalPages filtered) = currentPage).
Proof.
  intros Hover. split.
  - intros Hne. pose proof (totalPages_positive filtered Hne) as Hpos.
    unfold pageClampEffect.
    destruct (Z.gtb_spec currentPage (totalPages filtered)); [|lia].
    destruct (Z.gtb_spec (totalPages filtered) 0); [|lia].
    simpl. lia.
  - intros ->. unfold pageClampEffect. change (totalPages []) with 0 in *.
    destruct (Z.gtb_spec 0 0); [lia|].
    by rewrite !andb_false_r.
Qed.

Lemma pageClampEffect_clamps_witness :
  pageClampEffect 5 (totalPages [entryDog; entryCat]) = totalPages [entryDog; entryCat] /\
  pageClampEffect 3 (totalPages []) = 3.
Proof.
  split.
  - destruct (pageClampEffect_clamps [entryDog; entryCat] 5) as [Hlast _].
    + reflexivity.
    + apply Hlast. discriminate.
  - destruct (pageClampEffect_clamps [] 3) as [_ Hkeep].
    + reflexivity.
    + apply Hkeep. reflexivity.
Defined.

(** ** Image reattachment *)

Lemma mapWithIndex_lookup {A B} (f : A -> nat -> B) (k : nat) (xs : list A) (i : nat) :
  mapWithIndex f k xs !! i = (fun x => f x (k + i)%nat) <$> xs !! i.
Proof.
  revert k i. induction xs as [|x rest IH]; intros k i; [done|].
  destruct i as [|i]; simpl.
  - by rewrite Nat.add_0_r.
  - rewrite IH. by replace (S k + i)%nat with (k + S i)%nat by lia.
Qed.

Lemma mapWithIndex_length {A B} (f : A -> nat -> B) (k : nat) (xs : list A) :
  length (mapWithIndex f k xs) = length xs.
Proof. revert k. induction xs; intros k; simpl; [done|]. by rewrite IHxs. Qed.

Lemma matchImages_frame (imageMap : ImageMap) (p : PromptEntry) (index : nat) :
  sameButImages p (matchImages imageMap p index).
Proof.
  unfold matchImages.
  destruct (foldl _ _ imageMap) as [b a]. by repeat split.
Qed.

(** C10. Reattachment returns as many entries as it is given, in the same
    order, and each output entry agrees with its input entry on id, prompt,
    model, parameters, tags, createdAt and isFavorite: only the two image
    fields may differ. *)
Theorem matchImagesToPrompts_frame (prompts : list PromptEntry) (imageMap : ImageMap) :
  length (matchImagesToPrompts prompts imageMap) = length prompts /\
  Forall2 sameButImages prompts (matchImagesToPrompts prompts imageMap).
Proof.
  unfold matchImagesToPrompts. split; [apply mapWithIndex_length|].
  generalize 0%nat as k.
  induction prompts as [|p rest IH]; intros k; simpl; constructor.
  - apply matchImages_frame.
  - apply IH.
Qed.

(** The [forEach] callback, read through [slotOf]. *)
Lemma attachImage_slot (n : N) (images : option string * option string)
    (filename base64 : string) :
  attachImage n images (filename, base64)
  = match slotOf filename with
    | Some (m, Before) => if (m =? n)%N then (Some base64, snd images) else images
    | Some (m, After) => if (m =? n)%N then (fst images, Some base64) else images
    | None => images
    end.
Proof.
  unfold attachImage, slotOf.
  destruct (matchImageName filename) as [[digits word]|]; [|done].
  destruct (String.eqb (toLowerCase word) "before"); [done|].
  destruct (String.eqb (toLowerCase word) "after"); [done|].
  by destruct (parseInt digits =? n)%N.
Qed.

Lemma reattached_cons (n : N) (side : Side) (entry : string * string)
    (imageMap : ImageMap) (old : option string) :
  reattached n side (entry :: imageMap) old
  = reattached n side imageMap
      (if namesSlot n side entry then Some (snd entry) else old).
Proof.
  unfold reattached. cbn [List.filter].
  destruct (namesSlot n side entry); [|done].
  destruct (List.filter (namesSlot n side) imageMap) as [|x rest].
  - by destruct entry.
  - rewrite last_cons_cons.
    destruct (last (x :: rest)) as [[? ?]|] eqn:Hlast; [done|].
    by apply last_None in Hlast.
Qed.

Lemma foldl_attachImage (n : N) (imageMap : ImageMap)
    (images : option string * option string) :
  foldl (attachImage n) images imageMap
  = (reattached n Before imageMap (fst images),
     reattached n After imageMap (snd images)).
Proof.
  revert images. induction imageMap as [|[filename base64] rest IH]; intros images.
  - by destruct images.
  - cbn [foldl]. rewrite IH, !reattached_cons, attachImage_slot.
    unfold namesSlot. simpl fst. simpl snd.
    destruct (slotOf filename) as [[m [|]]|]; [| |done];
      by destruct (m =? n)%N.
Qed.

Lemma reattached_none (n : N) (side : Side) (imageMap : ImageMap)
    (old : option string) :
  (forall entry, entry ∈ imageMap -> namesSlot n side entry = false) ->
  reattached n side imageMap old = old.
Proof.
  revert old. induction imageMap as [|entry rest IH]; intros old Hnone; [done|].
  rewrite reattached_cons, (Hnone entry) by apply list_elem_of_here.
  apply IH. intros x Hx. apply Hnone. by apply list_elem_of_further.
Qed.

Lemma reattached_last (n : N) (side : Side) (before after : ImageMap)
    (filename base64 : string) (old : option string) :
  namesSlot n side (filename, base64) = true ->
  (forall entry, entry ∈ after -> namesSlot n side entry = false) ->
  reattached n side (before ++ (filename, base64) :: after) old = Some base64.
Proof.
  intros Hnames Hlater. revert old.
  induction before as [|entry rest IH]; intros old.
  - simpl app. rewrite reattached_cons, Hnames. by apply reattached_none.
  - simpl app. rewrite reattached_cons. apply IH.
Qed.

Lemma matchImages_images (imageMap : ImageMap) (p : PromptEntry) (index : nat)
    (side : Side) :
  imageAt side (matchImages imageMap p index)
  = reattached (N.of_nat index + 1) side imageMap (imageAt side p).
Proof.
  unfold matchImages. rewrite foldl_attachImage. by destruct side.
Qed.

(** ** The entry editor *)

Lemma nonEmpty_true (s : string) : nonEmpty s = true <-> s <> "".
Proof. destruct s; simpl; split; congruence. Qed.

Lemma nonEmpty_false (s : string) : nonEmpty s = false <-> s = "".
Proof. destruct s; simpl; split; congruence. Qed.

Lemma arrayIncludes_elem_of (xs : list string) (t : string) :
  arrayIncludes xs t = true <-> t ∈ xs.
Proof.
  unfold arrayIncludes. rewrite existsb_exists. split.
  - intros (x & Hx & Heq). apply String.eqb_eq in Heq. subst x.
    by apply list_elem_of_In.
  - intros Hin. exists t. split; [by apply list_elem_of_In|apply String.eqb_refl].
Qed.

Lemma validDraft_no_errors (st : EditorState) :
  validDraft st <-> hasErrors (validate st) = false.
Proof.
  unfold validDraft, hasErrors, validate. simpl.
  rewrite <- nonEmpty_true.
  destruct (nonEmpty (trim (st_prompt st))), (truthy (st_beforeImage st)),
    (truthy (st_afterImage st)); simpl; intuition congruence.
Qed.

Section Editor.
Context `{Runtime}.

(** What [handleSave] does on a draft that fails validation. *)
Lemma handleSave_rejected (initialData : option PromptEntry) (st : EditorState) :
  hasErrors (validate st) = true ->
  handleSave initialData st
  = {| editor := withErrors st (validate st); saved := None; closed := false |}.
Proof. intros Herr. unfold handleSave. by rewrite Herr. Qed.

(** What [handleSave] does on a draft that passes validation. *)
Lemma handleSave_accepted (initialData : option PromptEntry) (st : EditorState) :
  validDraft st ->
  exists e,
    handleSave initialData st = {| editor := st; saved := Some e; closed := true |} /\
    id e = from_option (fun d => orElse (id d) generateId) generateId initialData /\
    createdAt e = from_option (fun d => orElse (createdAt d) nowISO) nowISO initialData /\
    prompt e = st_prompt st /\
    beforeImage e = st_beforeImage st /\ afterImage e = st_afterImage st /\
    model e = Some (st_model st) /\
    parameters e
      = List.filter (fun p => negb (String.eqb (trim (key p)) "")) (st_parameters st) /\
    tags e = finalTags st /\
    isFavorite e = None.
Proof.
  intros Hok. apply validDraft_no_errors in Hok.
  unfold handleSave. rewrite Hok. eexists. split; [reflexivity|].
  simpl. by destruct initialData.
Qed.

Lemma sameDraft_withErrors (st : EditorState) (e : Errors) :
  sameDraft st (withErrors st e).
Proof. by repeat split. Qed.

(** C5, amended. Save fails with an error on the prompt field when the
    prompt text is blank (whatever the images), fails with an error on
    the image field alone when the prompt is not blank and neither image
    is set, and succeeds when the prompt is not blank and an image is
    set.  On failure no entry is handed over, the editor stays open and
    its staged fields are unchanged (only the error report is set).  On
    success the trimmed pending tag text is appended as the final tag
    when it is not blank and not already in the tag list (otherwise the
    tag list is kept as it is), and the parameter rows whose key is empty
    or blank are dropped, the others kept in order. *)
Theorem handleSave_contract (initialData : option PromptEntry) (st : EditorState) :
  (trim (st_prompt st) = "" ->
     saved (handleSave initialData st) = None /\
     closed (handleSave initialData st) = false /\
     is_Some (err_prompt (st_errors (editor (handleSave initialData st)))) /\
     sameDraft st (editor (handleSave initialData st)))
  /\
  (trim (st_prompt st) <> "" ->
   truthy (st_beforeImage st) = false -> truthy (st_afterImage st) = false ->
     saved (handleSave initialData st) = None /\
     closed (handleSave initialData st) = false /\
     err_prompt (st_errors (editor (handleSave initialData st))) = None /\
     is_Some (err_image (st_errors (editor (handleSave initialData st)))) /\
     sameDraft st (editor (handleSave initialData st)))
  /\
  (trim (st_prompt st) <> "" ->
   truthy (st_beforeImage st) = true \/ truthy (st_afterImage st) = true ->
     exists e,
       saved (handleSave initialData st) = Some e /\
       closed (handleSave initialData st) = true /\
       editor (handleSave initialData st) = st /\
       (trim (st_tagInput st) <> "" -> trim (st_tagInput st) ∉ st_tags st ->
          tags e = st_tags st ++ [trim (st_tagInput st)]) /\
       (trim (st_tagInput st) = "" \/ trim (st_tagInput st) ∈ st_tags st ->
          tags e = st_tags st) /\
       parameters e
         = List.filter (fun p => negb (String.eqb (trim (key p)) ""))
                       (st_parameters st) /\
       (forall p, p ∈ parameters e <-> p ∈ st_parameters st /\ trim (key p) <> "") /\
       (forall p, p ∈ parameters e -> key p <> "")).
Proof.
  split; [|split].
  - intros Hblank.
    rewrite handleSave_rejected.
    + simpl. rewrite Hblank. simpl. repeat split; eauto.
    + unfold hasErrors, validate. simpl. by rewrite Hblank.
  - intros Hprompt Hbefore Hafter. apply nonEmpty_true in Hprompt.
    rewrite handleSave_rejected.
    + simpl. rewrite Hprompt, Hbefore, Hafter. simpl. repeat split; eauto.
    + unfold hasErrors, validate. simpl. by rewrite Hprompt, Hbefore, Hafter.
  - intros Hprompt Himage.
    destruct (handleSave_accepted initialData st) as
      (e & -> & _ & _ & _ & _ & _ & _ & Hparams & Htags & _); [done|].
    exists e. simpl. split_and!; try done.
    + intros Hpending Hnew. rewrite Htags. unfold finalTags.
      apply nonEmpty_true in Hpending. rewrite Hpending.
      destruct (arrayIncludes (st_tags st) (trim (st_tagInput st))) eqn:Hinc; [|done].
      by apply arrayIncludes_elem_of in Hinc.
    + intros Hskip. rewrite Htags. unfold finalTags.
      destruct Hskip as [Hempty | Hdup].
      * by rewrite Hempty.
      * apply arrayIncludes_elem_of in Hdup. rewrite Hdup.
        by rewrite andb_false_r.
    + intros p. rewrite Hparams, !list_elem_of_In, filter_In.
      by rewrite negb_true_iff, String.eqb_neq.
    + intros p Hp Hkey. rewrite Hparams in Hp.
      apply list_elem_of_In, filter_In in Hp. destruct Hp as [_ Hne].
      apply negb_true_iff, String.eqb_neq in Hne. by rewrite Hkey in Hne.
Qed.
End Editor.

(** ** Edit-save against the store *)

Lemma findIndex_at {A} (p : A -> bool) (xs : list A) (i : nat) (y : A) :
  xs !! i = Some y -> p y = true ->
  (forall (j : nat) (z : A), (j < i)%nat -> xs !! j = Some z -> p z = false) ->
  findIndex p xs = Z.of_nat i.
Proof.
  revert i. induction xs as [|a rest IH]; intros i Hy Hp Hfirst; [done|].
  destruct i as [|i]; simpl in *.
  - simplify_eq. by rewrite Hp.
  - assert (p a = false) as -> by (apply (Hfirst 0%nat a); [lia|done]).
    assert (findIndex p rest = Z.of_nat i) as ->.
    { apply IH; [done|done|]. intros j z Hj Hz. apply (Hfirst (S j) z); [lia|done]. }
    destruct (Z.ltb_spec (Z.of_nat i) 0); lia.
Qed.

Lemma handleSavePrompt_replace (prev : list PromptEntry) (i : nat)
    (old e : PromptEntry) :
  firstWithId prev i old e -> handleSavePrompt e prev = <[i := e]> prev.
Proof.
  intros (Hold & Hid & Hfirst). unfold handleSavePrompt.
  rewrite (findIndex_at _ prev i old Hold).
  - destruct (Z.gtb_spec (Z.of_nat i) (-1)); [|lia]. by rewrite Nat2Z.id.
  - by apply String.eqb_eq.
  - intros j z Hj Hz. apply String.eqb_neq. by eapply Hfirst.
Qed.


(** ** Every entry the application makes is well formed *)

Section WellFormed.
Context `{Runtime}.
Hypothesis nowISO_nonEmpty : nowISO <> "".
Hypothesis generateId_nonEmpty : generateId <> "".
Hypothesis randomUUID_nonEmpty : forall n, randomUUID n <> "".
Hypothesis dateToISOString_nonEmpty :
  forall s iso, dateToISOString s = Some iso -> iso <> "".

Lemma orElse_nonEmpty_default (a b : string) : b <> "" -> orElse a b <> "".
Proof. intros Hb. unfold orElse. by destruct a. Qed.

Lemma handleSave_wellFormed (initialData : option PromptEntry) (st : EditorState)
    (e : PromptEntry) :
  saved (handleSave initialData st) = Some e -> wellFormed e.
Proof.
  unfold handleSave. destruct (hasErrors (validate st)); [done|].
  intros [= <-]. split; simpl; destruct initialData;
    auto using orElse_nonEmpty_default.
Qed.

Lemma importRow_wellFormed (row : SheetRow) (calls calls' : nat) (e : PromptEntry) :
  importRow row calls = Some (e, calls') -> wellFormed e.
Proof.
  unfold importRow, bind.
  destruct (parseParameters (col_parameters row) calls) as [[ps calls1]|]; [|done].
  assert (forall r, (if nonEmpty (col_id row) then ret (col_id row) else freshUUID)
                      calls1 = Some r -> r.1 <> "") as Hid.
  { intros [id0 n]. destruct (nonEmpty (col_id row)) eqn:Hne.
    - intros [= <- _]. by apply nonEmpty_true.
    - intros [= <- _]. apply randomUUID_nonEmpty. }
  destruct ((if nonEmpty (col_id row) then ret (col_id row) else freshUUID) calls1)
    as [[id0 calls2]|]; [|done].
  specialize (Hid _ eq_refl). simpl in Hid.
  destruct (nonEmpty (col_createdAt row)).
  - destruct (dateToISOString (col_createdAt row)) as [iso|] eqn:Hiso; [|done].
    intros [= <- _]. split; simpl; eauto.
  - intros [= <- _]. by split.
Qed.
End WellFormed.

Section EditSave.
Context `{Runtime}.



End EditSave.

(** ** Strings: substrings and letter case *)

Lemma startsWith_prefix (s search : string) :
  startsWith s search = true <-> exists post, s = search +:+ post.
Proof.
  revert s. induction search as [|b search IH]; intros s; simpl.
  - split; [by exists s|done].
  - destruct s as [|a s].
    + split; [done|]. by intros [post Hpost].
    + rewrite andb_true_iff, Ascii.eqb_eq, IH. split.
      * intros [-> [post ->]]. by exists post.
      * intros [post Hpost]. injection Hpost as -> ->. split; [done|by exists post].
Qed.

Lemma includes_substring (s search : string) :
  includes s search = true <-> exists pre post, s = pre +:+ search +:+ post.
Proof.
  induction s as [|a s IH]; simpl; rewrite orb_true_iff, startsWith_prefix.
  - split.
    + intros [[post Hpost] | ?]; [|done]. by exists "", post.
    + intros (pre & post & Hs). left. destruct pre; [by exists post|done].
  - rewrite IH. split.
    + intros [[post Hpost] | (pre & post & ->)].
      * by exists "", post.
      * by exists (String a pre), post.
    + intros (pre & post & Hs). destruct pre as [|c pre].
      * left. by exists post.
      * right. injection Hs as -> ->. by exists pre, post.
Qed.

Lemma toLowerCase_app (a b : string) :
  toLowerCase (a +:+ b) = toLowerCase a +:+ toLowerCase b.
Proof. induction a as [|c a IH]; simpl; [done|]. by rewrite IH. Qed.

Lemma toLowerCase_app_inv (s a b : string) :
  toLowerCase s = a +:+ b ->
  exists s1 s2, s = s1 +:+ s2 /\ toLowerCase s1 = a /\ toLowerCase s2 = b.
Proof.
  revert s. induction a as [|c a IH]; intros s Hs; simpl in Hs.
  - by exists "", s.
  - destruct s as [|d s]; [done|]. simpl in Hs. injection Hs as Hc Hs.
    destruct (IH s Hs) as (s1 & s2 & -> & <- & <-).
    exists (String d s1), s2. simpl. by rewrite Hc.
Qed.

(** The test the filter runs, lower-casing both sides, is the
    case-insensitive substring match. *)
Lemma includes_ignoring_case (hay needle : string) :
  includes (toLowerCase hay) (toLowerCase needle) = true
  <-> occursIgnoringCase needle hay.
Proof.
  rewrite includes_substring. unfold occursIgnoringCase, equalIgnoringCase. split.
  - intros (pre & post & Hs).
    apply toLowerCase_app_inv in Hs as (s1 & rest & -> & _ & Hrest).
    apply toLowerCase_app_inv in Hrest as (s2 & s3 & -> & Hmid & _).
    by exists s1, s2, s3.
  - intros (pre & mid & post & -> & Hmid).
    exists (toLowerCase pre), (toLowerCase post).
    by rewrite !toLowerCase_app, Hmid.
Qed.

Lemma includes_empty (s : string) : includes s "" = true.
Proof. by destruct s. Qed.

(** ** The filter callback against the specification's three tests *)

Lemma matchesSearch_passesText (searchTerm : string) (p : PromptEntry) :
  matchesSearch searchTerm p = true <-> passesText searchTerm p.
Proof.
  unfold matchesSearch, passesText.
  rewrite !orb_true_iff, andb_true_iff, existsb_exists, includes_ignoring_case.
  split.
  - intros [[Hprompt | [_ Hmodel]] | (t & Hin & Ht)].
    + by left.
    + right; left. destruct (model p) as [m|]; [|done].
      exists m. by rewrite <- includes_ignoring_case.
    + right; right. exists t. by rewrite list_elem_of_In, <- includes_ignoring_case.
  - intros [Hprompt | [(m & Hm & Hocc) | (t & Hin & Ht)]].
    + by left; left.
    + rewrite Hm. destruct m as [|c m].
      * (* an empty model is falsy; the term is then empty as well and the
           prompt matches *)
        left; left. destruct Hocc as (pre & mid & post & Hsplit & Hmid).
        destruct pre; [|done]. destruct mid; [|done].
        by exists "", "", (prompt p).
      * left; right. split; [done|]. by apply includes_ignoring_case.
    + right. exists t. by rewrite <- list_elem_of_In, includes_ignoring_case.
Qed.

Lemma matchesTags_passesTags (selectedTags : gset string) (p : PromptEntry) :
  matchesTags selectedTags p = true <-> passesTags selectedTags p.
Proof.
  unfold matchesTags, passesTags.
  rewrite orb_true_iff, existsb_exists, Z.eqb_eq. split.
  - intros [Hsize | (t & Hin & Ht)].
    + left. apply leibniz_equiv, size_empty_iff. lia.
    + right. exists t. apply bool_decide_eq_true in Ht. by rewrite list_elem_of_In.
  - intros [-> | (t & Hin & Ht)].
    + left. by rewrite size_empty.
    + right. exists t. by rewrite <- list_elem_of_In, bool_decide_eq_true.
Qed.

Lemma keepPrompt_passes (currentView : View) (searchTerm : string)
    (selectedTags : gset string) (p : PromptEntry) :
  keepPrompt currentView searchTerm selectedTags p = true <->
  passesView currentView p /\ passesText searchTerm p /\ passesTags selectedTags p.
Proof.
  unfold keepPrompt, passesView.
  rewrite <- matchesSearch_passesText, <- matchesTags_passesTags.
  destruct currentView, (isFavorite p) as [[|]|]; simpl;
    rewrite ?andb_true_iff; intuition congruence.
Qed.

(** ** The stable sort by creation time *)

Lemma sortInsert_Permutation {A} (compare : A -> A -> Z) (x : A) (xs : list A) :
  sortInsert compare x xs ≡ₚ x :: xs.
Proof.
  induction xs as [|y rest IH]; simpl; [done|].
  destruct (compare x y <=? 0); [done|].
  rewrite IH. apply Permutation_swap.
Qed.

Lemma arraySort_Permutation {A} (compare : A -> A -> Z) (xs : list A) :
  arraySort compare xs ≡ₚ xs.
Proof.
  induction xs as [|x rest IH]; simpl; [done|].
  by rewrite sortInsert_Permutation, IH.
Qed.

Section FilterSort.
Context `{Runtime}.

Lemma sortInsert_notOlder (x : PromptEntry) (xs : list PromptEntry) :
  StronglySorted notOlder xs ->
  StronglySorted notOlder (sortInsert byCreatedAtDesc x xs).
Proof.
  induction 1 as [|y rest Hsorted IH Hy]; simpl.
  - repeat constructor.
  - unfold byCreatedAtDesc at 1.
    destruct (Z.leb_spec (dateGetTime (createdAt y) - dateGetTime (createdAt x)) 0)
      as [Hle | Hgt].
    + constructor; [by constructor|].
      constructor; [unfold notOlder; lia|].
      eapply Forall_impl; [exact Hy|]. unfold notOlder. intros z Hz. lia.
    + constructor; [done|].
      rewrite sortInsert_Permutation. constructor; [unfold notOlder; lia|done].
Qed.

Lemma arraySort_notOlder (xs : list PromptEntry) :
  StronglySorted notOlder (arraySort byCreatedAtDesc xs).
Proof.
  induction xs as [|x rest IH]; simpl; [constructor|].
  by apply sortInsert_notOlder.
Qed.

(** Inserting never moves an entry past one with the same creation time. *)
Lemma sortInsert_createdAtTime (t : Z) (x : PromptEntry) (xs : list PromptEntry) :
  createdAtTime t (sortInsert byCreatedAtDesc x xs) = createdAtTime t (x :: xs).
Proof.
  unfold createdAtTime.
  induction xs as [|y rest IH]; [done|].
  cbn [sortInsert]. unfold byCreatedAtDesc at 1.
  destruct (Z.leb_spec (dateGetTime (createdAt y) - dateGetTime (createdAt x)) 0)
    as [Hle | Hgt]; [done|].
  cbn [List.filter] in *. rewrite IH.
  destruct (Z.eqb_spec (dateGetTime (createdAt y)) t),
           (Z.eqb_spec (dateGetTime (createdAt x)) t); (done || lia).
Qed.

Lemma arraySort_createdAtTime (t : Z) (xs : list PromptEntry) :
  createdAtTime t (arraySort byCreatedAtDesc xs) = createdAtTime t xs.
Proof.
  induction xs as [|x rest IH]; [done|].
  cbn [arraySort foldr]. rewrite sortInsert_createdAtTime.
  unfold createdAtTime in *. cbn [List.filter].
  fold (arraySort byCreatedAtDesc rest). by rewrite IH.
Qed.

Lemma createdAtTime_cons (t : Z) (x : PromptEntry) (xs : list PromptEntry) :
  createdAtTime t (x :: xs)
  = if dateGetTime (createdAt x) =? t then x :: createdAtTime t xs
    else createdAtTime t xs.
Proof. done. Qed.

Lemma createdAtTime_head (x : PromptEntry) (xs ys : list PromptEntry) :
  StronglySorted notOlder ys ->
  createdAtTime (dateGetTime (createdAt x)) (x :: xs)
    = createdAtTime (dateGetTime (createdAt x)) ys ->
  exists y ys', ys = y :: ys' /\ notOlder y x.
Proof.
  rewrite createdAtTime_cons, Z.eqb_refl. intros Hsorted Heq.
  destruct ys as [|y ys']; [done|]. exists y, ys'. split; [done|].
  assert (x ∈ y :: ys') as Hin.
  { apply list_elem_of_In.
    eapply (proj1 (filter_In _ x (y :: ys'))).
    unfold createdAtTime in Heq. rewrite <- Heq. by left. }
  apply StronglySorted_inv in Hsorted as [_ Hall].
  apply elem_of_cons in Hin as [-> | Hin]; [unfold notOlder; lia|].
  by apply (proj1 (Forall_forall _ _) Hall).
Qed.

(** A stable sort has one possible result: two orderings that are both
    most-recent-first and that keep the entries of every creation time in
    the same order are the same list.  So the result of [sort] does not
    depend on how the runtime sorts. *)
Lemma stable_sorted_unique (xs ys : list PromptEntry) :
  StronglySorted notOlder xs -> StronglySorted notOlder ys ->
  (forall t, createdAtTime t xs = createdAtTime t ys) ->
  xs = ys.
Proof.
  revert ys. induction xs as [|x xs IH]; intros ys Hxs Hys Heq.
  - destruct ys as [|y ys]; [done|].
    specialize (Heq (dateGetTime (createdAt y))).
    by rewrite createdAtTime_cons, Z.eqb_refl in Heq.
  - destruct (createdAtTime_head x xs ys Hys (Heq _)) as (y & ys' & -> & Hyx).
    destruct (createdAtTime_head y ys' (x :: xs) Hxs (eq_sym (Heq _)))
      as (x' & xs' & [= <- <-] & Hxy).
    assert (dateGetTime (createdAt y) = dateGetTime (createdAt x)) as Htime
      by (unfold notOlder in *; lia).
    pose proof (Heq (dateGetTime (createdAt x))) as Hhead.
    rewrite !createdAtTime_cons, Htime, Z.eqb_refl in Hhead.
    injection Hhead as <- Htail.
    f_equal. apply IH.
    + by apply StronglySorted_inv in Hxs as [? _].
    + by apply StronglySorted_inv in Hys as [? _].
    + intros t. specialize (Heq t). rewrite !createdAtTime_cons in Heq.
      destruct (dateGetTime (createdAt x) =? t); [by injection Heq|done].
Qed.

Lemma filter_sublist {A} (f : A -> bool) (xs : list A) :
  List.filter f xs `sublist_of` xs.
Proof.
  induction xs as [|x rest IH]; simpl; [constructor|].
  destruct (f x); by constructor.
Qed.

(** C4. An entry is in the filtered result iff it is a stored entry that
    passes the view restriction (the favorites view keeps favorites only),
    the text filter (the search term occurs, letter case ignored, in the
    prompt, in the model if there is one, or in some tag; the empty term
    occurs everywhere) and the tag filter (no tag selected, or some tag of
    the entry is selected: having tag a is enough when a and b are
    selected).  The result holds exactly the entries the filter keeps, most
    recent first, and entries created at the same time stay in the order
    they have in the store. *)
Theorem filteredPrompts_spec (prompts : list PromptEntry) (searchTerm : string)
    (selectedTags : gset string) (currentView : View) :
  (forall p,
     p ∈ filteredPrompts prompts searchTerm selectedTags currentView <->
     p ∈ prompts /\ passesView currentView p /\ passesText searchTerm p /\
     passesTags selectedTags p) /\
  (forall p, passesText "" p) /\
  (forall p a b, tags p = [a] -> passesTags {[a; b]} p) /\
  filteredPrompts prompts searchTerm selectedTags currentView
    ≡ₚ List.filter (keepPrompt currentView searchTerm selectedTags) prompts /\
  StronglySorted notOlder
    (filteredPrompts prompts searchTerm selectedTags currentView) /\
  (forall t,
     createdAtTime t (filteredPrompts prompts searchTerm selectedTags currentView)
     = createdAtTime t
         (List.filter (keepPrompt currentView searchTerm selectedTags) prompts)) /\
  (forall t,
     createdAtTime t (filteredPrompts prompts searchTerm selectedTags currentView)
     `sublist_of` prompts).
Proof.
  unfold filteredPrompts. split_and!.
  - intros p. rewrite arraySort_Permutation, !list_elem_of_In, filter_In.
    by rewrite keepPrompt_passes.
  - intros p. left. by exists "", "", (prompt p).
  - intros p a b Htags. right. exists a. rewrite Htags. split; set_solver.
  - apply arraySort_Permutation.
  - apply arraySort_notOlder.
  - intros t. apply arraySort_createdAtTime.
  - intros t. rewrite arraySort_createdAtTime. unfold createdAtTime.
    etransitivity; apply filter_sublist.
Qed.
End FilterSort.

(** ** Strings: splitting what was joined *)

Lemma containsChar_app (c : ascii) (a b : string) :
  containsChar c (a +:+ b) = containsChar c a || containsChar c b.
Proof. induction a as [|d a IH]; simpl; [done|]. by rewrite IH, orb_assoc. Qed.

Lemma split_without (c : ascii) (s : string) :
  containsChar c s = false -> split c s = [s].
Proof.
  induction s as [|d s IH]; simpl; [done|].
  intros [Hd Hs]%orb_false_iff. by rewrite Hd, IH.
Qed.

Lemma split_app (c : ascii) (a b : string) :
  containsChar c a = false -> split c (a +:+ String c b) = a :: split c b.
Proof.
  induction a as [|d a IH]; simpl.
  - by rewrite Ascii.eqb_refl.
  - intros [Hd Ha]%orb_false_iff. by rewrite Hd, IH.
Qed.

(** Joining with a separator followed by a pad character and splitting on
    the separator gives the pieces back, all but the first one padded. *)
Lemma split_join (c d : ascii) (x : string) (rest : list string) :
  Ascii.eqb d c = false ->
  Forall (fun s => containsChar c s = false) (x :: rest) ->
  split c (join (String c (String d "")) (x :: rest)) = x :: map (String d) rest.
Proof.
  intros Hcd. revert x. induction rest as [|y rest IH]; intros x Hall.
  - apply split_without. by inversion Hall.
  - inversion Hall as [|? ? Hx Hrest]; subst.
    change (join (String c (String d "")) (x :: y :: rest))
      with (x +:+ String c (String d (join (String c (String d "")) (y :: rest)))).
    rewrite split_app by done.
    cbn [split]. rewrite Hcd, (IH y Hrest). done.
Qed.

Lemma trim_pad (s : string) : trim (String " " s) = trim s.
Proof. done. Qed.

Lemma join_nonEmpty (sep x : string) (rest : list string) :
  x <> "" -> nonEmpty (join sep (x :: rest)) = true.
Proof. intros Hx. destruct x; [done|]. by destruct rest. Qed.

(** ** The spreadsheet round trip *)

Lemma parseTags_join (ts : list string) :
  Forall exportableTag ts -> parseTags (join ", " ts) = ts.
Proof.
  destruct ts as [|t ts]; [done|]. intros Hall. unfold parseTags.
  rewrite join_nonEmpty by (by inversion Hall as [|? ? (? & _)]).
  rewrite (split_join "," " ") ; [|done|].
  - cbn [map]. rewrite map_map. cbn [List.filter].
    inversion Hall as [|? ? (Hne & Htrim & _) Hrest]; subst.
    rewrite Htrim. apply nonEmpty_true in Hne. rewrite Hne. f_equal.
    clear -Hrest. induction Hrest as [|u us (Hne & Htrim & _) _ IH]; [done|].
    cbn [map List.filter]. rewrite trim_pad, Htrim.
    apply nonEmpty_true in Hne. by rewrite Hne, IH.
  - eapply Forall_impl; [exact Hall|]. by intros s (_ & _ & ?).
Qed.

Lemma parameterCell_no_semicolon (p : PromptParameter) :
  exportableParameter p -> containsChar ";" (parameterCell p) = false.
Proof.
  intros [(_ & _ & Hk & _) (_ & _ & Hv & _)]. unfold parameterCell.
  rewrite !containsChar_app, Hk, Hv. done.
Qed.

(** The parts a parameter piece splits into on the colon, trimmed: the
    key and the value, whether the piece carries the pad of the join or
    not. *)
Lemma parameter_parts (pad k v : string) :
  containsChar ":" pad = false -> trim (pad +:+ k) = k ->
  containsChar ":" k = false -> containsChar ":" v = false -> trim v = v ->
  map trim (split ":" ((pad +:+ k) +:+ ": " +:+ v)) = [k; v].
Proof.
  intros Hpad Htrim Hk Hv Hvtrim.
  change (": " +:+ v) with (String ":" (String " " v)).
  rewrite split_app by (by rewrite containsChar_app, Hpad, Hk).
  cbn [split]. change (Ascii.eqb " " ":") with false. cbv iota.
  rewrite (split_without ":" v Hv). cbn [map].
  by rewrite Htrim, trim_pad, Hvtrim.
Qed.

Section RoundTrip.
Context `{Runtime}.

Lemma parseParameter_piece (pad : string) (p : PromptParameter) (calls : nat) :
  exportableParameter p -> pad = "" \/ pad = " " ->
  parseParameter (pad +:+ parameterCell p) calls
  = Some ({| param_id := randomUUID calls; key := key p; value := value p |},
          S calls).
Proof.
  intros [(_ & Hktrim & _ & Hk) (_ & Hvtrim & _ & Hv)] Hpad.
  unfold parseParameter, bind, freshUUID, ret, parameterCell.
  assert (map trim (split ":" (pad +:+ key p +:+ ": " +:+ value p))
          = [key p; value p]) as ->; [|done].
  destruct Hpad as [-> | ->].
  - by apply (parameter_parts "").
  - by apply (parameter_parts " ").
Qed.

Lemma mapImport_padded (ps : list PromptParameter) (calls : nat) :
  Forall exportableParameter ps ->
  exists parsed,
    mapImport parseParameter (map (String " ") (map parameterCell ps)) calls
      = Some (parsed, (calls + length ps)%nat) /\
    keyValue <$> parsed = keyValue <$> ps.
Proof.
  intros Hall. revert calls.
  induction Hall as [|p ps Hp _ IH]; intros calls.
  - exists []. simpl. unfold ret. by rewrite Nat.add_0_r.
  - destruct (IH (S calls)) as (parsed & Hparsed & Hkv).
    pose proof (parseParameter_piece " " p calls Hp (or_intror eq_refl)) as Hpiece.
    change (" " +:+ parameterCell p) with (String " " (parameterCell p)) in Hpiece.
    eexists. cbn [map mapImport]. unfold bind at 1. rewrite Hpiece.
    unfold bind at 1. rewrite Hparsed. unfold ret. split.
    + do 2 f_equal. simpl. lia.
    + rewrite fmap_cons, Hkv. done.
Qed.

Lemma parseParameters_join (ps : list PromptParameter) (calls : nat) :
  Forall exportableParameter ps ->
  exists parsed calls',
    parseParameters (join "; " (map parameterCell ps)) calls = Some (parsed, calls') /\
    keyValue <$> parsed = keyValue <$> ps.
Proof.
  intros Hall. destruct Hall as [|p ps Hp Hps].
  - exists [], calls. done.
  - unfold parseParameters. cbn [map].
    rewrite join_nonEmpty.
    2:{ destruct Hp as [(Hne & _) _]. unfold parameterCell. by destruct (key p). }
    rewrite (split_join ";" " "); [|done|].
    2:{ constructor; [by apply parameterCell_no_semicolon|].
        clear -Hps. induction Hps as [|q qs Hq _ IH]; cbn [map]; constructor;
          [by apply parameterCell_no_semicolon | exact IH]. }
    destruct (mapImport_padded ps (S calls) Hps) as (parsed & Hparsed & Hkv).
    eexists _, _. split.
    + pose proof (parseParameter_piece "" p calls Hp (or_introl eq_refl)) as Hpiece.
      change ("" +:+ parameterCell p) with (parameterCell p) in Hpiece.
      unfold bind at 1. cbn [mapImport]. unfold bind at 1. rewrite Hpiece.
      unfold bind at 1. rewrite Hparsed. unfold ret at 1. unfold ret at 1.
      reflexivity.
    + assert (Hkeep : forall qs : list PromptParameter,
                Forall (fun q => key q <> "" /\ value q <> "") qs ->
                List.filter (fun q => nonEmpty (key q) && nonEmpty (value q)) qs = qs).
      { induction 1 as [|q qs [Hk Hv] _ IH]; [done|]. cbn [List.filter].
        apply nonEmpty_true in Hk, Hv. by rewrite Hk, Hv, IH. }
      rewrite Hkeep; [by rewrite fmap_cons, Hkv|].
      constructor.
      * destruct Hp as [(? & _) (? & _)]. done.
      * clear -Hkv Hps. revert parsed Hkv.
        induction Hps as [|q qs [(Hk & _) (Hv & _)] _ IH];
          intros [|r parsed] Hkv; try done.
        injection Hkv as Hrk Hrv Hrest.
        constructor; [by rewrite Hrk, Hrv|by apply IH].
Qed.

Lemma importRow_exportRow (e : PromptEntry) (i calls : nat) :
  exportable e ->
  exists imported calls',
    importRow (exportRow e i) calls = Some (imported, calls') /\
    reimported e imported.
Proof.
  intros (Htags & Hparams & Hdate).
  destruct (parseParameters_join (parameters e) calls Hparams)
    as (parsed & calls1 & Hparsed & Hkv).
  unfold importRow, exportRow. cbn [col_parameters col_tags col_id col_createdAt
    col_prompt col_model col_favorite].
  unfold bind at 1. rewrite Hparsed.
  rewrite (parseTags_join (tags e) Htags).
  assert (exists id0 calls2,
    (if nonEmpty (id e) then ret (id e) else freshUUID) calls1 = Some (id0, calls2))
    as (id0 & calls2 & Hid).
  { destruct (nonEmpty (id e)); [by exists (id e), calls1|].
    by exists (randomUUID calls1), (S calls1). }
  unfold bind at 1. rewrite Hid.
  assert (exists created,
    (if nonEmpty (dateToLocaleString (createdAt e))
     then match dateToISOString (dateToLocaleString (createdAt e)) with
          | Some iso => ret iso
          | None => throw
          end
     else ret nowISO) calls2 = Some (created, calls2)) as (created & Hcreated).
  { destruct Hdate as [-> | [iso ->]].
    - by exists nowISO.
    - destruct (nonEmpty (dateToLocaleString (createdAt e)));
        [by exists iso | by exists nowISO]. }
  unfold bind at 1. rewrite Hcreated.
  eexists _, _. split; [reflexivity|].
  unfold reimported. cbn. split_and!; try done.
  - destruct (model e) as [[|c m]|]; done.
  - by destruct (isFavorite e) as [[|]|].
Qed.

(** The import reads from a row that went through the xlsx file what it
    reads from the row itself, when the file carries the cells it reads. *)
Lemma importRow_xlsxRow (e : PromptEntry) (i calls : nat) :
  carriedByXlsx e ->
  importRow (xlsxRow (exportRow e i)) calls = importRow (exportRow e i) calls.
Proof.
  unfold carriedByXlsx, carried.
  cbn [exportRow col_prompt col_model col_tags col_parameters col_createdAt
       col_favorite col_id].
  intros (Hprompt & Hmodel & Htags & Hparams & Hdate & Hfav & Hid).
  unfold importRow, xlsxRow, exportRow.
  cbn [col_prompt col_model col_tags col_parameters col_createdAt
       col_favorite col_id].
  by rewrite Hprompt, Hmodel, Htags, Hparams, Hdate, Hfav, Hid.
Qed.

(** The import of the exported workbook runs the row loop on the exported
    rows as the xlsx file carries them. *)
Lemma roundTrip_rows (prompts : list PromptEntry) :
  roundTrip prompts = importRows (map xlsxRow (exportRows prompts)).
Proof. reflexivity. Qed.

(** C1, amended. For every list of entries whose tags are non-empty,
    free of surrounding white space and of commas, whose parameter keys
    and values are non-empty, free of surrounding white space, of
    semicolons and of colons, whose printed creation date reads back as a
    date, and whose exported cells the xlsx file carries as they are,
    exporting the list to a workbook, writing and loading the xlsx file
    and importing it succeeds and gives, position by position, an entry
    with the same prompt, the same model (an empty model comes back
    absent), the same tags, the same parameter key/value pairs in the same
    order and the same favorite flag (an unset flag comes back as false),
    and with both images unset. *)
Theorem roundTrip_reproduces (prompts : list PromptEntry) (calls : nat) :
  Forall exportable prompts ->
  Forall carriedByXlsx prompts ->
  exists imported calls',
    roundTrip prompts calls = Some (imported, calls') /\
    Forall2 reimported prompts imported.
Proof.
  rewrite roundTrip_rows. unfold importRows, exportRows. generalize 0%nat as i.
  intros i Hall Hcarried. revert i calls Hcarried.
  induction Hall as [|e rest He _ IH]; intros i calls Hcarried.
  - by exists [], calls.
  - apply Forall_cons in Hcarried as [Hcarry Hcarried].
    destruct (importRow_exportRow e i calls He) as (e' & calls1 & He' & Hre).
    destruct (IH (S i) calls1 Hcarried) as (rest' & calls2 & Hrest' & Hall').
    exists (e' :: rest'), calls2. split; [|by constructor].
    cbn [mapWithIndex map mapImport]. unfold bind at 1.
    rewrite (importRow_xlsxRow e i calls Hcarry), He'.
    unfold bind at 1. by rewrite Hrest'.
Qed.
End RoundTrip.

(** ** The file-name pattern *)

(** For the letters of the pattern, the folding of the [i] flag agrees
    with comparing lower-case forms. *)
Lemma canonicalize_lowerChar (c w : ascii) :
  w ∈ ["B"; "e"; "f"; "o"; "r"; "A"; "t"]%char ->
  Ascii.eqb (canonicalize c) (canonicalize w) = Ascii.eqb (lowerChar c) (lowerChar w).
Proof.
  intros Hw.
  repeat (apply elem_of_cons in Hw as [-> | Hw];
          [by destruct c as [[] [] [] [] [] [] [] []]|]).
  by apply elem_of_nil in Hw.
Qed.

Lemma toLowerCase_empty (s : string) : toLowerCase s = "" -> s = "".
Proof. by destruct s. Qed.

Lemma matchWord_spec (w s m rest : string) :
  patternWord w ->
  matchWord w s = Some (m, rest) <-> s = m +:+ rest /\ toLowerCase m = toLowerCase w.
Proof.
  revert s m. induction w as [|wc w IH]; intros s m Hw.
  - simpl. split.
    + by intros [= <- <-].
    + intros [-> ->%toLowerCase_empty]. done.
  - destruct Hw as [Hwc Hw]. destruct s as [|c s]; simpl.
    + split; [done|]. intros [Hs Hm]. destruct m; done.
    + rewrite (canonicalize_lowerChar c wc Hwc).
      destruct (Ascii.eqb_spec (lowerChar c) (lowerChar wc)) as [Hc | Hc].
      * split.
        -- destruct (matchWord w s) as [[m' rest']|] eqn:Hrec; [|done].
           intros [= <- <-]. apply IH in Hrec as [-> Hm']; [|done].
           simpl. by rewrite Hc, Hm'.
        -- intros [Hs Hm]. destruct m as [|mc m]; [done|].
           simpl in Hs, Hm. injection Hs as <- ->. injection Hm as _ Hm.
           assert (matchWord w (m +:+ rest) = Some (m, rest)) as ->; [|done].
           by apply IH.
      * split; [done|]. intros [Hs Hm]. destruct m as [|mc m]; [done|].
        simpl in Hs, Hm. injection Hs as <- ->. by injection Hm as Hmc _.
Qed.

Lemma spanDigits_spec (s ds rest : string) :
  spanDigits s = (ds, rest) <->
  s = ds +:+ rest /\ allDigits ds = true /\ headNotDigit rest.
Proof.
  revert ds. induction s as [|c s IH]; intros ds; simpl.
  - split.
    + by intros [= <- <-].
    + intros (Hs & _ & _). destruct ds; [|done]. simpl in Hs. by subst.
  - destruct (isDigit c) eqn:Hc.
    + destruct (spanDigits s) as [ds' rest'] eqn:Hrec. split.
      * intros [= <- <-]. destruct (proj1 (IH ds') eq_refl) as (-> & Hds & Hrest).
        simpl. by rewrite Hc, Hds.
      * intros (Hs & Hds & Hrest). destruct ds as [|d ds].
        -- simpl in Hs. subst rest. simpl in Hrest. congruence.
        -- simpl in Hs, Hds. injection Hs as <- ->.
           apply andb_true_iff in Hds as [_ Hds].
           assert ((ds', rest') = (ds, rest)) as [= -> ->]; [by apply IH|done].
    + split.
      * intros [= <- <-]. simpl. by rewrite Hc.
      * intros (Hs & Hds & Hrest). destruct ds as [|d ds].
        -- simpl in Hs. by subst.
        -- simpl in Hs, Hds. injection Hs as <- ->.
           apply andb_true_iff in Hds as [Hd _]. congruence.
Qed.

(** The two capture groups of the regular expression, against the
    pattern in words. *)
Lemma matchImageName_spec (filename digits word : string) :
  matchImageName filename = Some (digits, word) <->
  exists ext,
    filename = digits +:+ "_" +:+ word +:+ "." +:+ ext /\
    digits <> "" /\ allDigits digits = true /\
    (toLowerCase word = "before" \/ toLowerCase word = "after").
Proof.
  assert (HB : patternWord "Before").
  { simpl. repeat split;
      repeat first [apply list_elem_of_here | apply list_elem_of_further]. }
  assert (HA : patternWord "After").
  { simpl. repeat split;
      repeat first [apply list_elem_of_here | apply list_elem_of_further]. }
  unfold matchImageName. split.
  - destruct (spanDigits filename) as [ds rest] eqn:Hspan.
    apply spanDigits_spec in Hspan as (-> & Hds & _).
    destruct (nonEmpty ds) eqn:Hne; [|done]. apply nonEmpty_true in Hne.
    destruct rest as [|u rest]; [done|].
    destruct (Ascii.eqb_spec u "_") as [-> | Hu].
    2:{ by destruct u as [[] [] [] [] [] [] [] []]. }
    destruct (matchWord "Before" rest) as [[m [|dot ext]]|] eqn:Hbefore.
    + destruct (matchWord "After" rest) as [[m' [|dot' ext']]|] eqn:Hafter; [done| |done].
      destruct (Ascii.eqb_spec dot' ".") as [-> | Hdot];
        [|by destruct dot' as [[] [] [] [] [] [] [] []]].
      intros [= <- <-]. apply (matchWord_spec _ _ _ _ HA) in Hafter as [-> Hm].
      exists ext'. by split_and!; [|..|right].
    + destruct (Ascii.eqb_spec dot ".") as [-> | Hdot].
      * intros [= <- <-]. apply (matchWord_spec _ _ _ _ HB) in Hbefore as [-> Hm].
        exists ext. by split_and!; [|..|left].
      * assert (forall X : option (string * string),
                  match dot with "."%char => X | _ => None end = None) as Hnone.
        { intros X. by destruct dot as [[] [] [] [] [] [] [] []]. }
        rewrite Hnone.
        destruct (matchWord "After" rest) as [[m' [|dot' ext']]|] eqn:Hafter; [done| |done].
        destruct (Ascii.eqb_spec dot' ".") as [-> | Hdot'];
          [|by destruct dot' as [[] [] [] [] [] [] [] []]].
        intros [= <- <-]. apply (matchWord_spec _ _ _ _ HA) in Hafter as [-> Hm].
        exists ext'. by split_and!; [|..|right].
    + destruct (matchWord "After" rest) as [[m' [|dot' ext']]|] eqn:Hafter; [done| |done].
      destruct (Ascii.eqb_spec dot' ".") as [-> | Hdot];
        [|by destruct dot' as [[] [] [] [] [] [] [] []]].
      intros [= <- <-]. apply (matchWord_spec _ _ _ _ HA) in Hafter as [-> Hm].
      exists ext'. by split_and!; [|..|right].
  - intros (ext & -> & Hne & Hds & Hword).
    assert (spanDigits (digits +:+ "_" +:+ word +:+ "." +:+ ext)
            = (digits, "_" +:+ word +:+ "." +:+ ext)) as ->.
    { by apply spanDigits_spec. }
    apply nonEmpty_true in Hne. rewrite Hne.
    change ("_" +:+ word +:+ "." +:+ ext) with (String "_" (word +:+ "." +:+ ext)).
    cbv iota beta.
    destruct Hword as [Hword | Hword].
    + assert (matchWord "Before" (word +:+ "." +:+ ext) = Some (word, "." +:+ ext)) as ->.
      { by apply matchWord_spec. }
      done.
    + assert (matchWord "Before" (word +:+ "." +:+ ext) = None) as ->.
      { destruct (matchWord "Before" (word +:+ "." +:+ ext)) as [[m r]|] eqn:Hm; [|done].
        apply (matchWord_spec _ _ _ _ HB) in Hm as [Hsplit Hm].
        destruct word as [|c word]; [done|]. destruct m as [|mc m]; [done|].
        simpl in Hsplit, Hm, Hword. injection Hsplit as <- _.
        injection Hm as Hm _. injection Hword as Hword _.
        rewrite Hword in Hm. vm_compute in Hm. discriminate. }
      assert (matchWord "After" (word +:+ "." +:+ ext) = Some (word, "." +:+ ext)) as ->.
      { by apply matchWord_spec. }
      done.
Qed.

Lemma slotOf_pattern (filename : string) (n : N) (side : Side) :
  slotOf filename = Some (n, side) <-> matchesPattern filename n side.
Proof.
  unfold slotOf, matchesPattern. split.
  - destruct (matchImageName filename) as [[digits word]|] eqn:Hmatch; [|done].
    apply matchImageName_spec in Hmatch as (ext & -> & Hne & Hds & _).
    destruct (String.eqb_spec (toLowerCase word) "before") as [Hb | _].
    { intros [= <- <-]. by exists digits, word, ext. }
    destruct (String.eqb_spec (toLowerCase word) "after") as [Ha | _]; [|done].
    intros [= <- <-]. by exists digits, word, ext.
  - intros (digits & word & ext & -> & Hne & Hds & <- & Hword).
    assert (matchImageName (digits +:+ "_" +:+ word +:+ "." +:+ ext)
            = Some (digits, word)) as ->.
    { apply matchImageName_spec. exists ext. split_and!; try done.
      destruct side; [by left | by right]. }
    rewrite Hword. by destruct side.
Qed.

Lemma namesSlot_pattern (n : N) (side : Side) (filename base64 : string) :
  namesSlot n side (filename, base64) = true <-> matchesPattern filename n side.
Proof.
  rewrite <- slotOf_pattern. unfold namesSlot. simpl.
  destruct (slotOf filename) as [[m [|]]|], side; rewrite ?N.eqb_eq;
    split; (congruence || done).
Qed.

(** C7, as the claim states it, fails: a file named 2_Before.png does not
    become the before-image of the second entry when a later file of the
    map names the same slot. *)
Lemma matchImagesToPrompts_later_file_counterexample :
  ("2_Before.png", pngData) ∈ [("2_Before.png", pngData); ("2_before.jpg", jpegData)] /\
  exists q,
    matchImagesToPrompts [entryCat; entryDog]
      [("2_Before.png", pngData); ("2_before.jpg", jpegData)] !! 1%nat = Some q /\
    beforeImage q <> Some pngData.
Proof.
  split; [apply list_elem_of_here|].
  eexists. split; [reflexivity|]. vm_compute. discriminate.
Qed.

(** C7, amended. A file names slot ([n], side) exactly when its name reads
    {number}_{Before|After}.{ext} with number [n] and the word of [side],
    letter case ignored.  For the entry at 1-based position [n] and each
    side, reattachment attaches the data of the last file of the map that
    names slot ([n], side): a slot that no file names keeps the image it
    had, and a file that names a slot which no later file names becomes
    that slot's image.  So 2_Before.png alone becomes the before-image of
    the second entry, whose after-image stays untouched when nothing names
    2_After. *)
Theorem matchImagesToPrompts_reattach (prompts : list PromptEntry)
    (imageMap : ImageMap) (i : nat) (p : PromptEntry) (side : Side) :
  prompts !! i = Some p ->
  (forall (n : N) (filename base64 : string),
     namesSlot n side (filename, base64) = true <-> matchesPattern filename n side) /\
  exists q,
    matchImagesToPrompts prompts imageMap !! i = Some q /\
    imageAt side q = reattached (N.of_nat i + 1) side imageMap (imageAt side p) /\
    ((forall entry, entry ∈ imageMap -> namesSlot (N.of_nat i + 1) side entry = false) ->
       imageAt side q = imageAt side p) /\
    (forall (before after : ImageMap) (filename base64 : string),
       imageMap = before ++ (filename, base64) :: after ->
       namesSlot (N.of_nat i + 1) side (filename, base64) = true ->
       (forall entry, entry ∈ after -> namesSlot (N.of_nat i + 1) side entry = false) ->
       imageAt side q = Some base64).
Proof.
  intros Hp. split; [intros n filename base64; apply namesSlot_pattern|].
  exists (matchImages imageMap p i).
  unfold matchImagesToPrompts. rewrite mapWithIndex_lookup, Hp. simpl.
  split; [done|]. rewrite matchImages_images.
  split; [done|]. split.
  - apply reattached_none.
  - intros before after filename base64 -> Hnames Hlater.
    by apply reattached_last.
Qed.

Lemma matchImagesToPrompts_reattach_witness :
  (exists q,
     matchImagesToPrompts [entryCat; entryDog] [("2_Before.png", pngData)] !! 1%nat = Some q /\
     imageAt Before q = Some pngData) /\
  (exists q,
     matchImagesToPrompts [entryCat; entryDog] [("2_Before.png", pngData)] !! 1%nat = Some q /\
     imageAt After q = imageAt After entryDog).
Proof.
  split.
  - destruct (matchImagesToPrompts_reattach [entryCat; entryDog]
                [("2_Before.png", pngData)] 1 entryDog Before)
      as (_ & q & Hq & _ & _ & Hlast); [reflexivity|].
    exists q. split; [exact Hq|].
    apply (Hlast [] [] "2_Before.png" pngData); [reflexivity|reflexivity|].
    intros entry Hentry. by apply elem_of_nil in Hentry.
  - destruct (matchImagesToPrompts_reattach [entryCat; entryDog]
                [("2_Before.png", pngData)] 1 entryDog After)
      as (_ & q & Hq & _ & Hkeep & _); [reflexivity|].
    exists q. split; [exact Hq|].
    apply Hkeep. intros entry Hentry.
    apply list_elem_of_singleton in Hentry. by subst entry.
Defined.


(** * The rest of the sources *)

(** ** [allTags] *)

Lemma setAdd_elem_of (s : list string) (t x : string) :
  x ∈ setAdd s t <-> x ∈ s \/ x = t.
Proof.
  unfold setAdd. destruct (arrayIncludes s t) eqn:Hin.
  - apply arrayIncludes_elem_of in Hin. split; [by left|].
    intros [? | ->]; done.
  - rewrite elem_of_app, list_elem_of_singleton. done.
Qed.

Lemma setAdd_NoDup (s : list string) (t : string) : NoDup s -> NoDup (setAdd s t).
Proof.
  intros Hs. unfold setAdd. destruct (arrayIncludes s t) eqn:Hin; [done|].
  apply NoDup_app. split_and!; [done| |apply NoDup_singleton].
  intros x Hx ->%list_elem_of_singleton.
  apply arrayIncludes_elem_of in Hx. congruence.
Qed.

Lemma foldl_setAdd (ts : list string) (s : list string) :
  (forall x, x ∈ foldl setAdd s ts <-> x ∈ s \/ x ∈ ts) /\
  (NoDup s -> NoDup (foldl setAdd s ts)).
Proof.
  revert s. induction ts as [|t ts IH]; intros s; simpl.
  - split; [|done]. intros x. rewrite elem_of_nil. tauto.
  - destruct (IH (setAdd s t)) as [Hin Hnodup]. split.
    + intros x. rewrite Hin, setAdd_elem_of, elem_of_cons. tauto.
    + intros Hs. by apply Hnodup, setAdd_NoDup.
Qed.

Lemma foldl_tags (prompts : list PromptEntry) (s : list string) :
  (forall x, x ∈ foldl (fun acc p => foldl setAdd acc (tags p)) s prompts
             <-> x ∈ s \/ exists p, p ∈ prompts /\ x ∈ tags p) /\
  (NoDup s -> NoDup (foldl (fun acc p => foldl setAdd acc (tags p)) s prompts)).
Proof.
  revert s. induction prompts as [|p rest IH]; intros s; simpl.
  - split; [|done]. intros x. split; [by left|].
    intros [? | (p & Hp & _)]; [done|]. by apply elem_of_nil in Hp.
  - destruct (IH (foldl setAdd s (tags p))) as [Hin Hnodup].
    destruct (foldl_setAdd (tags p) s) as [Hin' Hnodup']. split.
    + intros x. rewrite Hin, Hin'. split.
      * intros [[? | ?] | (q & Hq & Hx)]; [by left| |].
        -- right. exists p. split; [apply list_elem_of_here|done].
        -- right. exists q. split; [by apply list_elem_of_further|done].
      * intros [? | (q & Hq & Hx)]; [by left; left|].
        apply elem_of_cons in Hq as [-> | Hq]; [by left; right|].
        right. by exists q.
    + intros Hs. by apply Hnodup, Hnodup'.
Qed.

(** Sorting with a comparator that decides a transitive relation gives a
    list sorted by that relation. *)
Lemma arraySort_sorted {A} (R : relation A) (compare : A -> A -> Z) (xs : list A) :
  Transitive R ->
  (forall a b, compare a b <= 0 -> R a b) ->
  (forall a b, 0 < compare a b -> R b a) ->
  StronglySorted R (arraySort compare xs).
Proof.
  intros Htrans Hle Hgt.
  assert (Hinsert : forall x ys, StronglySorted R ys ->
                      StronglySorted R (sortInsert compare x ys)).
  { intros x ys. induction 1 as [|y rest Hsorted IH Hy]; simpl.
    - repeat constructor.
    - destruct (Z.leb_spec (compare x y) 0) as [Hxy | Hxy].
      + constructor; [by constructor|]. constructor; [by apply Hle|].
        eapply Forall_impl; [exact Hy|]. intros z Hz.
        by etransitivity; [apply Hle|].
      + constructor; [done|]. rewrite sortInsert_Permutation.
        constructor; [by apply Hgt|done]. }
  induction xs as [|x rest IH]; simpl; [constructor|]. by apply Hinsert.
Qed.

Lemma compare_Lt_trans (a b c : string) :
  String.compare a b = Lt -> String.compare b c = Lt -> String.compare a c = Lt.
Proof.
  revert b c. induction a as [|x a IH]; intros [|y b] [|z c]; simpl; try done.
  destruct (Ascii.compare x y) eqn:Hxy, (Ascii.compare y z) eqn:Hyz; try done.
  - apply Ascii.compare_eq_iff in Hxy as ->, Hyz as ->.
    unfold Ascii.compare at 1. rewrite N.compare_refl. apply IH.
  - apply Ascii.compare_eq_iff in Hxy as ->. by rewrite Hyz.
  - apply Ascii.compare_eq_iff in Hyz as <-. by rewrite Hxy.
  - assert (Ascii.compare x z = Lt) as ->; [|done].
    unfold Ascii.compare in *. rewrite N.compare_lt_iff in *. lia.
Qed.

Lemma compare_Gt_Lt (a b : string) :
  String.compare a b = Gt -> String.compare b a = Lt.
Proof. intros Hab. by rewrite String.compare_antisym, Hab. Qed.

(** X1. [allTags] holds exactly the tags that occur in some entry, each
    once, in strictly increasing code-unit order. *)
Theorem allTags_sorted_set (prompts : list PromptEntry) :
  (forall t, t ∈ allTags prompts <-> exists p, p ∈ prompts /\ t ∈ tags p) /\
  NoDup (allTags prompts) /\
  StronglySorted (fun a b => String.compare a b = Lt) (allTags prompts).
Proof.
  unfold allTags.
  destruct (foldl_tags prompts []) as [Hin Hnodup].
  assert (Hnd : NoDup (arraySort compareStrings
            (foldl (fun acc p => foldl setAdd acc (tags p)) [] prompts))).
  { rewrite arraySort_Permutation. apply Hnodup, NoDup_nil_2. }
  split_and!.
  - intros t. rewrite arraySort_Permutation, Hin, elem_of_nil. tauto.
  - exact Hnd.
  - assert (Hsorted : StronglySorted (fun a b => String.compare a b <> Gt)
              (arraySort compareStrings
                 (foldl (fun acc p => foldl setAdd acc (tags p)) [] prompts))).
    { apply arraySort_sorted.
      - intros a b c Hab Hbc Hac.
        destruct (String.compare a b) eqn:Eab; [|..|done].
        + apply String.compare_eq_iff in Eab as ->. done.
        + destruct (String.compare b c) eqn:Ebc; [|..|done].
          * apply String.compare_eq_iff in Ebc as ->. congruence.
          * by rewrite (compare_Lt_trans a b c) in Hac.
      - intros a b. unfold compareStrings. by destruct (String.compare a b).
      - intros a b. unfold compareStrings.
        destruct (String.compare a b) eqn:Eab; [lia|lia|].
        intros _. by rewrite (compare_Gt_Lt a b). }
    revert Hnd Hsorted. generalize (arraySort compareStrings
      (foldl (fun acc p => foldl setAdd acc (tags p)) [] prompts)).
    induction l as [|x l IH]; intros Hnd Hsorted; [constructor|].
    apply NoDup_cons in Hnd as [Hx Hnd].
    apply StronglySorted_inv in Hsorted as [Hsorted Hall].
    constructor; [by apply IH|].
    apply Forall_forall. intros y Hy.
    pose proof (proj1 (Forall_forall _ _) Hall y Hy) as Hle.
    destruct (String.compare x y) eqn:Exy; [|done..].
    apply String.compare_eq_iff in Exy as ->. done.
Qed.

(** ** [favoritesCount] and the favorites view *)

Lemma matchesSearch_empty (p : PromptEntry) : matchesSearch "" p = true.
Proof. unfold matchesSearch. simpl. by rewrite includes_empty. Qed.

Lemma keepPrompt_favorites (p : PromptEntry) :
  keepPrompt favorites "" ∅ p = truthyFlag (isFavorite p).
Proof.
  unfold keepPrompt. rewrite matchesSearch_empty. unfold matchesTags.
  rewrite size_empty. simpl. by destruct (truthyFlag (isFavorite p)).
Qed.

Section Counts.
Context `{Runtime}.

(** X2. The favorites counter is the number of entries the favorites view
    lists when no search term and no tag is set, and it never exceeds the
    number of stored entries. *)
Theorem favoritesCount_view (prompts : list PromptEntry) :
  favoritesCount prompts
    = Z.of_nat (length (filteredPrompts prompts "" ∅ favorites)) /\
  0 <= favoritesCount prompts <= Z.of_nat (length prompts).
Proof.
  unfold favoritesCount, filteredPrompts. split.
  - rewrite arraySort_Permutation. do 2 f_equal.
    apply filter_ext. intros p. by rewrite keepPrompt_favorites.
  - pose proof (filter_length_le (fun p => truthyFlag (isFavorite p)) prompts).
    lia.
Qed.
End Counts.

(** ** Deleting *)

Lemma filter_all {A} (f : A -> bool) (xs : list A) :
  (forall x, x ∈ xs -> f x = true) -> List.filter f xs = xs.
Proof.
  induction xs as [|x rest IH]; intros Hall; simpl; [done|].
  rewrite (Hall x) by apply list_elem_of_here.
  rewrite IH; [done|]. intros y Hy. by apply Hall, list_elem_of_further.
Qed.

(** X3. A confirmed delete removes every entry with the given id and no
    other entry, keeping the rest in order; when no entry has the id, or
    when the confirmation is declined, the store is left as it is. *)
Theorem handleDeletePrompt_removes (id0 : string) (prev : list PromptEntry) :
  (forall p, p ∈ handleDeletePrompt true id0 prev <-> p ∈ prev /\ id p <> id0) /\
  handleDeletePrompt true id0 prev `sublist_of` prev /\
  ((forall p, p ∈ prev -> id p <> id0) -> handleDeletePrompt true id0 prev = prev) /\
  handleDeletePrompt false id0 prev = prev.
Proof.
  unfold handleDeletePrompt. split_and!.
  - intros p. rewrite !list_elem_of_In, filter_In, negb_true_iff, String.eqb_neq. done.
  - apply filter_sublist.
  - intros Habsent. apply filter_all. intros p Hp.
    by apply negb_true_iff, String.eqb_neq, Habsent.
  - done.
Qed.

Lemma filter_insert_drop {A} (f : A -> bool) (xs : list A) (i : nat) (x y : A) :
  xs !! i = Some x -> f x = false -> f y = false ->
  List.filter f (<[i := y]> xs) = List.filter f xs.
Proof.
  revert i. induction xs as [|a rest IH]; intros i Hx Hfx Hfy; [done|].
  destruct i as [|i]; simpl in *.
  - simplify_eq. by rewrite Hfx, Hfy.
  - by rewrite (IH i).
Qed.

Lemma findIndex_lookup {A} (p : A -> bool) (xs : list A) :
  0 <= findIndex p xs ->
  exists y, xs !! Z.to_nat (findIndex p xs) = Some y /\ p y = true.
Proof.
  induction xs as [|a rest IH]; simpl; [lia|].
  destruct (p a) eqn:Ha; [by exists a|].
  destruct (Z.ltb_spec (findIndex p rest) 0) as [Hneg | Hpos]; [lia|].
  intros _. destruct (IH Hpos) as (y & Hy & Hpy). exists y. split; [|done].
  by replace (Z.to_nat (findIndex p rest + 1))
    with (S (Z.to_nat (findIndex p rest))) by lia.
Qed.

(** X4. Upserting an entry and then deleting its id gives the same store
    as deleting the id right away; so saving a new entry and deleting it
    again gives back the store as it was. *)
Theorem handleDeletePrompt_after_upsert (e : PromptEntry) (prev : list PromptEntry) :
  handleDeletePrompt true (id e) (handleSavePrompt e prev)
    = handleDeletePrompt true (id e) prev /\
  ((forall p, p ∈ prev -> id p <> id e) ->
     handleDeletePrompt true (id e) (handleSavePrompt e prev) = prev).
Proof.
  assert (Hsame : handleDeletePrompt true (id e) (handleSavePrompt e prev)
                  = handleDeletePrompt true (id e) prev).
  { unfold handleDeletePrompt, handleSavePrompt.
    destruct (findIndex_range (fun p => String.eqb (id p) (id e)) prev)
      as [Hnone | Hfound].
    - rewrite Hnone. simpl. by rewrite String.eqb_refl.
    - destruct (Z.gtb_spec (findIndex (fun p => String.eqb (id p) (id e)) prev) (-1));
        [|lia].
      destruct (findIndex_lookup (fun p => String.eqb (id p) (id e)) prev)
        as (old & Hold & Hid); [lia|].
      eapply filter_insert_drop; [exact Hold| |].
      + by rewrite Hid.
      + by rewrite String.eqb_refl. }
  split; [exact Hsame|].
  intros Hnew. rewrite Hsame. unfold handleDeletePrompt.
  apply filter_all. intros p Hp. by apply negb_true_iff, String.eqb_neq, Hnew.
Qed.

Lemma filter_filter {A} (f g : A -> bool) (xs : list A) :
  List.filter f (List.filter g xs) = List.filter (fun x => g x && f x) xs.
Proof.
  induction xs as [|x rest IH]; simpl; [done|].
  destruct (g x); simpl; [|done]. destruct (f x); by rewrite IH.
Qed.

Lemma foldr_delete (ids : list string) (prev : list PromptEntry) :
  foldr (handleDeletePrompt true) prev ids
  = List.filter (fun p => negb (arrayIncludes ids (id p))) prev.
Proof.
  induction ids as [|i ids IH]; simpl.
  - symmetry. by apply filter_all.
  - rewrite IH. unfold handleDeletePrompt. rewrite filter_filter.
    apply filter_ext. intros p.
    rewrite negb_orb, andb_comm. done.
Qed.

(** X5. A confirmed bulk delete with a non-empty selection removes exactly
    the entries whose id is selected, which is what deleting the selected
    ids one after the other gives, and it empties the selection; with an
    empty selection, or when the confirmation is declined, store and
    selection stay as they are. *)
Theorem handleBulkDelete_removes (selectedIds : gset string)
    (prev : list PromptEntry) :
  (selectedIds <> ∅ ->
     (handleBulkDelete true selectedIds prev).2 = ∅ /\
     (forall p, p ∈ (handleBulkDelete true selectedIds prev).1
                <-> p ∈ prev /\ id p ∉ selectedIds) /\
     (handleBulkDelete true selectedIds prev).1
       = foldr (handleDeletePrompt true) prev (elements selectedIds)) /\
  handleBulkDelete true ∅ prev = (prev, ∅) /\
  handleBulkDelete false selectedIds prev = (prev, selectedIds).
Proof.
  unfold handleBulkDelete. split_and!.
  - intros Hne.
    assert (size selectedIds <> 0%nat) as Hsize.
    { intros Hs. apply Hne, leibniz_equiv, size_empty_iff. done. }
    destruct (Z.gtb_spec (Z.of_nat (size selectedIds)) 0); [|lia].
    simpl. split_and!; [done| |].
    + intros p. rewrite !list_elem_of_In, filter_In, negb_true_iff,
        bool_decide_eq_false. done.
    + rewrite foldr_delete. apply filter_ext. intros p. f_equal.
      apply eq_true_iff_eq. rewrite bool_decide_eq_true, arrayIncludes_elem_of.
      by rewrite elem_of_elements.
  - by rewrite size_empty.
  - by rewrite andb_false_r.
Qed.

(** ** Favorites *)

Lemma toggleFavorite_twice (p : PromptEntry) :
  sameButFavorite p (toggleFavorite (toggleFavorite p)) /\
  truthyFlag (isFavorite (toggleFavorite (toggleFavorite p)))
    = truthyFlag (isFavorite p).
Proof. split; [by repeat split|]. simpl. apply negb_involutive. Qed.

(** X6. Toggling the favorite of an id keeps the number and the order of
    the entries and every field but the favorite flag; it flips the flag
    of the entries with that id and leaves every other entry as it is;
    toggling twice gives every entry its favorite status back, and the
    favorites counter with it. *)
Theorem handleToggleFavorite_flips (id0 : string) (prev : list PromptEntry) :
  Forall2 sameButFavorite prev (handleToggleFavorite id0 prev) /\
  (forall (i : nat) (p : PromptEntry),
     prev !! i = Some p ->
     exists q,
       handleToggleFavorite id0 prev !! i = Some q /\
       (id p = id0 ->
          truthyFlag (isFavorite q) = negb (truthyFlag (isFavorite p))) /\
       (id p <> id0 -> q = p)) /\
  Forall2 (fun p q => sameButFavorite p q /\
                      truthyFlag (isFavorite q) = truthyFlag (isFavorite p))
          prev (handleToggleFavorite id0 (handleToggleFavorite id0 prev)) /\
  favoritesCount (handleToggleFavorite id0 (handleToggleFavorite id0 prev))
    = favoritesCount prev.
Proof.
  unfold handleToggleFavorite. split_and!.
  - induction prev as [|p rest IH]; simpl; constructor; [|done].
    destruct (String.eqb (id p) id0); by repeat split.
  - intros i p Hp. change (@map) with (@fmap list _).
    rewrite list_lookup_fmap, Hp. simpl. eexists. split; [done|].
    destruct (String.eqb_spec (id p) id0); split; done.
  - induction prev as [|p rest IH]; simpl; constructor; [|done].
    destruct (String.eqb (id p) id0) eqn:Hid; simpl.
    + rewrite Hid. apply toggleFavorite_twice.
    + rewrite Hid. by repeat split.
  - unfold favoritesCount. f_equal.
    induction prev as [|p rest IH]; simpl; [done|].
    destruct (String.eqb (id p) id0) eqn:Hid; simpl; rewrite Hid; simpl.
    + rewrite negb_involutive.
      destruct (truthyFlag (isFavorite p)); simpl; by rewrite IH.
    + destruct (truthyFlag (isFavorite p)); simpl; by rewrite IH.
Qed.

(** ** Tag selection and paging *)

(** X7. Toggling a tag flips its membership in the selection, touches no
    other tag and sends the view back to page 1; toggling the same tag
    twice gives the selection back. *)
Theorem handleTagToggle_involutive (tag : string) (selectedTags : gset string) :
  (tag ∈ (handleTagToggle tag selectedTags).1 <-> tag ∉ selectedTags) /\
  (forall t, t <> tag ->
     (t ∈ (handleTagToggle tag selectedTags).1 <-> t ∈ selectedTags)) /\
  (handleTagToggle tag selectedTags).2 = 1 /\
  (handleTagToggle tag (handleTagToggle tag selectedTags).1).1 = selectedTags.
Proof.
  unfold handleTagToggle. simpl.
  destruct (decide (tag ∈ selectedTags)) as [Hin | Hout].
  - rewrite (bool_decide_eq_true_2 _ Hin).
    assert (tag ∉ selectedTags ∖ {[tag]}) as Hgone.
    { rewrite elem_of_difference, elem_of_singleton. tauto. }
    rewrite (bool_decide_eq_false_2 _ Hgone). split_and!.
    + tauto.
    + intros t Ht. rewrite elem_of_difference, elem_of_singleton. tauto.
    + done.
    + apply set_eq. intros t.
      rewrite elem_of_union, elem_of_difference, elem_of_singleton.
      destruct (decide (t = tag)) as [-> | Hne]; tauto.
  - rewrite (bool_decide_eq_false_2 _ Hout).
    assert (tag ∈ selectedTags ∪ {[tag]}) as Hthere.
    { rewrite elem_of_union, elem_of_singleton. tauto. }
    rewrite (bool_decide_eq_true_2 _ Hthere). split_and!.
    + tauto.
    + intros t Ht. rewrite elem_of_union, elem_of_singleton. tauto.
    + done.
    + apply set_eq. intros t.
      rewrite elem_of_difference, elem_of_union, elem_of_singleton.
      destruct (decide (t = tag)) as [-> | Hne]; tauto.
Qed.

(** X8. With a non-empty result and a page number that is not negative,
    one run of the page-clamp effect reaches a page the effect no longer
    changes, that page is one of 1..totalPages, and the slice shown for
    it is not empty. *)
Theorem pageClampEffect_settles (filtered : list PromptEntry) (currentPage : Z) :
  filtered <> [] -> 0 <= currentPage ->
  pageClampEffect (pageClampEffect currentPage (totalPages filtered))
                  (totalPages filtered)
    = pageClampEffect currentPage (totalPages filtered) /\
  1 <= pageClampEffect currentPage (totalPages filtered) <= totalPages filtered /\
  paginatedPrompts filtered (pageClampEffect currentPage (totalPages filtered)) <> [].
Proof.
  intros Hne Hpage.
  pose proof (totalPages_positive filtered Hne) as Hpos.
  assert (Hrange : 1 <= pageClampEffect currentPage (totalPages filtered)
                   <= totalPages filtered).
  { unfold pageClampEffect.
    destruct (Z.gtb_spec currentPage (totalPages filtered)),
             (Z.gtb_spec (totalPages filtered) 0),
             (Z.eqb_spec currentPage 0); simpl; lia. }
  split; [|split; [exact Hrange|]].
  - revert Hrange. generalize (pageClampEffect currentPage (totalPages filtered)).
    intros page' Hrange. unfold pageClampEffect.
    destruct (Z.gtb_spec page' (totalPages filtered)); [lia|].
    destruct (Z.eqb_spec page' 0); [lia|]. done.
  - revert Hrange. generalize (pageClampEffect currentPage (totalPages filtered)).
    intros page' Hrange. rewrite paginatedPrompts_window by lia.
    intros Hempty. apply (f_equal length) in Hempty.
    rewrite length_take, length_drop in Hempty. cbn [length] in Hempty.
    unfold totalPages, ITEMS_PER_PAGE in Hrange.
    assert (Hdiv := Z.div_mod (Z.of_nat (length filtered) + 12 - 1) 12).
    assert (Hmod := Z.mod_pos_bound (Z.of_nat (length filtered) + 12 - 1) 12).
    assert (0 < length filtered)%nat by (destruct filtered; [done|simpl; lia]).
    lia.
Qed.

(** ** [trim] *)

Lemma trimEnd_idempotent (s : string) : trimEnd (trimEnd s) = trimEnd s.
Proof.
  induction s as [|c s IH]; [done|]. cbn [trimEnd].
  destruct (trimEnd s) as [|d r] eqn:Hs.
  - destruct (isWhiteSpace c) eqn:Hc; [done|]. cbn [trimEnd]. by rewrite Hc.
  - cbn [trimEnd] in *. by rewrite IH.
Qed.

Lemma trimStart_head (s : string) :
  match trimStart s with
  | EmptyString => True
  | String c _ => isWhiteSpace c = false
  end.
Proof.
  induction s as [|c s IH]; [done|]. cbn [trimStart].
  by destruct (isWhiteSpace c) eqn:Hc.
Qed.

Lemma trimEnd_head (c : ascii) (s : string) :
  isWhiteSpace c = false -> exists r, trimEnd (String c s) = String c r.
Proof.
  intros Hc. cbn [trimEnd]. destruct (trimEnd s); rewrite ?Hc; eauto.
Qed.

Lemma trim_idempotent (s : string) : trim (trim s) = trim s.
Proof.
  unfold trim. pose proof (trimStart_head s) as Hhead.
  destruct (trimStart s) as [|c t]; [done|].
  destruct (trimEnd_head c t Hhead) as [r Hr].
  rewrite Hr. cbn [trimStart]. rewrite Hhead, <- Hr. apply trimEnd_idempotent.
Qed.

(** ** The tag field of the editor *)

Lemma filter_NoDup {A} (f : A -> bool) (xs : list A) :
  NoDup xs -> NoDup (List.filter f xs).
Proof.
  intros Hxs. eapply sublist_NoDup; [done|apply filter_sublist].
Qed.

Lemma filter_Forall {A} (P : A -> Prop) (f : A -> bool) (xs : list A) :
  Forall P xs -> Forall P (List.filter f xs).
Proof.
  induction 1 as [|x rest Hx _ IH]; simpl; [constructor|].
  destruct (f x); [by constructor|done].
Qed.

Lemma tidyTags_snoc (ts : list string) (s : string) :
  tidyTags ts -> nonEmpty (trim s) = true -> arrayIncludes ts (trim s) = false ->
  tidyTags (ts ++ [trim s]).
Proof.
  intros [Hnodup Hall] Hne Hnew. split.
  - apply NoDup_app. split_and!; [done| |apply NoDup_singleton].
    intros x Hx ->%list_elem_of_singleton.
    apply arrayIncludes_elem_of in Hx. congruence.
  - apply Forall_app. split; [done|]. constructor; [|constructor].
    split; [by apply nonEmpty_true|apply trim_idempotent].
Qed.

(** X9. The editor keeps its tag list tidy: if the tags are free of
    duplicates, non-empty and trimmed, they still are after any key press
    in the tag field, after removing a tag, and in the tag list a save
    hands over. *)
Theorem editor_tags_stay_tidy (st : EditorState) (key0 tagToRemove : string) :
  tidyTags (st_tags st) ->
  tidyTags (st_tags (handleTagInputKeyDown key0 st)) /\
  tidyTags (st_tags (removeTag tagToRemove st)) /\
  tidyTags (finalTags st).
Proof.
  intros Htidy. split_and!.
  - unfold handleTagInputKeyDown.
    destruct (String.eqb key0 "," || String.eqb key0 "Enter"); [|done].
    destruct (nonEmpty (trim (st_tagInput st))) eqn:Hne; [|done].
    destruct (arrayIncludes (st_tags st) (trim (st_tagInput st))) eqn:Hinc; [done|].
    simpl. by apply tidyTags_snoc.
  - destruct Htidy as [Hnodup Hall]. unfold removeTag. simpl. split.
    + by apply filter_NoDup.
    + by apply filter_Forall.
  - unfold finalTags.
    destruct (nonEmpty (trim (st_tagInput st))) eqn:Hne; [|done].
    destruct (arrayIncludes (st_tags st) (trim (st_tagInput st))) eqn:Hinc; [done|].
    simpl. by apply tidyTags_snoc.
Qed.

Section EditorMore.
Context `{Runtime}.

(** X10. Committing the pending tag text with Enter or a comma and then
    saving hands over the same entry as saving with the text still
    pending; any other key leaves the editor as it is. *)
Theorem handleSave_after_commit (initialData : option PromptEntry)
    (st : EditorState) (key0 : string) :
  (key0 = "Enter" \/ key0 = "," ->
     st_tagInput (handleTagInputKeyDown key0 st) = "" /\
     saved (handleSave initialData (handleTagInputKeyDown key0 st))
       = saved (handleSave initialData st)) /\
  (key0 <> "Enter" -> key0 <> "," -> handleTagInputKeyDown key0 st = st).
Proof.
  split.
  - intros Hkey.
    assert (String.eqb key0 "," || String.eqb key0 "Enter" = true) as Hcommit.
    { destruct Hkey as [-> | ->]; done. }
    unfold handleTagInputKeyDown. rewrite Hcommit. split; [done|].
    unfold handleSave.
    assert (Hvalidate : forall tags0 input0,
              validate (withTagInput (withTags st tags0) input0) = validate st)
      by done.
    destruct (nonEmpty (trim (st_tagInput st))
              && negb (arrayIncludes (st_tags st) (trim (st_tagInput st)))) eqn:Hadd.
    + rewrite Hvalidate. destruct (hasErrors (validate st)); [done|].
      simpl. unfold finalTags at 2. rewrite Hadd. done.
    + change (validate (withTagInput st "")) with (validate st).
      destruct (hasErrors (validate st)); [done|].
      simpl. unfold finalTags at 2. rewrite Hadd. done.
  - intros Henter Hcomma. unfold handleTagInputKeyDown.
    apply String.eqb_neq in Henter, Hcomma. by rewrite Henter, Hcomma.
Qed.

(** X11. A parameter row that was added and left with an empty key never
    reaches the saved entry: adding a row and saving hands over the same
    entry as saving without it. *)
Theorem handleSave_after_addParameter (initialData : option PromptEntry)
    (st : EditorState) :
  saved (handleSave initialData (addParameter st))
    = saved (handleSave initialData st).
Proof.
  unfold handleSave.
  change (validate (addParameter st)) with (validate st).
  destruct (hasErrors (validate st)); [done|].
  simpl. rewrite List.filter_app. simpl. by rewrite app_nil_r.
Qed.
(** X12. Editing a parameter row keeps the number, the order and the ids
    of the rows, changes only the named field of the rows with the given
    id and leaves the other rows as they are; removing the row that was
    just added (its id being new) gives the rows back. *)
Theorem parameter_rows_edit (id0 : string) (field : ParameterField)
    (value0 : string) (st : EditorState) :
  param_id <$> st_parameters (updateParameter id0 field value0 st)
    = param_id <$> st_parameters st /\
  (forall (i : nat) (p : PromptParameter),
     st_parameters st !! i = Some p ->
     exists q,
       st_parameters (updateParameter id0 field value0 st) !! i = Some q /\
       (param_id p <> id0 -> q = p) /\
       (param_id p = id0 ->
          match field with
          | keyField => key q = value0 /\ value q = value p
          | valueField => value q = value0 /\ key q = key p
          end)) /\
  ((forall p, p ∈ st_parameters st -> param_id p <> generateId) ->
     st_parameters (removeParameter generateId (addParameter st))
       = st_parameters st).
Proof.
  split_and!.
  - unfold updateParameter. simpl. change (@map) with (@fmap list _).
    rewrite <- list_fmap_compose. apply list_fmap_ext. intros _ p _. simpl.
    by destruct (String.eqb (param_id p) id0), field.
  - intros i p Hp. unfold updateParameter. simpl. change (@map) with (@fmap list _).
    rewrite list_lookup_fmap, Hp. simpl. eexists. split; [done|].
    destruct (String.eqb_spec (param_id p) id0); split; try done.
    intros _. by destruct field.
  - intros Hfresh. unfold removeParameter, addParameter. simpl.
    rewrite List.filter_app. simpl. rewrite String.eqb_refl. simpl.
    rewrite app_nil_r. apply filter_all. intros p Hp.
    by apply negb_true_iff, String.eqb_neq, Hfresh.
Qed.

End EditorMore.

(** ** [getImageExtension] *)

Lemma stripPrefix_spec (prefix s rest : string) :
  stripPrefix prefix s = Some rest <-> s = prefix +:+ rest.
Proof.
  revert s. induction prefix as [|a prefix IH]; intros s; simpl.
  - split; [by intros [= ->]|by intros ->].
  - destruct s as [|b s]; [done|].
    destruct (Ascii.eqb_spec a b) as [-> | Hab].
    + rewrite IH. split; [by intros ->|by intros [= ->]].
    + split; [done|]. by intros [= <- _].
Qed.

Lemma spanWord_spec (s w rest : string) :
  spanWord s = (w, rest) <->
  s = w +:+ rest /\ allWordChars w = true /\ headNotWord rest.
Proof.
  revert w. induction s as [|c s IH]; intros w; simpl.
  - split.
    + by intros [= <- <-].
    + intros (Hs & _ & _). destruct w; [|done]. simpl in Hs. by subst.
  - destruct (isWordChar c) eqn:Hc.
    + destruct (spanWord s) as [w' rest'] eqn:Hrec. split.
      * intros [= <- <-]. destruct (proj1 (IH w') eq_refl) as (-> & Hw & Hrest).
        simpl. by rewrite Hc, Hw.
      * intros (Hs & Hw & Hrest). destruct w as [|d w].
        -- simpl in Hs. subst rest. simpl in Hrest. congruence.
        -- simpl in Hs, Hw. injection Hs as <- ->.
           apply andb_true_iff in Hw as [_ Hw].
           assert ((w', rest') = (w, rest)) as [= -> ->]; [by apply IH|done].
    + split.
      * intros [= <- <-]. simpl. by rewrite Hc.
      * intros (Hs & Hw & Hrest). destruct w as [|d w].
        -- simpl in Hs. by subst.
        -- simpl in Hs, Hw. injection Hs as <- ->.
           apply andb_true_iff in Hw as [Hd _]. congruence.
Qed.

(** X14. [getImageExtension] gives the subtype of a data URL of the form
    data:image/<subtype>;base64,<payload> whose subtype is a non-empty run
    of word characters, and png for every other string (a subtype such as
    svg+xml included); so its result is never empty and holds word
    characters only. *)
Theorem getImageExtension_spec (base64 : string) :
  (forall ext payload,
     ext <> "" -> allWordChars ext = true ->
     getImageExtension ("data:image/" +:+ ext +:+ ";base64," +:+ payload) = ext) /\
  (getImageExtension base64 = "png" \/
   exists payload,
     base64 = "data:image/" +:+ getImageExtension base64 +:+ ";base64," +:+ payload) /\
  getImageExtension base64 <> "" /\
  allWordChars (getImageExtension base64) = true.
Proof.
  split_and!.
  - intros ext payload Hne Hword. unfold getImageExtension.
    assert (stripPrefix "data:image/" ("data:image/" +:+ ext +:+ ";base64," +:+ payload)
            = Some (ext +:+ ";base64," +:+ payload)) as ->
      by (by apply stripPrefix_spec).
    assert (spanWord (ext +:+ ";base64," +:+ payload) = (ext, ";base64," +:+ payload)) as ->
      by (by apply spanWord_spec).
    apply nonEmpty_true in Hne. rewrite Hne.
    assert (startsWith (";base64," +:+ payload) ";base64," = true) as ->
      by (apply startsWith_prefix; by exists payload).
    done.
  - unfold getImageExtension.
    destruct (stripPrefix "data:image/" base64) as [rest|] eqn:Hstrip; [|by left].
    apply stripPrefix_spec in Hstrip as ->.
    destruct (spanWord rest) as [w rest'] eqn:Hspan.
    apply spanWord_spec in Hspan as (-> & _ & _).
    destruct (nonEmpty w); [|by left].
    destruct (startsWith rest' ";base64,") eqn:Hstart; [|by left].
    apply startsWith_prefix in Hstart as [payload ->].
    right. by exists payload.
  - unfold getImageExtension.
    destruct (stripPrefix "data:image/" base64) as [rest|]; [|done].
    destruct (spanWord rest) as [w rest'].
    destruct (nonEmpty w) eqn:Hne; [|done].
    destruct (startsWith rest' ";base64,"); [|done].
    by apply nonEmpty_true.
  - unfold getImageExtension.
    destruct (stripPrefix "data:image/" base64) as [rest|]; [|done].
    destruct (spanWord rest) as [w rest'] eqn:Hspan.
    apply spanWord_spec in Hspan as (_ & Hw & _).
    destruct (nonEmpty w); [|done].
    by destruct (startsWith rest' ";base64,").
Qed.

(** ** The names of the exported image files *)

Lemma parseDigits_of_uint_acc (d : Decimal.uint) (acc : positive) :
  parseDigits (Npos acc) (DecimalString.NilEmpty.string_of_uint d)
  = Npos (Pos.of_uint_acc d acc).
Proof.
  revert acc. induction d; intros acc; simpl; [done|..];
    rewrite <- IHd; f_equal; unfold digitValue; simpl; lia.
Qed.

Lemma parseDigits_of_uint (d : Decimal.uint) :
  parseDigits 0%N (DecimalString.NilEmpty.string_of_uint d) = N.of_uint d.
Proof.
  unfold N.of_uint. induction d; simpl; [done|exact IHd|..];
    apply (parseDigits_of_uint_acc d).
Qed.

Lemma allDigits_of_uint (d : Decimal.uint) :
  allDigits (DecimalString.NilEmpty.string_of_uint d) = true.
Proof. induction d; simpl; done. Qed.

Lemma numberToString_spec (n : N) :
  numberToString n <> "" /\ allDigits (numberToString n) = true /\
  parseInt (numberToString n) = n.
Proof.
  unfold numberToString, parseInt. split_and!.
  - destruct n as [|p]; [done|]. simpl.
    pose proof (DecimalPos.Unsigned.to_uint_nonnil p) as Hnil.
    by destruct (Pos.to_uint p).
  - apply allDigits_of_uint.
  - rewrite parseDigits_of_uint. apply DecimalN.Unsigned.of_to.
Qed.

(** X15. Every file the export writes into the DATA folder carries a name
    that reattachment reads as its own slot: the before-image file of
    entry number [n] names slot ([n], Before), the after-image file names
    slot ([n], After), whatever the image. *)
Theorem exported_names_match (n : N) (image : string) :
  slotOf (beforeFileName n image) = Some (n, Before) /\
  slotOf (afterFileName n image) = Some (n, After).
Proof.
  destruct (numberToString_spec n) as (Hne & Hdigits & Hparse).
  split; apply slotOf_pattern.
  - exists (numberToString n), "Before", (getImageExtension image). by split_and!.
  - exists (numberToString n), "After", (getImageExtension image). by split_and!.
Qed.

(** ** [loadImagesFromFolder] *)

Lemma mapSet_elem_of (m : ImageMap) (k v k' v' : string) :
  NoDup (fst <$> m) ->
  (k', v') ∈ mapSet m k v <->
  (k' = k /\ v' = v) \/ (k' <> k /\ (k', v') ∈ m).
Proof.
  induction m as [|[a b] rest IH]; intros Hnodup; simpl.
  - rewrite list_elem_of_singleton, elem_of_nil. split.
    + intros [= -> ->]. by left.
    + intros [[-> ->] | [_ []]]. done.
  - simpl in Hnodup. apply NoDup_cons in Hnodup as [Ha Hrest].
    destruct (String.eqb_spec a k) as [-> | Hak].
    + rewrite !elem_of_cons. split.
      * intros [[= -> ->] | Hin]; [by left|].
        right. split; [|by right]. intros ->. apply Ha.
        apply list_elem_of_fmap. by exists (k, v').
      * intros [[-> ->] | [Hne [[= ? ?] | Hin]]]; [by left|done|by right].
    + rewrite !elem_of_cons, (IH Hrest). split.
      * intros [[= -> ->] | [[-> ->] | [Hne Hin]]];
          [right; split; [done|by left] | by left | right; split; [done|by right]].
      * intros [[-> ->] | [Hne [[= -> ->] | Hin]]];
          [right; by left | by left | right; right; done].
Qed.

Lemma mapSet_keys (m : ImageMap) (k v : string) :
  NoDup (fst <$> m) -> NoDup (fst <$> mapSet m k v).
Proof.
  induction m as [|[a b] rest IH]; intros Hnodup; simpl.
  - apply NoDup_singleton.
  - simpl in Hnodup. apply NoDup_cons in Hnodup as [Ha Hrest].
    destruct (String.eqb_spec a k) as [-> | Hak]; simpl.
    + by apply NoDup_cons.
    + apply NoDup_cons. split; [|by apply IH].
      intros Hin. apply list_elem_of_fmap in Hin as ([k' v'] & Hk & Hin).
      simpl in Hk. subst k'.
      apply (mapSet_elem_of rest k v a v' Hrest) in Hin as [[-> _] | [_ Hin]];
        [done|].
      apply Ha. apply list_elem_of_fmap. by exists (a, v').
Qed.

Lemma loadImages_fold (files : list File) (m : ImageMap) :
  NoDup (fst <$> m) ->
  NoDup (fst <$> foldl (fun imageMap file =>
                          if startsWith (file_type file) "image/"
                          then mapSet imageMap (file_name file) (file_dataURL file)
                          else imageMap) m files) /\
  forall name data,
    (name, data) ∈ foldl (fun imageMap file =>
                            if startsWith (file_type file) "image/"
                            then mapSet imageMap (file_name file) (file_dataURL file)
                            else imageMap) m files
    <-> match lastImageNamed name files with
        | Some d => data = d
        | None => (name, data) ∈ m
        end.
Proof.
  revert m. induction files as [|f files IH]; intros m Hnodup; [done|].
  cbn [foldl].
  set (m' := if startsWith (file_type f) "image/"
             then mapSet m (file_name f) (file_dataURL f) else m).
  assert (NoDup (fst <$> m')) as Hnodup'.
  { subst m'. destruct (startsWith (file_type f) "image/"); [by apply mapSet_keys|done]. }
  destruct (IH m' Hnodup') as [Hkeys Hin]. split; [done|].
  intros name data. rewrite Hin. unfold lastImageNamed. cbn [List.filter].
  unfold isImageFile at 2. subst m'.
  destruct (last (List.filter
              (fun f0 => isImageFile f0 && String.eqb (file_name f0) name) files))
    as [g|] eqn:Hlast.
  - destruct (startsWith (file_type f) "image/" && String.eqb (file_name f) name);
      [|by rewrite Hlast].
    destruct (List.filter _ files) as [|x xs]; [done|].
    by rewrite last_cons_cons, Hlast.
  - apply last_None in Hlast. rewrite Hlast.
    destruct (startsWith (file_type f) "image/") eqn:Himg; simpl; [|done].
    rewrite (mapSet_elem_of _ _ _ _ _ Hnodup).
    destruct (String.eqb_spec (file_name f) name) as [<- | Hne]; simpl.
    + split; [intros [[_ ->] | [? _]]; done | intros ->; by left].
    + split; [intros [[-> _] | [_ ?]]; done | intros ?; right; by split].
Qed.

(** X17. The image map read from a folder selection holds each file name
    at most once, and it holds a name with some data exactly when that
    data is the data URL of the last file of the selection with that name
    and an image type: files of another type are skipped, and of two
    image files with one name the later one counts. *)
Theorem loadImagesFromFolder_last (files : list File) :
  NoDup (fst <$> loadImagesFromFolder files) /\
  forall name data,
    (name, data) ∈ loadImagesFromFolder files
    <-> lastImageNamed name files = Some data.
Proof.
  destruct (loadImages_fold files [] (NoDup_nil_2)) as [Hkeys Hin].
  split; [exact Hkeys|]. intros name data.
  unfold loadImagesFromFolder. rewrite Hin.
  destruct (lastImageNamed name files) as [d|].
  - split; [by intros ->|by intros [= ->]].
  - rewrite elem_of_nil. done.
Qed.

(** ** Reattaching from the exported DATA folder *)

Lemma exportImages_elem (p : PromptEntry) (k : nat) (name image : string) :
  (name, image) ∈ exportImages p k <->
  exists side,
    imageAt side p = Some image /\ image <> "" /\
    name = fileName side (N.of_nat k + 1) image.
Proof.
  unfold exportImages. rewrite elem_of_app. split.
  - intros [Hin | Hin].
    + destruct (beforeImage p) as [b|] eqn:Hb; [|by apply elem_of_nil in Hin].
      destruct (nonEmpty b) eqn:Hne; [|by apply elem_of_nil in Hin].
      apply list_elem_of_singleton in Hin as [= -> ->].
      exists Before. by rewrite <- nonEmpty_true.
    + destruct (afterImage p) as [a|] eqn:Ha; [|by apply elem_of_nil in Hin].
      destruct (nonEmpty a) eqn:Hne; [|by apply elem_of_nil in Hin].
      apply list_elem_of_singleton in Hin as [= -> ->].
      exists After. by rewrite <- nonEmpty_true.
  - intros ([|] & Himage & Hne & ->); simpl in Himage;
      apply nonEmpty_true in Hne; [left|right]; rewrite Himage, Hne;
      by apply list_elem_of_singleton.
Qed.

Lemma exportDataFolder_elem (prompts : list PromptEntry) (k : nat)
    (name image : string) :
  (name, image) ∈ concat (mapWithIndex exportImages k prompts) <->
  exists (j : nat) (p : PromptEntry) (side : Side),
    prompts !! j = Some p /\ imageAt side p = Some image /\ image <> "" /\
    name = fileName side (N.of_nat (k + j) + 1) image.
Proof.
  revert k. induction prompts as [|p rest IH]; intros k; simpl.
  - rewrite elem_of_nil. split; [done|]. by intros (j & q & side & Hq & _).
  - rewrite elem_of_app, exportImages_elem, IH. split.
    + intros [(side & Himage & Hne & ->) | (j & q & side & Hq & Himage & Hne & ->)].
      * exists 0%nat, p, side. by rewrite Nat.add_0_r.
      * exists (S j), q, side. split_and!; try done. do 3 f_equal. lia.
    + intros ([|j] & q & side & Hq & Himage & Hne & ->); simpl in Hq.
      * left. simplify_eq. exists side. by rewrite Nat.add_0_r.
      * right. exists j, q, side. split_and!; try done. do 3 f_equal. lia.
Qed.

Lemma slotOf_fileName (side : Side) (n : N) (image : string) :
  slotOf (fileName side n image) = Some (n, side).
Proof.
  destruct (numberToString_spec n) as (Hne & Hdigits & Hparse).
  apply slotOf_pattern. destruct side.
  - exists (numberToString n), "Before", (getImageExtension image). by split_and!.
  - exists (numberToString n), "After", (getImageExtension image). by split_and!.
Qed.

Lemma namesSlot_fileName (m n : N) (side' side : Side) (image data : string) :
  namesSlot m side' (fileName side n image, data) = true <-> m = n /\ side' = side.
Proof.
  rewrite namesSlot_pattern, <- slotOf_pattern, slotOf_fileName.
  split; [by intros [= -> ->]|by intros [-> ->]].
Qed.

Lemma NoDup_constant {A} (x : A) (xs : list A) :
  NoDup xs -> (forall y, y ∈ xs -> y = x) -> x ∈ xs -> xs = [x].
Proof.
  intros Hnodup Hall Hin. destruct xs as [|a [|b rest]].
  - by apply elem_of_nil in Hin.
  - by rewrite (Hall a) by apply list_elem_of_here.
  - apply NoDup_cons in Hnodup as [Ha _]. exfalso. apply Ha.
    rewrite (Hall a) by apply list_elem_of_here.
    rewrite <- (Hall b) by apply list_elem_of_further, list_elem_of_here.
    apply list_elem_of_here.
Qed.

Lemma lastImageNamed_Some (name data : string) (files : list File) :
  lastImageNamed name files = Some data ->
  exists f, f ∈ files /\ isImageFile f = true /\ file_name f = name /\
            file_dataURL f = data.
Proof.
  unfold lastImageNamed.
  destruct (last _) as [f|] eqn:Hlast; [|done]. intros [= <-].
  apply last_Some in Hlast as [l' Hl'].
  assert (In f (List.filter
            (fun f0 => isImageFile f0 && String.eqb (file_name f0) name) files))
    as Hin by (rewrite Hl'; apply in_app_iff; right; by left).
  apply filter_In in Hin as [Hin [Himg Hname]%andb_true_iff].
  exists f. apply String.eqb_eq in Hname. by rewrite list_elem_of_In.
Qed.

Lemma lastImageNamed_is_Some (f : File) (files : list File) :
  f ∈ files -> isImageFile f = true ->
  is_Some (lastImageNamed (file_name f) files).
Proof.
  intros Hin Himg. unfold lastImageNamed.
  destruct (last _) as [g|] eqn:Hlast; [by eexists|].
  apply last_None in Hlast. exfalso.
  assert (In f (List.filter
            (fun f0 => isImageFile f0 && String.eqb (file_name f0) (file_name f)) files))
    as Hf.
  { apply filter_In. split; [by apply list_elem_of_In|].
    by rewrite Himg, String.eqb_refl. }
  by rewrite Hlast in Hf.
Qed.

(** X16. Reattaching from a folder selection that holds, in any order,
    image files with exactly the names the export wrote into the DATA
    folder gives every entry, on each side where the exported entry had an
    image, the data of the file exported for that entry and side, and
    leaves the image of every other side as it was. *)
Theorem reattach_exported_folder (prompts entries : list PromptEntry)
    (files : list File) (i : nat) (p e : PromptEntry) (side : Side) :
  Forall (fun f => isImageFile f = true) files ->
  file_name <$> files ≡ₚ fst <$> exportDataFolder prompts ->
  prompts !! i = Some p -> entries !! i = Some e ->
  exists q,
    matchImagesToPrompts entries (loadImagesFromFolder files) !! i = Some q /\
    match imageAt side p with
    | Some image =>
        if nonEmpty image then
          exists f, f ∈ files /\
                    file_name f = fileName side (N.of_nat i + 1) image /\
                    imageAt side q = Some (file_dataURL f)
        else imageAt side q = imageAt side e
    | None => imageAt side q = imageAt side e
    end.
Proof.
  intros Himages Hnames Hp He.
  exists (matchImages (loadImagesFromFolder files) e i).
  unfold matchImagesToPrompts. rewrite mapWithIndex_lookup, He. simpl.
  split; [done|]. rewrite matchImages_images.
  destruct (loadImages_fold files [] NoDup_nil_2) as [Hkeys Hmap].
  fold (loadImagesFromFolder files) in Hkeys, Hmap.
  (* every entry of the map comes from an exported file *)
  assert (Horigin : forall name data,
    (name, data) ∈ loadImagesFromFolder files ->
    namesSlot (N.of_nat i + 1) side (name, data) = true ->
    exists image, imageAt side p = Some image /\ image <> "" /\
                  name = fileName side (N.of_nat i + 1) image).
  { intros name data Hin Hslot.
    apply Hmap in Hin.
    destruct (lastImageNamed name files) as [d|] eqn:Hlast;
      [|by apply elem_of_nil in Hin].
    apply lastImageNamed_Some in Hlast as (f & Hf & _ & Hname & _).
    assert (name ∈ fst <$> exportDataFolder prompts) as Hexp.
    { rewrite <- Hnames, <- Hname. apply list_elem_of_fmap. by exists f. }
    apply list_elem_of_fmap in Hexp as ([name' image] & Hname' & Hexp).
    simpl in Hname'. subst name'.
    apply exportDataFolder_elem in Hexp as (j & p' & side' & Hp' & Himage & Hne & ->).
    apply namesSlot_fileName in Hslot as [Hj ->].
    assert (j = i) as -> by (simpl in Hj; lia).
    simplify_eq. by exists image. }
  unfold reattached.
  destruct (imageAt side p) as [image|] eqn:Himage.
  - destruct (nonEmpty image) eqn:Hne.
    + apply nonEmpty_true in Hne.
      (* the file of this slot is in the selection, hence in the map *)
      assert ((fileName side (N.of_nat i + 1) image, image) ∈ exportDataFolder prompts)
        as Hexp.
      { apply exportDataFolder_elem. by exists i, p, side. }
      assert (fileName side (N.of_nat i + 1) image ∈ file_name <$> files) as Hfile.
      { rewrite Hnames. apply list_elem_of_fmap. by eexists (_, _). }
      apply list_elem_of_fmap in Hfile as (f & Hname & Hf).
      destruct (lastImageNamed_is_Some f files Hf) as [data Hdata].
      { by apply (proj1 (Forall_forall _ _) Himages). }
      rewrite <- Hname in Hdata.
      destruct (lastImageNamed_Some _ _ _ Hdata) as (g & Hg & _ & Hgname & Hgdata).
      assert ((fileName side (N.of_nat i + 1) image, data)
                ∈ loadImagesFromFolder files) as Hin.
      { apply Hmap. by rewrite Hdata. }
      (* and it is the only entry of the map that names the slot *)
      assert (List.filter (namesSlot (N.of_nat i + 1) side) (loadImagesFromFolder files)
              = [(fileName side (N.of_nat i + 1) image, data)]) as ->.
      { apply NoDup_constant.
        - apply (NoDup_fmap_1 fst).
          eapply sublist_NoDup; [exact Hkeys|].
          apply fmap_sublist, filter_sublist.
        - intros [name d] [Hnd Hslot]%list_elem_of_In%filter_In.
          apply list_elem_of_In in Hnd.
          destruct (Horigin name d Hnd Hslot) as (image' & [= <-] & _ & ->).
          f_equal. apply Hmap in Hnd. rewrite Hdata in Hnd. done.
        - apply list_elem_of_In, filter_In. split; [by apply list_elem_of_In|].
          by apply namesSlot_fileName. }
      simpl. exists g. by rewrite Hgdata.
    + apply nonEmpty_false in Hne.
      assert (List.filter (namesSlot (N.of_nat i + 1) side) (loadImagesFromFolder files)
              = []) as ->; [|done].
      destruct (List.filter _ _) as [|[name d] rest] eqn:Hfilter; [done|].
      assert (In (name, d) (List.filter (namesSlot (N.of_nat i + 1) side)
                              (loadImagesFromFolder files))) as Hin
        by (rewrite Hfilter; by left).
      apply filter_In in Hin as [Hnd%list_elem_of_In Hslot].
      destruct (Horigin name d Hnd Hslot) as (image' & [= <-] & Hne' & _). done.
  - assert (List.filter (namesSlot (N.of_nat i + 1) side) (loadImagesFromFolder files)
            = []) as ->; [|done].
    destruct (List.filter _ _) as [|[name d] rest] eqn:Hfilter; [done|].
    assert (In (name, d) (List.filter (namesSlot (N.of_nat i + 1) side)
                            (loadImagesFromFolder files))) as Hin
      by (rewrite Hfilter; by left).
    apply filter_In in Hin as [Hnd%list_elem_of_In Hslot].
    destruct (Horigin name d Hnd Hslot) as (image' & [=] & _).
Qed.

(** ** What the import accepts and what it rejects *)

Section ImportMore.
Context `{Runtime}.

Lemma mapImport_parseParameter (pieces : list string) (calls : nat) :
  exists ps, mapImport parseParameter pieces calls
             = Some (ps, (calls + length pieces)%nat) /\
             length ps = length pieces.
Proof.
  revert calls. induction pieces as [|piece rest IH]; intros calls; simpl.
  - exists []. unfold ret. by rewrite Nat.add_0_r.
  - destruct (IH (S calls)) as (ps & Hps & Hlen).
    eexists (_ :: ps). unfold bind at 1. unfold parseParameter at 1.
    unfold bind at 1, freshUUID at 1, ret at 1. unfold bind at 1.
    rewrite Hps. unfold ret. split; [|by simpl; rewrite Hlen].
    do 2 f_equal. lia.
Qed.

Lemma parseParameters_total (parametersStr : string) (calls : nat) :
  exists ps calls', parseParameters parametersStr calls = Some (ps, calls').
Proof.
  unfold parseParameters. destruct (nonEmpty parametersStr); [|by eexists _, _].
  destruct (mapImport_parseParameter (split ";" parametersStr) calls)
    as (ps & Hps & _).
  unfold bind. rewrite Hps. by eexists _, _.
Qed.

Lemma importRow_outcome (row : SheetRow) (calls : nat) :
  (unreadableDate row /\ importRow row calls = None) \/
  (~ unreadableDate row /\
   exists e calls', importRow row calls = Some (e, calls') /\ readFrom row e).
Proof.
  destruct (parseParameters_total (col_parameters row) calls)
    as (ps & calls1 & Hps).
  assert (exists id0 calls2,
    (if nonEmpty (col_id row) then ret (col_id row) else freshUUID) calls1
      = Some (id0, calls2) /\ (col_id row <> "" -> id0 = col_id row))
    as (id0 & calls2 & Hid & Hsame).
  { destruct (nonEmpty (col_id row)) eqn:Hne.
    - by exists (col_id row), calls1.
    - exists (randomUUID calls1), (S calls1). split; [done|].
      intros Hfilled%nonEmpty_true. congruence. }
  unfold importRow, unreadableDate, bind. rewrite Hps, Hid.
  destruct (nonEmpty (col_createdAt row)) eqn:Hdate.
  - destruct (dateToISOString (col_createdAt row)) as [iso|] eqn:Hiso.
    + right. split; [by intros [_ ?]|]. eexists _, _. split; [reflexivity|].
      by repeat split.
    + left. split; [|done]. split; [by apply nonEmpty_true|done].
  - right. split.
    + intros [Hne _]. apply nonEmpty_true in Hne. congruence.
    + eexists _, _. split; [reflexivity|]. by repeat split.
Qed.

(** The row loop stops at the first row whose date cell is filled but is
    no date, and reads every row otherwise. *)
Lemma importRows_outcome (rows : list SheetRow) (calls : nat) :
  (importRows rows calls = None <-> exists row, row ∈ rows /\ unreadableDate row) /\
  (forall es calls',
     importRows rows calls = Some (es, calls') -> Forall2 readFrom rows es).
Proof.
  unfold importRows. revert calls.
  induction rows as [|row rest IH]; intros calls; simpl.
  - split.
    + split; [done|]. intros (row & Hrow & _). by apply elem_of_nil in Hrow.
    + intros es calls' [= <- _]. constructor.
  - unfold bind at 1 3.
    destruct (importRow_outcome row calls)
      as [[Hbad ->] | [Hgood (e & calls1 & -> & Hread)]].
    + split; [|done]. split; [|done]. intros _. exists row.
      split; [apply list_elem_of_here|done].
    + destruct (IH calls1) as [Hnone Hsome]. unfold bind at 1 2.
      destruct (mapImport importRow rest calls1) as [[es calls2]|] eqn:Hrest.
      * split.
        -- split; [done|]. intros (row' & [-> | Hin]%elem_of_cons & Hbad'); [done|].
           assert (Some (es, calls2) = None) as Habs; [|done].
           apply Hnone. by exists row'.
        -- intros es' calls' [= <- _]. constructor; [done|]. by eapply Hsome.
      * split; [|done]. split; [|done]. intros _.
        destruct (proj1 Hnone eq_refl) as (row' & Hin & Hbad').
        exists row'. split; [by apply list_elem_of_further|done].
Qed.

(** X18. On a loaded workbook whose cells hold text, the import is all or
    nothing.  It is rejected exactly when the workbook has no worksheet
    named Prompts, or some row below row 1 of that worksheet has a date
    cell that is filled but is no date.  Otherwise it gives one entry per
    such row, in order, each with the prompt, the model (absent for an
    empty cell), the favorite flag (Yes or anything else) and, when the
    cell is filled, the id of its row, and with no image. *)
Theorem importFromExcel_all_or_nothing (workbook : Workbook) (calls : nat) :
  (importFromExcel workbook calls = None <->
     getWorksheet "Prompts" workbook = None \/
     exists worksheet row,
       getWorksheet "Prompts" workbook = Some worksheet /\
       row ∈ sheet_rows worksheet /\ unreadableDate row) /\
  (forall es calls',
     importFromExcel workbook calls = Some (es, calls') ->
     exists worksheet,
       getWorksheet "Prompts" workbook = Some worksheet /\
       Forall2 readFrom (sheet_rows worksheet) es).
Proof.
  unfold importFromExcel.
  destruct (getWorksheet "Prompts" workbook) as [worksheet|] eqn:Hsheet.
  - destruct (importRows_outcome (sheet_rows worksheet) calls) as [Hnone Hsome].
    split.
    + rewrite Hnone. split.
      * intros (row & Hrow & Hbad). right. by exists worksheet, row.
      * intros [Habs | (worksheet' & row & Heq & Hrow & Hbad)]; [done|].
        injection Heq as <-. by exists row.
    + intros es calls' Himport. exists worksheet. split; [done|].
      by eapply Hsome.
  - split; [|done]. split; [by left|done].
Qed.
Lemma containsChar_trimStart (d : ascii) (s : string) :
  containsChar d s = false -> containsChar d (trimStart s) = false.
Proof.
  induction s as [|c s IH]; [done|]. cbn [trimStart].
  destruct (isWhiteSpace c); [|done].
  intros [_ Hs]%orb_false_iff. by apply IH.
Qed.

Lemma containsChar_trimEnd (d : ascii) (s : string) :
  containsChar d s = false -> containsChar d (trimEnd s) = false.
Proof.
  induction s as [|c s IH]; [done|]. cbn [trimEnd].
  intros [Hc Hs]%orb_false_iff. specialize (IH Hs).
  destruct (trimEnd s) as [|e r].
  - destruct (isWhiteSpace c); [done|]. simpl. by rewrite Hc.
  - cbn [containsChar] in *. by rewrite Hc, IH.
Qed.

Lemma containsChar_trim (d : ascii) (s : string) :
  containsChar d s = false -> containsChar d (trim s) = false.
Proof. intros Hs. by apply containsChar_trimEnd, containsChar_trimStart. Qed.

Lemma split_pieces (c : ascii) (s : string) :
  split c s <> [] /\
  Forall (fun piece => containsChar c piece = false) (split c s) /\
  forall d, containsChar d s = false ->
            Forall (fun piece => containsChar d piece = false) (split c s).
Proof.
  induction s as [|a s (Hne & Hsep & Hsub)]; cbn [split].
  - split_and!; [done|by repeat constructor|]. intros d _. by repeat constructor.
  - destruct (Ascii.eqb a c) eqn:Hac.
    + split_and!; [done|by constructor|].
      intros d [_ Hs]%orb_false_iff. constructor; [done|by apply Hsub].
    + destruct (split c s) as [|piece rest]; [done|].
      apply Forall_cons in Hsep as [Hpiece Hrest].
      split_and!; [done| |].
      * constructor; [|done]. simpl. by rewrite Hac.
      * intros d [Ha Hs]%orb_false_iff.
        specialize (Hsub d Hs). apply Forall_cons in Hsub as [Hp Hr].
        constructor; [|done]. simpl. by rewrite Ha.
Qed.

Lemma parseTags_exportable (tagsStr : string) :
  Forall exportableTag (parseTags tagsStr).
Proof.
  unfold parseTags. destruct (nonEmpty tagsStr); [|constructor].
  destruct (split_pieces "," tagsStr) as (_ & Hsep & _).
  induction Hsep as [|piece rest Hpiece _ IH]; simpl; [constructor|].
  destruct (nonEmpty (trim piece)) eqn:Hne; [|done].
  constructor; [|done]. split_and!.
  - by apply nonEmpty_true.
  - apply trim_idempotent.
  - by apply containsChar_trim.
Qed.

(** A field the import reads off a parameter piece is empty or survives
    the parameters cell. *)
Lemma parameter_field (piece : string) (i : nat) :
  containsChar ";" piece = false ->
  default "" ((trim <$> split ":" piece) !! i) = "" \/
  exportableText (default "" ((trim <$> split ":" piece) !! i)).
Proof.
  intros Hpiece. rewrite list_lookup_fmap.
  destruct (split ":" piece !! i) as [part|] eqn:Hpart; simpl; [|by left].
  destruct (split_pieces ":" piece) as (_ & Hcolon & Hsub).
  pose proof (proj1 (Forall_lookup _ _) Hcolon i part Hpart) as Hc.
  pose proof (proj1 (Forall_lookup _ _) (Hsub ";"%char Hpiece) i part Hpart) as Hs.
  destruct (trim part) as [|a t] eqn:Htrim; [by left|]. right.
  rewrite <- Htrim. split_and!.
  - by rewrite Htrim.
  - apply trim_idempotent.
  - by apply containsChar_trim.
  - by apply containsChar_trim.
Qed.

Lemma mapImport_fields (pieces : list string) (calls : nat)
    (ps : list PromptParameter) (calls' : nat) :
  Forall (fun piece => containsChar ";" piece = false) pieces ->
  mapImport parseParameter pieces calls = Some (ps, calls') ->
  Forall (fun p => (key p = "" \/ exportableText (key p)) /\
                   (value p = "" \/ exportableText (value p))) ps.
Proof.
  intros Hall. revert calls ps calls'.
  induction Hall as [|piece rest Hpiece _ IH]; intros calls ps calls'; simpl.
  - intros [= <- _]. constructor.
  - unfold bind at 1. unfold parseParameter at 1.
    unfold bind at 1, freshUUID at 1, ret at 1. unfold bind at 1.
    destruct (mapImport parseParameter rest (S calls)) as [[qs calls1]|] eqn:Hrest;
      [|done].
    unfold ret. intros [= <- _]. constructor; [|by eapply IH].
    change (map trim (split ":" piece)) with (trim <$> split ":" piece). simpl.
    split; by apply parameter_field.
Qed.

Lemma parseParameters_exportable (parametersStr : string) (calls : nat)
    (ps : list PromptParameter) (calls' : nat) :
  parseParameters parametersStr calls = Some (ps, calls') ->
  Forall exportableParameter ps.
Proof.
  unfold parseParameters. destruct (nonEmpty parametersStr).
  - unfold bind.
    destruct (mapImport parseParameter (split ";" parametersStr) calls)
      as [[qs calls1]|] eqn:Hqs; [|done].
    intros [= <- _].
    destruct (split_pieces ";" parametersStr) as (_ & Hsep & _).
    pose proof (mapImport_fields _ _ _ _ Hsep Hqs) as Hfields.
    clear Hqs. induction Hfields as [|q qs [Hk Hv] _ IH]; simpl; [constructor|].
    destruct (nonEmpty (key q)) eqn:Hkey; [|done].
    destruct (nonEmpty (value q)) eqn:Hvalue; [|done].
    apply nonEmpty_true in Hkey, Hvalue. simpl.
    constructor; [|done]. split.
    + by destruct Hk.
    + by destruct Hv.
  - intros [= <- _]. constructor.
Qed.

(** X19. Whatever the cells of a row hold, the tags and the parameters of
    the entry imported from it are ones the spreadsheet form carries
    without loss: exported again, the tags cell parses back to the same
    tags and the parameters cell to the same key/value pairs in the same
    order. *)
Theorem imported_entry_exportable (row : SheetRow) (calls calls' : nat)
    (e : PromptEntry) :
  importRow row calls = Some (e, calls') ->
  Forall exportableTag (tags e) /\
  Forall exportableParameter (parameters e) /\
  parseTags (join ", " (tags e)) = tags e /\
  exists parsed calls'',
    parseParameters (join "; " (map parameterCell (parameters e))) calls'
      = Some (parsed, calls'') /\
    keyValue <$> parsed = keyValue <$> parameters e.
Proof.
  intros Himport.
  assert (Forall exportableTag (tags e) /\ Forall exportableParameter (parameters e))
    as [Htags Hparams].
  { revert Himport. unfold importRow, bind.
    destruct (parseParameters (col_parameters row) calls) as [[ps calls1]|] eqn:Hps;
      [|done].
    destruct ((if nonEmpty (col_id row) then ret (col_id row) else freshUUID) calls1)
      as [[id0 calls2]|]; [|done].
    destruct ((if nonEmpty (col_createdAt row)
               then match dateToISOString (col_createdAt row) with
                    | Some iso => ret iso
                    | None => throw
                    end
               else ret nowISO) calls2) as [[created calls3]|]; [|done].
    intros [= <- _]. simpl. split.
    - apply parseTags_exportable.
    - by eapply parseParameters_exportable. }
  split_and!; [done|done|by apply parseTags_join|].
  by apply parseParameters_join.
Qed.
End ImportMore.

(** ** The store keeps its ids apart *)

Lemma handleSavePrompt_ids (e : PromptEntry) (prev : list PromptEntry) :
  id <$> handleSavePrompt e prev = id <$> prev \/
  (handleSavePrompt e prev = e :: prev /\ forall p, p ∈ prev -> id p <> id e).
Proof.
  unfold handleSavePrompt.
  destruct (findIndex_range (fun p => String.eqb (id p) (id e)) prev)
    as [Hnone | Hfound].
  - right. rewrite Hnone. split; [done|].
    intros p Hp Hid.
    destruct (findIndex_first (fun q => String.eqb (id q) (id e)) prev p Hp)
      as (i & _ & Hi & _); [by apply String.eqb_eq|]. lia.
  - left.
    destruct (Z.gtb_spec (findIndex (fun p => String.eqb (id p) (id e)) prev) (-1));
      [|lia].
    destruct (findIndex_lookup (fun p => String.eqb (id p) (id e)) prev)
      as (old & Hold & Hid); [lia|].
    apply String.eqb_eq in Hid.
    rewrite list_fmap_insert. apply list_insert_id.
    rewrite list_lookup_fmap, Hold. simpl. by rewrite Hid.
Qed.

(** X20. If no two stored entries share an id, this is still so after an
    upsert, after a delete, after a bulk delete, after toggling a
    favorite and after reattaching images. *)
Theorem store_ids_stay_unique (prev : list PromptEntry) (e : PromptEntry)
    (id0 : string) (confirmed : bool) (selectedIds : gset string)
    (imageMap : ImageMap) :
  NoDup (id <$> prev) ->
  NoDup (id <$> handleSavePrompt e prev) /\
  NoDup (id <$> handleDeletePrompt confirmed id0 prev) /\
  NoDup (id <$> (handleBulkDelete confirmed selectedIds prev).1) /\
  NoDup (id <$> handleToggleFavorite id0 prev) /\
  NoDup (id <$> matchImagesToPrompts prev imageMap).
Proof.
  intros Hnodup. split_and!.
  - destruct (handleSavePrompt_ids e prev) as [-> | [-> Hnew]]; [done|].
    rewrite fmap_cons. apply NoDup_cons. split; [|done].
    intros (p & Hid & Hp)%list_elem_of_fmap. by apply (Hnew p).
  - unfold handleDeletePrompt. destruct confirmed; [|done].
    eapply sublist_NoDup; [exact Hnodup|]. apply fmap_sublist, filter_sublist.
  - unfold handleBulkDelete.
    destruct ((Z.of_nat (size selectedIds) >? 0) && confirmed); [|done].
    eapply sublist_NoDup; [exact Hnodup|]. apply fmap_sublist, filter_sublist.
  - assert (id <$> handleToggleFavorite id0 prev = id <$> prev) as ->; [|done].
    unfold handleToggleFavorite. change (@map) with (@fmap list _).
    rewrite <- list_fmap_compose. apply list_fmap_ext. intros _ p _. simpl.
    by destruct (String.eqb (id p) id0).
  - assert (id <$> matchImagesToPrompts prev imageMap = id <$> prev) as ->; [|done].
    unfold matchImagesToPrompts. generalize 0%nat.
    clear Hnodup. induction prev as [|p rest IH]; intros k; simpl; [done|].
    rewrite IH. f_equal. by destruct (matchImages_frame imageMap p k).
Qed.

(** ** The bulk report *)

(** X21. On a detail page of the bulk report at most 20 lines of the
    prompt are drawn, the first ones, and the truncation marker is drawn
    exactly when some line was left out. *)
Theorem bulk_prompt_lines (promptLines : list string) :
  displayLines promptLines = take 20 promptLines /\
  Z.of_nat (length (displayLines promptLines)) <= maxLines /\
  (drawsTruncatedMarker promptLines = true
   <-> displayLines promptLines <> promptLines) /\
  (drawsTruncatedMarker promptLines = false
   <-> displayLines promptLines = promptLines).
Proof.
  assert (Hwin : displayLines promptLines = take 20 promptLines).
  { unfold displayLines, maxLines.
    change 20 with (0 + 20). rewrite slice_window by lia. by rewrite drop_0. }
  assert (Hiff : displayLines promptLines = promptLines
                 <-> (length promptLines <= 20)%nat).
  { rewrite Hwin. split.
    - intros Heq. apply (f_equal length) in Heq. rewrite length_take in Heq. lia.
    - intros Hle. by apply take_ge. }
  unfold drawsTruncatedMarker, maxLines.
  split_and!; [done| | |].
  - rewrite Hwin, length_take. lia.
  - rewrite Hiff. destruct (Z.gtb_spec (Z.of_nat (length promptLines)) 20);
      split; (done || lia).
  - rewrite Hiff. destruct (Z.gtb_spec (Z.of_nat (length promptLines)) 20);
      split; (done || lia).
Qed.

(** ** The sizes of the pages *)

(** X22. Every page before the last holds exactly 12 entries, the last
    page holds the rest (at least one, at most 12), and page 0 and every
    page after the last are empty. *)
Theorem page_sizes (filtered : list PromptEntry) (page : Z) :
  (1 <= page < totalPages filtered ->
     length (paginatedPrompts filtered page) = 12%nat) /\
  (filtered <> [] -> page = totalPages filtered ->
     Z.of_nat (length (paginatedPrompts filtered page))
       = Z.of_nat (length filtered) - 12 * (totalPages filtered - 1) /\
     (1 <= length (paginatedPrompts filtered page) <= 12)%nat) /\
  (totalPages filtered < page -> paginatedPrompts filtered page = []) /\
  paginatedPrompts filtered 0 = [].
Proof.
  assert (Hdiv := Z.div_mod (Z.of_nat (length filtered) + 12 - 1) 12).
  assert (Hmod := Z.mod_pos_bound (Z.of_nat (length filtered) + 12 - 1) 12).
  split_and!.
  - intros Hpage. rewrite paginatedPrompts_window by lia.
    rewrite length_take, length_drop.
    unfold totalPages, ITEMS_PER_PAGE in Hpage. lia.
  - intros Hne ->. pose proof (totalPages_positive filtered Hne) as Hpos.
    rewrite paginatedPrompts_window by lia.
    rewrite length_take, length_drop.
    unfold totalPages, ITEMS_PER_PAGE in *. lia.
  - intros Hpage. destruct (totalPages_covers filtered) as [Hpos Hcover].
    rewrite paginatedPrompts_window by lia.
    rewrite drop_ge; [done|]. lia.
  - unfold paginatedPrompts, slice, relativeIndex, ITEMS_PER_PAGE. simpl.
    match goal with
    | |- take ?n _ = _ => replace n with 0%nat by lia
    end.
    done.
Qed.

(** ** Upserting twice *)

(** X23. Upserting the same entry a second time changes nothing. *)
Theorem handleSavePrompt_idempotent (e : PromptEntry) (prev : list PromptEntry) :
  handleSavePrompt e (handleSavePrompt e prev) = handleSavePrompt e prev.
Proof.
  destruct (handleSavePrompt_ids e prev) as [_ | [Hprepend _]].
  - destruct (findIndex_range (fun p => String.eqb (id p) (id e)) prev)
      as [Hnone | Hfound].
    + assert (handleSavePrompt e prev = e :: prev) as ->.
      { unfold handleSavePrompt. by rewrite Hnone. }
      unfold handleSavePrompt. simpl. by rewrite String.eqb_refl.
    + destruct (findIndex_lookup (fun p => String.eqb (id p) (id e)) prev)
        as (old & Hold & Hid); [lia|].
      assert (exists i old', firstWithId prev i old' e) as (i & old' & Hfirst).
      { destruct (findIndex_first (fun q => String.eqb (id q) (id e)) prev old)
          as (i & y & _ & Hy & Hidy & Hbefore).
        - by eapply list_elem_of_lookup_2.
        - done.
        - exists i, y. split_and!; [done|by apply String.eqb_eq|].
          intros j q Hj Hq. apply String.eqb_neq. by eapply Hbefore. }
      rewrite (handleSavePrompt_replace prev i old' e Hfirst).
      destruct Hfirst as (Hlookup & _ & Hbefore).
      assert (i < length prev)%nat as Hi by (by eapply lookup_lt_Some).
      rewrite (handleSavePrompt_replace (<[i := e]> prev) i e e).
      * apply list_insert_insert_eq.
      * split_and!; [by apply list_lookup_insert_eq|done|].
        intros j q Hj Hq. rewrite list_lookup_insert_ne in Hq by lia.
        by eapply Hbefore.
  - rewrite Hprepend. unfold handleSavePrompt. simpl. by rewrite String.eqb_refl.
Qed.

(** ** What always survives the spreadsheet *)

Section RoundTripMore.
Context `{Runtime}.

Lemma importRows_readFrom (rows : list SheetRow) (calls : nat)
    (es : list PromptEntry) (calls' : nat) :
  importRows rows calls = Some (es, calls') -> Forall2 readFrom rows es.
Proof.
  unfold importRows. revert calls es calls'.
  induction rows as [|row rest IH]; intros calls es calls'; simpl.
  - intros [= <- _]. constructor.
  - unfold bind at 1.
    destruct (importRow_outcome row calls)
      as [[_ ->] | [_ (e & calls1 & -> & Hread)]]; [done|].
    unfold bind at 1.
    destruct (mapImport importRow rest calls1) as [[es' calls2]|] eqn:Hrest; [|done].
    unfold ret. intros [= <- _]. constructor; [done|]. by eapply IH.
Qed.

(** X24. Whatever the tags and parameters of the entries are, when an
    export to an xlsx file followed by an import of that file succeeds, it
    gives one entry per exported entry, in order, with no image; and every
    entry whose prompt, model, favorite and id cells the file carries as
    they are comes back with the same prompt, the same id (if it is not
    empty), the same model (an empty model comes back absent) and the
    same favorite status. *)
Theorem roundTrip_always (prompts : list PromptEntry) (calls : nat)
    (es : list PromptEntry) (calls' : nat) :
  roundTrip prompts calls = Some (es, calls') ->
  Forall2 (fun e imported =>
             beforeImage imported = None /\ afterImage imported = None /\
             (carriedFields e -> survivesRoundTrip e imported))
          prompts es.
Proof.
  rewrite roundTrip_rows. intros Himport%importRows_readFrom.
  revert Himport. unfold exportRows. generalize 0%nat as k. revert es.
  induction prompts as [|p rest IH]; intros es k Hread;
    cbn [mapWithIndex map] in Hread.
  - apply Forall2_nil_inv_l in Hread as ->. constructor.
  - apply Forall2_cons_inv_l in Hread as (e & es' & Hp & Hrest & ->).
    constructor; [|by eapply IH].
    destruct Hp as (Hprompt & Hmodel & Hfav & Hid & Hbefore & Hafter).
    split; [done|]. split; [done|].
    unfold carriedFields, carried.
    cbn [xlsxRow exportRow col_prompt col_model col_favorite col_id]
      in Hprompt, Hmodel, Hfav, Hid |- *.
    intros (Hcprompt & Hcmodel & Hcfav & Hcid).
    rewrite Hcprompt in Hprompt. rewrite Hcmodel in Hmodel.
    rewrite Hcfav in Hfav. rewrite Hcid in Hid.
    unfold survivesRoundTrip. split_and!; try done.
    + rewrite Hmodel. by destruct (model p) as [[|c m]|].
    + rewrite Hfav. by destruct (truthyFlag (isFavorite p)).
Qed.
End RoundTripMore.

(** ** The exported files do not overwrite each other *)

(** X25. No two files of the exported DATA folder have the same name. *)
Theorem exportDataFolder_names_distinct (prompts : list PromptEntry) :
  NoDup (fst <$> exportDataFolder prompts).
Proof.
  unfold exportDataFolder. generalize 0%nat as k.
  induction prompts as [|p rest IH]; intros k; simpl; [constructor|].
  rewrite fmap_app. apply NoDup_app. split_and!.
  - unfold exportImages.
    destruct (beforeImage p) as [b|], (afterImage p) as [a|]; simpl;
      try destruct (nonEmpty b); try destruct (nonEmpty a); simpl;
      try apply NoDup_nil_2; try apply NoDup_singleton.
    apply NoDup_cons. split; [|apply NoDup_singleton].
    intros Hsame%list_elem_of_singleton.
    pose proof (slotOf_fileName Before (N.of_nat k + 1) b) as Hb.
    pose proof (slotOf_fileName After (N.of_nat k + 1) a) as Ha.
    simpl in Hb, Ha. rewrite Hsame in Hb. congruence.
  - intros name ([name1 image1] & Hname1 & Hhead)%list_elem_of_fmap
                ([name2 image2] & Hname2 & Htail)%list_elem_of_fmap.
    simpl in Hname1, Hname2. subst name1 name2.
    apply exportImages_elem in Hhead as (side1 & _ & _ & Hn1).
    apply exportDataFolder_elem in Htail as (j & q & side2 & _ & _ & _ & Hn2).
    pose proof (slotOf_fileName side1 (N.of_nat k + 1) image1) as H1.
    pose proof (slotOf_fileName side2 (N.of_nat (S k + j) + 1) image2) as H2.
    rewrite <- Hn1 in H1. rewrite <- Hn2, H1 in H2.
    injection H2 as Hnum _. lia.
  - apply IH.
Qed.

(** ** Reattaching when nothing matches *)

Lemma mapWithIndex_id {A} (f : A -> nat -> A) (k : nat) (xs : list A) :
  (forall (i : nat) (x : A), xs !! i = Some x -> f x (k + i)%nat = x) ->
  mapWithIndex f k xs = xs.
Proof.
  revert k. induction xs as [|x rest IH]; intros k Hid; simpl; [done|].
  f_equal.
  - pose proof (Hid 0%nat x eq_refl) as Hhead. by rewrite Nat.add_0_r in Hhead.
  - apply IH. intros i y Hy.
    replace (S k + i)%nat with (k + S i)%nat by lia. by apply Hid.
Qed.

(** X26. When no file of the map names a slot of one of the entries (the
    map is empty, the names do not follow the pattern, or their numbers
    are 0 or beyond the number of entries), reattachment gives back the
    entries as they are. *)
Theorem matchImagesToPrompts_nothing_to_attach (prompts : list PromptEntry)
    (imageMap : ImageMap) :
  (forall entry (i : nat) (side : Side),
     entry ∈ imageMap -> (i < length prompts)%nat ->
     namesSlot (N.of_nat i + 1) side entry = false) ->
  matchImagesToPrompts prompts imageMap = prompts.
Proof.
  intros Hnone. unfold matchImagesToPrompts. apply mapWithIndex_id.
  intros i p Hp. simpl.
  assert (Hi : (i < length prompts)%nat) by (by eapply lookup_lt_Some).
  pose proof (matchImages_images imageMap p i Before) as Hbefore.
  pose proof (matchImages_images imageMap p i After) as Hafter.
  rewrite reattached_none in Hbefore by (intros entry Hentry; by apply Hnone).
  rewrite reattached_none in Hafter by (intros entry Hentry; by apply Hnone).
  destruct (matchImages_frame imageMap p i) as (? & ? & ? & ? & ? & ? & ?).
  simpl in Hbefore, Hafter.
  destruct (matchImages imageMap p i), p. simpl in *. by subst.
Qed.

(** * Worked instances, on the sample runtime *)

#[local] Existing Instance sampleRuntime.

(** C5, as the claim states it, fails: a pending tag text that the tag
    list already holds is not added, so it does not end up as the final
    tag. *)
Lemma handleSave_pending_duplicate_counterexample :
  trim (st_tagInput (draftCatPendingTag "pets")) = "pets" /\
  exists e,
    saved (handleSave (Some entryCat) (draftCatPendingTag "pets")) = Some e /\
    tags e = ["pets"; "indoor"] /\
    last (tags e) <> Some "pets".
Proof.
  split; [reflexivity|]. eexists. split; [reflexivity|].
  split; [reflexivity|]. vm_compute. discriminate.
Qed.

Lemma handleSave_contract_witness :
  (saved (handleSave None draftBlankPrompt) = None /\
   is_Some (err_prompt (st_errors (editor (handleSave None draftBlankPrompt))))) /\
  (saved (handleSave None draftNoImage) = None /\
   is_Some (err_image (st_errors (editor (handleSave None draftNoImage))))) /\
  (exists e,
     saved (handleSave (Some entryCat) (draftCatPendingTag " studio ")) = Some e /\
     tags e = ["pets"; "indoor"; "studio"] /\
     parameters e = [mkParam "p1" "steps" "30"]).
Proof.
  split; [|split].
  - destruct (handleSave_contract None draftBlankPrompt) as [Hblank _].
    destruct Hblank as (Hsaved & _ & Herr & _); [reflexivity|].
    split; [exact Hsaved | exact Herr].
  - destruct (handleSave_contract None draftNoImage) as (_ & Hnoimg & _).
    destruct Hnoimg as (Hsaved & _ & _ & Herr & _);
      [discriminate | reflexivity | reflexivity |].
    split; [exact Hsaved | exact Herr].
  - destruct (handleSave_contract (Some entryCat) (draftCatPendingTag " studio "))
      as (_ & _ & Hok).
    destruct Hok as (e & Hsaved & _ & _ & Hfold & _ & Hparams & _);
      [discriminate | left; reflexivity |].
    exists e. split; [exact Hsaved|]. split.
    + apply Hfold; [discriminate|].
      intros Hin. repeat (apply elem_of_cons in Hin as [Hin | Hin]; [discriminate|]).
      by apply elem_of_nil in Hin.
    + exact Hparams.
Defined.






(** C1, as the claim states it, fails: a parameter value that holds a
    colon (ratio 16:9) is cut at the colon by the import, although the
    xlsx file carries every cell of the entry as it is. *)
Lemma roundTrip_colon_counterexample :
  exists imported calls',
    roundTrip [entryWide] 0%nat = Some (imported, calls') /\
    carriedByXlsx entryWide /\
    (keyValue <$> parameters entryWide) = [("ratio", "16:9")] /\
    (keyValue <$> imported ≫= parameters) = [("ratio", "16")] /\
    ~ Forall2 reimportedExactly [entryWide] imported.
Proof.
  destruct (roundTrip [entryWide] 0%nat) as [[imported calls']|] eqn:Htrip;
    [|vm_compute in Htrip; discriminate].
  vm_compute in Htrip. injection Htrip as <- <-.
  eexists _, _. split; [reflexivity|].
  split; [by repeat split; vm_compute|].
  split; [reflexivity|]. split; [reflexivity|].
  intros Hall. apply Forall2_cons_1 in Hall as [(_ & _ & _ & Hkv & _) _].
  vm_compute in Hkv. discriminate.
Qed.

Lemma exportable_samples : Forall exportable [entryCat; entryDog].
Proof.
  assert (Htext : forall s, s <> "" -> trim s = s ->
            containsChar ";" s = false -> containsChar ":" s = false ->
            exportableText s) by (by intros s ? ? ? ?).
  constructor; [|constructor; [|constructor]].
  - split_and!.
    + constructor; [|constructor]. by split_and!.
    + constructor; [|constructor]. split; by apply Htext.
    + right. by eexists.
  - split_and!.
    + constructor; [|constructor; [|constructor]]; by split_and!.
    + constructor.
    + right. by eexists.
Defined.

Lemma carried_samples : Forall carriedByXlsx [entryCat; entryDog].
Proof. repeat constructor. Defined.

Lemma roundTrip_reproduces_witness :
  exists imported calls',
    roundTrip [entryCat; entryDog] 0%nat = Some (imported, calls') /\
    Forall2 reimported [entryCat; entryDog] imported.
Proof.
  exact (roundTrip_reproduces [entryCat; entryDog] 0%nat
           exportable_samples carried_samples).
Defined.

Example roundTrip_samples :
  roundTrip [entryCat; entryDog] 0%nat
  = Some ([ {| id := "a1"; beforeImage := None; afterImage := None;
               prompt := "cat"; model := Some "sdxl";
               parameters := [mkParam "uuid-0" "steps" "30"]; tags := ["pets"];
               createdAt := "2024-01-01T00:00:00.000Z"; isFavorite := Some true |};
            {| id := "b2"; beforeImage := None; afterImage := None;
               prompt := "dog"; model := None;
               parameters := []; tags := ["pets"; "outdoor"];
               createdAt := "2024-02-01T00:00:00.000Z"; isFavorite := Some false |} ],
          1%nat).
Proof. vm_compute. reflexivity. Qed.

Lemma filteredPrompts_spec_witness :
  entryCat ∈ filteredPrompts [entryCat; entryDog] "CAT" ∅ all /\
  passesTags {["pets"; "studio"]} entryCat.
Proof.
  destruct (filteredPrompts_spec [entryCat; entryDog] "CAT" ∅ all)
    as (Hmember & _ & Hor & _).
  split.
  - apply Hmember. split_and!.
    + apply list_elem_of_here.
    + discriminate.
    + left. by exists "", "cat", "".
    + by left.
  - apply Hor. reflexivity.
Defined.

(** The end-to-end example of the specification: the more recent entry
    comes first, and a search for cat keeps the cat entry only. *)
Example filteredPrompts_samples :
  filteredPrompts [entryCat; entryDog] "" ∅ all = [entryDog; entryCat] /\
  filteredPrompts [entryCat; entryDog] "cat" ∅ all = [entryCat] /\
  filteredPrompts [entryCat; entryDog] "" {["outdoor"; "studio"]} all = [entryDog] /\
  filteredPrompts [entryCat; entryDog] "" ∅ favorites = [entryCat].
Proof. vm_compute. done. Qed.

(** * Worked instances for the rest of the sources *)

Lemma handleDeletePrompt_removes_witness :
  handleDeletePrompt true "zz" [entryDog; entryCat] = [entryDog; entryCat] /\
  entryDog ∈ handleDeletePrompt true "a1" [entryDog; entryCat].
Proof.
  destruct (handleDeletePrompt_removes "zz" [entryDog; entryCat])
    as (_ & _ & Habsent & _).
  destruct (handleDeletePrompt_removes "a1" [entryDog; entryCat])
    as (Hmember & _).
  split.
  - apply Habsent. intros p Hp.
    apply elem_of_cons in Hp as [-> | Hp]; [discriminate|].
    apply list_elem_of_singleton in Hp. subst p. discriminate.
  - apply Hmember. split; [apply list_elem_of_here | discriminate].
Defined.

Lemma handleDeletePrompt_after_upsert_witness :
  handleDeletePrompt true (id entryCat) (handleSavePrompt entryCat [entryDog])
    = [entryDog].
Proof.
  destruct (handleDeletePrompt_after_upsert entryCat [entryDog]) as [_ Hback].
  apply Hback. intros p Hp.
  apply list_elem_of_singleton in Hp. subst p. discriminate.
Defined.

Lemma handleBulkDelete_removes_witness :
  (handleBulkDelete true {["a1"]} [entryDog; entryCat]).2 = ∅ /\
  (handleBulkDelete true {["a1"]} [entryDog; entryCat]).1
    = foldr (handleDeletePrompt true) [entryDog; entryCat] (elements ({["a1"]} : gset string)).
Proof.
  destruct (handleBulkDelete_removes {["a1"]} [entryDog; entryCat])
    as (Hselected & _).
  destruct Hselected as (Hcleared & _ & Hfold).
  - apply non_empty_singleton_L.
  - split; [exact Hcleared | exact Hfold].
Defined.

Lemma handleToggleFavorite_flips_witness :
  exists q,
    handleToggleFavorite "a1" [entryCat; entryDog] !! 0%nat = Some q /\
    truthyFlag (isFavorite q) = negb (truthyFlag (isFavorite entryCat)).
Proof.
  destruct (handleToggleFavorite_flips "a1" [entryCat; entryDog])
    as (_ & Hflip & _).
  destruct (Hflip 0%nat entryCat) as (q & Hq & Hflag & _); [reflexivity|].
  exists q. split; [exact Hq|]. apply Hflag. reflexivity.
Defined.

Lemma handleTagToggle_involutive_witness :
  ("pets" ∈ (handleTagToggle "outdoor" {["pets"]}).1 <-> "pets" ∈ ({["pets"]} : gset string)).
Proof.
  destruct (handleTagToggle_involutive "outdoor" {["pets"]}) as (_ & Hother & _).
  apply Hother. discriminate.
Defined.

Lemma pageClampEffect_settles_witness :
  1 <= pageClampEffect 7 (totalPages [entryDog; entryCat])
    <= totalPages [entryDog; entryCat] /\
  paginatedPrompts [entryDog; entryCat]
    (pageClampEffect 7 (totalPages [entryDog; entryCat])) <> [].
Proof.
  destruct (pageClampEffect_settles [entryDog; entryCat] 7) as (_ & Hrange & Hshown).
  - discriminate.
  - lia.
  - split; [exact Hrange | exact Hshown].
Defined.

Lemma tidyTags_sample : tidyTags ["pets"; "indoor"].
Proof.
  split.
  - apply NoDup_cons. split; [|apply NoDup_singleton].
    intros Hin. apply list_elem_of_singleton in Hin. discriminate.
  - constructor; [|constructor; [|constructor]]; split; (discriminate || reflexivity).
Defined.

Lemma editor_tags_stay_tidy_witness :
  tidyTags (st_tags (handleTagInputKeyDown "Enter" (draftCatPendingTag " studio "))) /\
  tidyTags (finalTags (draftCatPendingTag " pets ")).
Proof.
  destruct (editor_tags_stay_tidy (draftCatPendingTag " studio ") "Enter" "pets"
              tidyTags_sample) as (Hkey & _ & _).
  destruct (editor_tags_stay_tidy (draftCatPendingTag " pets ") "Enter" "pets"
              tidyTags_sample) as (_ & _ & Hsave).
  split; [exact Hkey | exact Hsave].
Defined.

Lemma handleSave_after_commit_witness :
  saved (handleSave (Some entryCat)
           (handleTagInputKeyDown "Enter" (draftCatPendingTag " studio ")))
    = saved (handleSave (Some entryCat) (draftCatPendingTag " studio ")) /\
  handleTagInputKeyDown "a" (draftCatPendingTag " studio ")
    = draftCatPendingTag " studio ".
Proof.
  destruct (handleSave_after_commit (Some entryCat) (draftCatPendingTag " studio ") "Enter")
    as [Hcommit _].
  destruct (handleSave_after_commit (Some entryCat) (draftCatPendingTag " studio ") "a")
    as [_ Hother].
  split.
  - apply Hcommit. left. reflexivity.
  - apply Hother; discriminate.
Defined.

Lemma parameter_rows_edit_witness :
  st_parameters (removeParameter generateId (addParameter draftCat))
    = st_parameters draftCat /\
  exists q,
    st_parameters (updateParameter "p1" valueField "50" draftCat) !! 0%nat = Some q /\
    value q = "50" /\ key q = "steps".
Proof.
  destruct (parameter_rows_edit "p1" valueField "50" draftCat)
    as (_ & Hrow & Hundo).
  split.
  - apply Hundo. intros p Hp.
    apply list_elem_of_singleton in Hp. subst p. discriminate.
  - destruct (Hrow 0%nat (mkParam "p1" "steps" "30")) as (q & Hq & _ & Hfield);
      [reflexivity|].
    exists q. split; [exact Hq|]. apply Hfield. reflexivity.
Defined.


Lemma getImageExtension_spec_witness :
  getImageExtension ("data:image/" +:+ "webp" +:+ ";base64," +:+ "UklGRg==") = "webp".
Proof.
  destruct (getImageExtension_spec "") as (Hshape & _).
  apply Hshape; [discriminate | reflexivity].
Defined.

Lemma sampleFiles_names :
  file_name <$> sampleFiles ≡ₚ fst <$> exportDataFolder [entryCat; entryDog].
Proof. apply Permutation_swap. Defined.

Lemma reattach_exported_folder_witness :
  exists q,
    matchImagesToPrompts [importedCat; importedDog]
      (loadImagesFromFolder sampleFiles) !! 1%nat = Some q /\
    exists f, f ∈ sampleFiles /\ file_name f = "2_After.png" /\
              imageAt After q = Some (file_dataURL f).
Proof.
  destruct (reattach_exported_folder [entryCat; entryDog] [importedCat; importedDog]
              sampleFiles 1 entryDog importedDog After) as (q & Hq & Himage).
  - repeat constructor.
  - exact sampleFiles_names.
  - reflexivity.
  - reflexivity.
  - exists q. split; [exact Hq | exact Himage].
Defined.

Lemma importFromExcel_all_or_nothing_witness :
  @importFromExcel strictRuntime (workbookOf "Sheet1" [rowOfCat]) 0%nat = None /\
  @importFromExcel strictRuntime
     (workbookOf "Prompts" [rowOfCat; rowWithBadDate]) 0%nat = None /\
  exists es calls',
    @importFromExcel strictRuntime (workbookOf "Prompts" [rowOfCat]) 0%nat
      = Some (es, calls') /\
    Forall2 readFrom [rowOfCat] es.
Proof.
  split; [|split].
  - destruct (@importFromExcel_all_or_nothing strictRuntime
                (workbookOf "Sheet1" [rowOfCat]) 0%nat) as [Hnone _].
    apply Hnone. left. reflexivity.
  - destruct (@importFromExcel_all_or_nothing strictRuntime
                (workbookOf "Prompts" [rowOfCat; rowWithBadDate]) 0%nat)
      as [Hnone _].
    apply Hnone. right. eexists _, rowWithBadDate. split; [reflexivity|]. split.
    + apply list_elem_of_further, list_elem_of_here.
    + split; [discriminate | reflexivity].
  - destruct (@importFromExcel_all_or_nothing strictRuntime
                (workbookOf "Prompts" [rowOfCat]) 0%nat) as [_ Hsome].
    destruct (@importFromExcel strictRuntime (workbookOf "Prompts" [rowOfCat]) 0%nat)
      as [[es calls']|] eqn:Himport; [|vm_compute in Himport; discriminate].
    exists es, calls'. split; [reflexivity|].
    destruct (Hsome es calls' eq_refl) as (worksheet & Hsheet & Hread).
    injection Hsheet as <-. exact Hread.
Defined.

Lemma imported_entry_exportable_witness :
  exists e calls',
    importRow rowOfCat 0%nat = Some (e, calls') /\
    tags e = ["pets"; "indoor"] /\
    keyValue <$> parameters e = [("steps", "30"); ("ratio", "16")] /\
    Forall exportableParameter (parameters e) /\
    parseTags (join ", " (tags e)) = tags e.
Proof.
  destruct (importRow rowOfCat 0%nat) as [[e calls']|] eqn:Himport;
    [|vm_compute in Himport; discriminate].
  exists e, calls'. split; [reflexivity|].
  destruct (imported_entry_exportable rowOfCat 0%nat calls' e Himport)
    as (_ & Hparams & Htags & _).
  vm_compute in Himport. injection Himport as <- <-.
  split; [reflexivity|]. split; [reflexivity|].
  split; [exact Hparams | exact Htags].
Defined.

Lemma store_ids_stay_unique_witness :
  NoDup (id <$> handleSavePrompt entryCatEdited [entryDog; entryCat]) /\
  NoDup (id <$> handleDeletePrompt true "a1" [entryDog; entryCat]).
Proof.
  destruct (store_ids_stay_unique [entryDog; entryCat] entryCatEdited "a1" true ∅ [])
    as (Hupsert & Hdelete & _).
  - apply NoDup_cons. split; [|apply NoDup_singleton].
    intros Hin. apply list_elem_of_singleton in Hin. discriminate.
  - split; [exact Hupsert | exact Hdelete].
Defined.

Lemma page_sizes_witness :
  length (paginatedPrompts (replicate 13 entryCat) 1) = 12%nat /\
  (1 <= length (paginatedPrompts (replicate 13 entryCat) 2) <= 12)%nat /\
  paginatedPrompts [entryDog; entryCat] 5 = [].
Proof.
  destruct (page_sizes (replicate 13 entryCat) 1) as (Hfull & _).
  destruct (page_sizes (replicate 13 entryCat) 2) as (_ & Hlast & _).
  destruct (page_sizes [entryDog; entryCat] 5) as (_ & _ & Hbeyond & _).
  split; [|split].
  - apply Hfull. split; [lia | reflexivity].
  - apply Hlast; [discriminate | reflexivity].
  - apply Hbeyond. reflexivity.
Defined.

Lemma roundTrip_always_witness :
  exists es calls',
    roundTrip [entryWide] 0%nat = Some (es, calls') /\
    Forall2 survivesRoundTrip [entryWide] es.
Proof.
  destruct (roundTrip [entryWide] 0%nat) as [[es calls']|] eqn:Htrip;
    [|vm_compute in Htrip; discriminate].
  exists es, calls'. split; [reflexivity|].
  pose proof (roundTrip_always [entryWide] 0%nat es calls' Htrip) as Hall.
  apply Forall2_cons_inv_l in Hall as (q & qs & (_ & _ & Hq) & Hrest & ->).
  apply Forall2_nil_inv_l in Hrest as ->.
  constructor; [|constructor]. apply Hq. by repeat split.
Defined.

(** Under the sample file format a prompt of two lines separated by CR LF
    comes back with LF alone: the round trip succeeds and the prompt is
    not the one exported. *)
Example roundTrip_line_end :
  exists q calls',
    roundTrip [entryTwoLines] 0%nat = Some ([q], calls') /\
    prompt q = String "a" (String "010" "b") /\
    prompt q <> prompt entryTwoLines.
Proof.
  destruct (roundTrip [entryTwoLines] 0%nat) as [[es calls']|] eqn:Htrip;
    [|vm_compute in Htrip; discriminate].
  vm_compute in Htrip. injection Htrip as <- <-.
  eexists _, _. split; [reflexivity|]. split; [reflexivity|]. discriminate.
Qed.

Lemma matchImagesToPrompts_nothing_to_attach_witness :
  matchImagesToPrompts [entryCat; entryDog]
    [("notes.txt", pngData); ("7_Before.png", pngData); ("0_After.png", pngData)]
  = [entryCat; entryDog].
Proof.
  apply matchImagesToPrompts_nothing_to_attach.
  intros entry i side Hentry Hi.
  assert (i = 0 \/ i = 1)%nat as [-> | ->] by (simpl in Hi; lia);
    repeat (apply elem_of_cons in Hentry as [-> | Hentry];
            [by destruct side|]);
    by apply elem_of_nil in Hentry.
Defined.
